(** * MODA: a single-file audio container, its codec and its player

    A shallow embedding of [moda_compiler.py], [moda_decompiler.py] and the
    engine half of [moda_player.py], followed by the theorems that relate the
    code to its written specification.

    Conventions of the embedding.
    - A byte string ([bytes], [bytearray]) is a [list byte].
    - A Python [str] is a Rocq [string] holding the UTF-8 form of the text, so
      [s.encode('utf-8')] checks well-formedness and keeps the bytes, and
      [b.decode('utf-8')] does the same in the other direction.
    - A file object opened for reading is the list of bytes not read yet;
      files written are collected, in order, as (path, content) pairs.
    - Exceptions are values of [exn]; code that can raise lives in the monad
      [M], which keeps the state reached when the exception was raised.
    - The threads [play_parallel] starts are kept with the player, each at
      its next call to the mixer; they run one call at a time, in whatever
      order a schedule gives.
    - What the machine decides is a parameter: which files there are, which
      paths can be written, which sounds load, which threads can be started,
      how many calls of [play_sequential] fit inside one another. *)

From Stdlib.Strings Require Import String Ascii Byte.
From Stdlib Require Import List NArith ZArith Lia Bool Arith DecimalString.
Import ListNotations.

Set Implicit Arguments.

(** ** Exceptions *)

Inductive exn : Type :=
| NotAValidModaFile                (* ValueError("Not a valid MODA file") *)
| struct_error                     (* struct.error, from pack and unpack *)
| UnicodeDecodeError
| UnicodeEncodeError
| JSONDecodeError
| OSError                          (* open() refused the path *)
| TypeError
| KeyError
| IndexError
| pygame_error                     (* mixer.Sound could not load the file *)
| AttributeError
| RecursionError
| RuntimeError                     (* thread.start() could not start a new thread *)
| ErrorExtracting (cause : exn)    (* ValueError("Error extracting MODA file: ...") *)
| ErrorLoading (cause : exn).      (* ValueError("Error loading MODA file: ...") *)

(** The names the specification gives to the decoder's failures. *)
Definition BadMagic : exn := NotAValidModaFile.
Definition TruncatedInput : exn := struct_error.

(** ** A state and exception monad *)

Definition M (S A : Type) : Type := S -> (exn + A) * S.

Definition ret {S A : Type} (a : A) : M S A := fun s => (inr a, s).

Definition bind {S A B : Type} (m : M S A) (k : A -> M S B) : M S B :=
  fun s =>
    match m s with
    | (inl e, s') => (inl e, s')
    | (inr a, s') => k a s'
    end.

Definition raise {S A : Type} (e : exn) : M S A := fun s => (inl e, s).

Definition lift {S A : Type} (r : exn + A) : M S A := fun s => (r, s).

Definition try_except {S A : Type} (m : M S A) (handler : exn -> M S A) : M S A :=
  fun s =>
    match m s with
    | (inl e, s') => handler e s'
    | (inr a, s') => (inr a, s')
    end.

Definition gets {S A : Type} (f : S -> A) : M S A := fun s => (inr (f s), s).

Definition modify {S : Type} (f : S -> S) : M S unit := fun s => (inr tt, f s).

Declare Scope monad_scope.
Delimit Scope monad_scope with monad.
Notation "x <- m ;; k" := (bind m (fun x => k))
  (at level 61, m at next level, right associativity) : monad_scope.
Notation "m ;; k" := (bind m (fun _ => k))
  (at level 61, right associativity) : monad_scope.

(** [for _ in range(n): body] *)
Fixpoint for_range {S : Type} (n : nat) (body : M S unit) : M S unit :=
  match n with
  | O => ret tt
  | S n' => bind body (fun _ => for_range n' body)
  end.

(** The pure fragment: a computation that can only return or raise. *)
Definition bind_sum {A B : Type} (r : exn + A) (k : A -> exn + B) : exn + B :=
  match r with
  | inl e => inl e
  | inr a => k a
  end.

(** ** Bytes and [struct] *)

Definition byte_of_N (n : N) : byte :=
  match Byte.of_N n with
  | Some b => b
  | None => x00
  end.

Definition len (A : Type) (l : list A) : N := N.of_nat (length l).

(** [struct.pack(">H", n)] *)
Definition struct_pack_H (n : N) : exn + list byte :=
  if (n <? 65536)%N
  then inr [byte_of_N (n / 256); byte_of_N (n mod 256)]
  else inl struct_error.

(** [struct.pack(">I", n)] *)
Definition struct_pack_I (n : N) : exn + list byte :=
  if (n <? 4294967296)%N
  then inr [byte_of_N (n / 16777216); byte_of_N ((n / 65536) mod 256);
            byte_of_N ((n / 256) mod 256); byte_of_N (n mod 256)]
  else inl struct_error.

(** [struct.unpack(">H", b)[0]]: the buffer must hold exactly 2 bytes. *)
Definition struct_unpack_H (b : list byte) : exn + N :=
  match b with
  | [b1; b0] => inr (Byte.to_N b1 * 256 + Byte.to_N b0)%N
  | _ => inl struct_error
  end.

(** [struct.unpack(">I", b)[0]]: the buffer must hold exactly 4 bytes. *)
Definition struct_unpack_I (b : list byte) : exn + N :=
  match b with
  | [b3; b2; b1; b0] =>
      inr (Byte.to_N b3 * 16777216 + Byte.to_N b2 * 65536
           + Byte.to_N b1 * 256 + Byte.to_N b0)%N
  | _ => inl struct_error
  end.

Definition bytes_eqb (a b : list byte) : bool :=
  if list_eq_dec Byte.byte_eq_dec a b then true else false.

Definition MODA_MAGIC : list byte := list_byte_of_string "MODA".

(** ** UTF-8

    The strict decoder accepts exactly the well-formed sequences: no overlong
    form, no surrogate, nothing above U+10FFFF.  [utf8_state] is what the
    scanner still expects: [None] between characters, or the range allowed
    for the next byte together with the number of continuation bytes that
    follow it. *)

Definition utf8_state : Type := option (nat * N * N).

Definition expect (k : nat) (lo hi : N) : utf8_state := Some (k, lo, hi).

Definition utf8_step (st : utf8_state) (b : N) : option utf8_state :=
  match st with
  | None =>
      if (b <? 128)%N then Some None
      else if (b <? 194)%N then None
      else if (b <? 224)%N then Some (expect 0 128 191)
      else if (b =? 224)%N then Some (expect 1 160 191)
      else if (b =? 237)%N then Some (expect 1 128 159)
      else if (b <? 240)%N then Some (expect 1 128 191)
      else if (b =? 240)%N then Some (expect 2 144 191)
      else if (b <? 244)%N then Some (expect 2 128 191)
      else if (b =? 244)%N then Some (expect 2 128 143)
      else None
  | Some (k, lo, hi) =>
      if ((lo <=? b) && (b <=? hi))%N
      then Some (match k with O => None | S k' => expect k' 128 191 end)
      else None
  end.

Fixpoint utf8_scan (st : utf8_state) (bs : list byte) : bool :=
  match bs with
  | [] => match st with None => true | Some _ => false end
  | b :: bs' =>
      match utf8_step st (Byte.to_N b) with
      | Some st' => utf8_scan st' bs'
      | None => false
      end
  end.

Definition utf8_valid (bs : list byte) : bool := utf8_scan None bs.

(** [s.encode('utf-8')]: a name that is not well-formed UTF-8 is a [str]
    with lone surrogates, which the strict encoder refuses. *)
Definition encode_utf8 (s : string) : exn + list byte :=
  let bs := list_byte_of_string s in
  if utf8_valid bs then inr bs else inl UnicodeEncodeError.

(** [b.decode('utf-8')] *)
Definition decode_utf8 (bs : list byte) : exn + string :=
  if utf8_valid bs then inr (string_of_list_byte bs) else inl UnicodeDecodeError.

(** ** Paths ([posixpath]) and the file system *)

(** The part of [p] after its last slash, reading [p] from the left with the
    component collected so far in [acc]. *)
Fixpoint basename_from (acc p : string) : string :=
  match p with
  | EmptyString => acc
  | String c p' =>
      if Ascii.eqb c "/"%char
      then basename_from EmptyString p'
      else basename_from (acc ++ String c EmptyString)%string p'
  end.

(** [os.path.basename(p)] *)
Definition basename (p : string) : string := basename_from EmptyString p.

Definition startswith_slash (p : string) : bool :=
  match p with
  | String c _ => Ascii.eqb c "/"%char
  | EmptyString => false
  end.

Fixpoint endswith_slash (p : string) : bool :=
  match p with
  | EmptyString => false
  | String c EmptyString => Ascii.eqb c "/"%char
  | String _ p' => endswith_slash p'
  end.

(** [os.path.join(a, b)] *)
Definition os_path_join (a b : string) : string :=
  if startswith_slash b then b
  else if (String.eqb a EmptyString || endswith_slash a)%bool then (a ++ b)%string
  else (a ++ "/" ++ b)%string.

(** A path whose last component is empty, [.] or [..] names a directory (or
    nothing at all): [open] raises for it, for reading and for writing. *)
Definition names_directory (p : string) : bool :=
  let b := basename p in
  (String.eqb b EmptyString || String.eqb b "." || String.eqb b "..")%bool.

(** The files that can be read: path to content. *)
Definition filesystem : Type := string -> option (list byte).

(** [with open(p, 'rb') as f: f.read()] *)
Definition open_rb (fs : filesystem) (p : string) : exn + list byte :=
  if names_directory p then inl OSError
  else match fs p with
       | Some data => inr data
       | None => inl OSError
       end.

(** ** JSON values

    What [json.loads] returns and [json.dumps] accepts.  An object keeps its
    members in document order; a later member with the same key hides an
    earlier one, as in the [dict] Python builds. *)

#[local] Set Warnings "-register-all".
Inductive json : Type :=
| JNull
| JBool (b : bool)
| JNum (n : Z)
| JStr (s : string)
| JArr (items : list json)
| JObj (members : list (string * json)).

(** [d.get(key)] on the members of an object. *)
Fixpoint dict_lookup (members : list (string * json)) (key : string) : option json :=
  match members with
  | [] => None
  | (k, v) :: rest =>
      match dict_lookup rest key with
      | Some v' => Some v'
      | None => if String.eqb k key then Some v else None
      end
  end.

(** [meta.get(key, default)]: [AttributeError] when [meta] is not a dict. *)
Definition py_get (meta : json) (key : string) (default : json) : exn + json :=
  match meta with
  | JObj members =>
      match dict_lookup members key with
      | Some v => inr v
      | None => inr default
      end
  | _ => inl AttributeError
  end.

(** The [json] module, as far as the programs use it:
    [json_dumps m] is [json.dumps(m, indent=2).encode('utf-8')] and
    [json_loads b] is [json.loads(b.decode('utf-8'))]. *)
Class JsonModule : Type := {
  json_dumps : json -> list byte;
  json_loads : list byte -> exn + json
}.

(** ** The compiler ([moda_compiler.py]) *)

Module ModaCompiler.
Section WithJson.
Context {J : JsonModule}.

(** [enumerate(tracks)], counting from [i]. *)
Fixpoint enumerate_from (A : Type) (i : nat) (l : list A) : list (nat * A) :=
  match l with
  | [] => []
  | x :: l' => (i, x) :: enumerate_from (S i) l'
  end.

Definition enumerate (A : Type) (l : list A) : list (nat * A) := enumerate_from 0 l.

(** The truth value of [thumbnail_path]: [None] and the empty string are
    false, every other path is true and is handed on. *)
Definition truthy_path (thumbnail_path : option string) : option string :=
  match thumbnail_path with
  | Some p => if String.eqb p EmptyString then None else Some p
  | None => None
  end.

(** [{"file": os.path.basename(t), "order": i+1}] *)
Definition track_entry (it : nat * string) : json :=
  let (i, t) := it in
  JObj [("file"%string, JStr (basename t)); ("order"%string, JNum (Z.of_nat i + 1))].

(** The [meta] dict of [build_moda_file]. *)
Definition build_meta (tracks : list string) (play_mode : string)
    (thumbnail_path : option string) : json :=
  JObj [("play_mode"%string, JStr play_mode);
        ("tracks"%string, JArr (map track_entry (enumerate tracks)));
        ("thumbnail"%string,
          match truthy_path thumbnail_path with
          | Some p => JStr (basename p)
          | None => JNull
          end)].

Local Notation "x <- r ; k" := (bind_sum r (fun x => k))
  (at level 61, r at next level, right associativity).

(** The bytes appended for the thumbnail. *)
Definition thumbnail_section (fs : filesystem) (thumbnail_path : option string)
    : exn + list byte :=
  match truthy_path thumbnail_path with
  | Some p =>
      thumb_data <- open_rb fs p ;
      thumb_name <- encode_utf8 (basename p) ;
      name_len <- struct_pack_H (len thumb_name) ;
      data_len <- struct_pack_I (len thumb_data) ;
      inr (name_len ++ thumb_name ++ data_len ++ thumb_data)
  | None => struct_pack_H 0
  end.

(** The bytes appended by one turn of [for tpath in tracks]. *)
Definition track_record (fs : filesystem) (tpath : string) : exn + list byte :=
  tdata <- open_rb fs tpath ;
  tname <- encode_utf8 (basename tpath) ;
  name_len <- struct_pack_H (len tname) ;
  data_len <- struct_pack_I (len tdata) ;
  inr (name_len ++ tname ++ data_len ++ tdata).

Fixpoint track_records (fs : filesystem) (tracks : list string) : exn + list byte :=
  match tracks with
  | [] => inr []
  | tpath :: rest =>
      r <- track_record fs tpath ;
      rs <- track_records fs rest ;
      inr (r ++ rs)
  end.

(** [build_moda_file(tracks, play_mode, thumbnail_path, output_path)]: the
    result is the content written to [output_path].  The container is put
    together in memory and written at the very end; [writable] says which
    paths the disk lets the program open for writing (the directory is
    there and may be written to, the path is not a directory itself). *)
Definition build_moda_file (fs : filesystem) (writable : string -> bool)
    (tracks : list string)
    (play_mode : string) (thumbnail_path : option string) (output_path : string)
    : exn + list byte :=
  let meta := build_meta tracks play_mode thumbnail_path in
  let meta_json := json_dumps meta in
  json_len <- struct_pack_I (len meta_json) ;
  thumb <- thumbnail_section fs thumbnail_path ;
  track_count <- struct_pack_H (len tracks) ;
  records <- track_records fs tracks ;
  let moda_data := MODA_MAGIC ++ json_len ++ meta_json ++ thumb ++ track_count ++ records in
  if names_directory output_path then inl OSError
  else if writable output_path then inr moda_data
  else inl OSError.

End WithJson.
End ModaCompiler.

(** ** Reading a container: what the decompiler and the player share

    Both programs read the container through a file object [f] and write the
    embedded files out as they go. *)

Record io : Type := {
  unread : list byte;                     (* what [f] has not delivered yet *)
  written : list (string * list byte)     (* files written so far, oldest first *)
}.

(** [f.read(n)]: at most [n] bytes, fewer when the file ends first. *)
Definition f_read (n : N) : M io (list byte) :=
  fun s => (inr (firstn (N.to_nat n) (unread s)),
            {| unread := skipn (N.to_nat n) (unread s); written := written s |}).

(** [with open(path, 'wb') as out: out.write(data)], on a disk that
    refuses nothing: the directory of [path] is there and may be written
    to, and [path] is not a directory that exists.  That is the disk of a
    caller who hands in a directory it has just made, for a container whose
    names are plain file names. *)
Definition open_wb (path : string) (data : list byte) : M io unit :=
  fun s =>
    if names_directory path then (inl OSError, s)
    else (inr tt, {| unread := unread s; written := written s ++ [(path, data)] |}).

(** The same on any disk: [refused] gives the paths that [open] raises
    for, over and above those that end in a directory name. *)
Definition open_wb_on (refused : string -> bool) (path : string) (data : list byte)
    : M io unit :=
  fun s =>
    if names_directory path then (inl OSError, s)
    else if refused path then (inl OSError, s)
    else (inr tt, {| unread := unread s; written := written s ++ [(path, data)] |}).

(** [struct.unpack(">H", f.read(2))[0]] *)
Definition read_H : M io N :=
  bind (f_read 2) (fun b => lift (struct_unpack_H b)).

(** [struct.unpack(">I", f.read(4))[0]] *)
Definition read_I : M io N :=
  bind (f_read 4) (fun b => lift (struct_unpack_I b)).

(** [f.read(n).decode('utf-8')] *)
Definition read_str (n : N) : M io string :=
  bind (f_read n) (fun b => lift (decode_utf8 b)).

(** ** The decompiler ([moda_decompiler.py]) *)

Module ModaDecompiler.
Section WithJson.
Context {J : JsonModule}.

Local Open Scope monad_scope.

(** The magic and the JSON metadata. *)
Definition read_header : M io json :=
  magic <- f_read 4 ;;
  if negb (bytes_eqb magic MODA_MAGIC) then raise NotAValidModaFile
  else
    json_len <- read_I ;;
    meta_json <- f_read json_len ;;
    lift (json_loads meta_json).

(** The block under [# Read thumbnail]. *)
Definition read_thumbnail (output_dir : string) : M io unit :=
  thumb_name_len <- read_H ;;
  if (0 <? thumb_name_len)%N then
    thumb_name <- read_str thumb_name_len ;;
    thumb_size <- read_I ;;
    thumb_data <- f_read thumb_size ;;
    open_wb (os_path_join output_dir thumb_name) thumb_data
  else ret tt.

(** One turn of [for _ in range(track_count)]. *)
Definition read_track (output_dir : string) : M io unit :=
  track_name_len <- read_H ;;
  track_name <- read_str track_name_len ;;
  track_size <- read_I ;;
  track_data <- f_read track_size ;;
  open_wb (os_path_join output_dir track_name) track_data.

(** The block under [# Read tracks]. *)
Definition read_tracks (output_dir : string) : M io unit :=
  track_count <- read_H ;;
  for_range (N.to_nat track_count) (read_track output_dir).

(** The body of the [try] in [extract_moda]. *)
Definition extract_body (output_dir : string) : M io json :=
  meta <- read_header ;;
  read_thumbnail output_dir ;;
  read_tracks output_dir ;;
  open_wb (os_path_join output_dir "meta.json") (json_dumps meta) ;;
  ret meta.

(** [extract_moda(filepath, output_dir)], on the content [data] of the file
    at [filepath]: the metadata returned or the exception raised, with what
    was left unread and the files written. *)
Definition extract_moda (data : list byte) (output_dir : string) : (exn + json) * io :=
  try_except (extract_body output_dir) (fun e => raise (ErrorExtracting e))
    {| unread := data; written := [] |}.

(** *** On a disk that can refuse

    The same code, file for file, on a disk that refuses the paths
    [refused] says: for what a container makes [extract_moda] do with names
    of the container's own choosing. *)
Section OnDisk.

Variable refused : string -> bool.

Definition read_thumbnail_on (output_dir : string) : M io unit :=
  thumb_name_len <- read_H ;;
  if (0 <? thumb_name_len)%N then
    thumb_name <- read_str thumb_name_len ;;
    thumb_size <- read_I ;;
    thumb_data <- f_read thumb_size ;;
    open_wb_on refused (os_path_join output_dir thumb_name) thumb_data
  else ret tt.

Definition read_track_on (output_dir : string) : M io unit :=
  track_name_len <- read_H ;;
  track_name <- read_str track_name_len ;;
  track_size <- read_I ;;
  track_data <- f_read track_size ;;
  open_wb_on refused (os_path_join output_dir track_name) track_data.

Definition read_tracks_on (output_dir : string) : M io unit :=
  track_count <- read_H ;;
  for_range (N.to_nat track_count) (read_track_on output_dir).

Definition extract_body_on (output_dir : string) : M io json :=
  meta <- read_header ;;
  read_thumbnail_on output_dir ;;
  read_tracks_on output_dir ;;
  open_wb_on refused (os_path_join output_dir "meta.json") (json_dumps meta) ;;
  ret meta.

Definition extract_moda_on (data : list byte) (output_dir : string) : (exn + json) * io :=
  try_except (extract_body_on output_dir) (fun e => raise (ErrorExtracting e))
    {| unread := data; written := [] |}.

End OnDisk.

End WithJson.
End ModaDecompiler.

(** ** Python's view of a JSON value *)

(** [not v] is [negb (py_truthy v)]. *)
Definition py_truthy (v : json) : bool :=
  match v with
  | JNull => false
  | JBool b => b
  | JNum n => negb (Z.eqb n 0)
  | JStr s => negb (String.eqb s EmptyString)
  | JArr items => match items with [] => false | _ => true end
  | JObj members => match members with [] => false | _ => true end
  end.

(** [v == s] for a [str] literal [s]. *)
Definition py_eq_str (v : json) (s : string) : bool :=
  match v with
  | JStr t => String.eqb t s
  | _ => false
  end.

Definition is_continuation (c : ascii) : bool :=
  let n := N_of_ascii c in ((128 <=? n) && (n <? 192))%N.

Definition flush (cur : string) : list string :=
  if String.eqb cur EmptyString then [] else [cur].

(** The characters of a [str]: a new one starts at every byte that is not a
    continuation byte. *)
Fixpoint utf8_chars_acc (cur s : string) : list string :=
  match s with
  | EmptyString => flush cur
  | String c s' =>
      if is_continuation c
      then utf8_chars_acc (cur ++ String c EmptyString)%string s'
      else flush cur ++ utf8_chars_acc (String c EmptyString) s'
  end.

Definition utf8_chars (s : string) : list string := utf8_chars_acc EmptyString s.

(** The keys of a dict, each once, in the order of first insertion. *)
Fixpoint dict_keys (members : list (string * json)) (seen : list string) : list string :=
  match members with
  | [] => []
  | (k, _) :: rest =>
      if existsb (String.eqb k) seen then dict_keys rest seen
      else k :: dict_keys rest (k :: seen)
  end.

(** [iter(v)]: the items a [for] loop over [v] visits. *)
Definition py_iter (v : json) : exn + list json :=
  match v with
  | JArr items => inr items
  | JStr s => inr (map JStr (utf8_chars s))
  | JObj members => inr (map JStr (dict_keys members []))
  | _ => inl TypeError
  end.

(** [len(v)] *)
Definition py_len (v : json) : exn + nat :=
  match py_iter v with
  | inr items => inr (length items)
  | inl e => inl e
  end.

(** [v[i]] for an index [i] within [len(v)]. *)
Definition py_index (v : json) (i : nat) : exn + json :=
  match v with
  | JArr items => match nth_error items i with Some x => inr x | None => inl IndexError end
  | JStr s => match nth_error (utf8_chars s) i with Some c => inr (JStr c) | None => inl IndexError end
  | JObj _ => inl KeyError
  | _ => inl TypeError
  end.

(** [v[key]] for a [str] key. *)
Definition py_item (v : json) (key : string) : exn + json :=
  match v with
  | JObj members =>
      match dict_lookup members key with
      | Some x => inr x
      | None => inl KeyError
      end
  | _ => inl TypeError
  end.

(** [os.path.join(d, v)] where [d] may still be [None] and [v] is whatever
    the metadata holds. *)
Definition py_path_join (d : option string) (v : json) : exn + string :=
  match d, v with
  | Some dir, JStr name => inr (os_path_join dir name)
  | _, _ => inl TypeError
  end.

(** ** The player ([moda_player.py]) *)

(** A [mixer.Sound], known by the file it was loaded from. *)
Record Sound : Type := { source : string }.

Inductive event : Type :=
| USEREVENT          (* posted when the channel armed by [set_endevent] falls silent *)
| other_event.

(** A thread that runs [_play_sound(self, sound)].  It calls the mixer
    twice, first for a free channel and then to play on the channel it was
    given; between the two calls the other threads and the program itself
    can run.  After the second call it only waits for its channel. *)
Inductive thread : Type :=
| looking (sound : Sound)                 (* about to call [mixer.find_channel()] *)
| holding (sound : Sound) (channel : nat). (* about to call [channel.play(sound)] *)

(** The fields of a [ModaPlayer], and with them what the player drives: the
    channels of the mixer, [None] for a free channel and the sound for a
    busy one, and the threads it has started that have calls to the mixer
    still to make. *)
Record player : Type := {
  temp_dir : option string;
  current_track : nat;
  is_playing : bool;
  tracks_meta : json;
  play_mode : json;
  thumbnail_path : option string;
  audio_threads : list Sound;       (* one thread per sound, named by its argument *)
  sound_objects : list Sound;
  channels : list (option Sound);
  threads : list thread
}.

Module ModaPlayer.

(** [ModaPlayer()]: [mixer.init] leaves the mixer with its 8 channels. *)
Definition init : player :=
  {| temp_dir := None; current_track := 0; is_playing := false;
     tracks_meta := JArr []; play_mode := JStr EmptyString; thumbnail_path := None;
     audio_threads := []; sound_objects := [];
     channels := repeat None 8; threads := [] |}.

Definition set_temp_dir (d : option string) (p : player) : player :=
  {| temp_dir := d; current_track := current_track p; is_playing := is_playing p;
     tracks_meta := tracks_meta p; play_mode := play_mode p;
     thumbnail_path := thumbnail_path p; audio_threads := audio_threads p;
     sound_objects := sound_objects p; channels := channels p;
     threads := threads p |}.

Definition set_current_track (n : nat) (p : player) : player :=
  {| temp_dir := temp_dir p; current_track := n; is_playing := is_playing p;
     tracks_meta := tracks_meta p; play_mode := play_mode p;
     thumbnail_path := thumbnail_path p; audio_threads := audio_threads p;
     sound_objects := sound_objects p; channels := channels p;
     threads := threads p |}.

Definition set_is_playing (b : bool) (p : player) : player :=
  {| temp_dir := temp_dir p; current_track := current_track p; is_playing := b;
     tracks_meta := tracks_meta p; play_mode := play_mode p;
     thumbnail_path := thumbnail_path p; audio_threads := audio_threads p;
     sound_objects := sound_objects p; channels := channels p;
     threads := threads p |}.

Definition set_tracks_meta (v : json) (p : player) : player :=
  {| temp_dir := temp_dir p; current_track := current_track p; is_playing := is_playing p;
     tracks_meta := v; play_mode := play_mode p;
     thumbnail_path := thumbnail_path p; audio_threads := audio_threads p;
     sound_objects := sound_objects p; channels := channels p;
     threads := threads p |}.

Definition set_play_mode (v : json) (p : player) : player :=
  {| temp_dir := temp_dir p; current_track := current_track p; is_playing := is_playing p;
     tracks_meta := tracks_meta p; play_mode := v;
     thumbnail_path := thumbnail_path p; audio_threads := audio_threads p;
     sound_objects := sound_objects p; channels := channels p;
     threads := threads p |}.

Definition set_thumbnail_path (t : option string) (p : player) : player :=
  {| temp_dir := temp_dir p; current_track := current_track p; is_playing := is_playing p;
     tracks_meta := tracks_meta p; play_mode := play_mode p;
     thumbnail_path := t; audio_threads := audio_threads p;
     sound_objects := sound_objects p; channels := channels p;
     threads := threads p |}.

Definition set_audio_threads (l : list Sound) (p : player) : player :=
  {| temp_dir := temp_dir p; current_track := current_track p; is_playing := is_playing p;
     tracks_meta := tracks_meta p; play_mode := play_mode p;
     thumbnail_path := thumbnail_path p; audio_threads := l;
     sound_objects := sound_objects p; channels := channels p;
     threads := threads p |}.

Definition set_sound_objects (l : list Sound) (p : player) : player :=
  {| temp_dir := temp_dir p; current_track := current_track p; is_playing := is_playing p;
     tracks_meta := tracks_meta p; play_mode := play_mode p;
     thumbnail_path := thumbnail_path p; audio_threads := audio_threads p;
     sound_objects := l; channels := channels p;
     threads := threads p |}.

Definition set_channels (c : list (option Sound)) (p : player) : player :=
  {| temp_dir := temp_dir p; current_track := current_track p; is_playing := is_playing p;
     tracks_meta := tracks_meta p; play_mode := play_mode p;
     thumbnail_path := thumbnail_path p; audio_threads := audio_threads p;
     sound_objects := sound_objects p; channels := c;
     threads := threads p |}.

Definition set_threads (l : list thread) (p : player) : player :=
  {| temp_dir := temp_dir p; current_track := current_track p; is_playing := is_playing p;
     tracks_meta := tracks_meta p; play_mode := play_mode p;
     thumbnail_path := thumbnail_path p; audio_threads := audio_threads p;
     sound_objects := sound_objects p; channels := channels p;
     threads := l |}.

(** *** The mixer *)

(** [mixer.stop()]: every channel falls silent. *)
Definition mixer_stop (c : list (option Sound)) : list (option Sound) :=
  map (fun _ => None) c.

(** [mixer.find_channel()]: the first free channel, [None] when all are busy. *)
Fixpoint find_channel (c : list (option Sound)) : option nat :=
  match c with
  | [] => None
  | None :: _ => Some 0
  | Some _ :: c' => option_map S (find_channel c')
  end.

(** [channel.play(sound)] on channel [i]. *)
Fixpoint channel_play (i : nat) (sound : Sound) (c : list (option Sound))
    : list (option Sound) :=
  match c, i with
  | [], _ => []
  | _ :: c', O => Some sound :: c'
  | x :: c', S i' => x :: channel_play i' sound c'
  end.

(** The number of channels that are playing. *)
Definition busy (c : list (option Sound)) : nat :=
  length (filter (fun x => match x with Some _ => true | None => false end) c).

(** What the mixer does by itself: the sound on channel [i] comes to its
    end and the channel is free again. *)
Fixpoint fall_silent (i : nat) (c : list (option Sound)) : list (option Sound) :=
  match c, i with
  | [], _ => []
  | _ :: c', O => None :: c'
  | x :: c', S i' => x :: fall_silent i' c'
  end.

(** *** The threads *)

(** [_play_sound(self, sound)], one call to the mixer at a time: what is
    left of the thread after its next call, and the channels.  The channel
    is played on as it was found, free or not by then; a thread that found
    none ends.  The loop [while channel.get_busy(): time.sleep(0.1)] that
    follows [channel.play(sound)] reads the channel and changes nothing: the
    thread is dropped from those alive once it has played. *)
Definition _play_sound (t : thread) (c : list (option Sound))
    : option thread * list (option Sound) :=
  match t with
  | looking sound =>
      match find_channel c with
      | Some i => (Some (holding sound i), c)
      | None => (None, c)
      end
  | holding sound i => (None, channel_play i sound c)
  end.

(** The thread at position [k] among those alive makes its next call. *)
Fixpoint thread_runs_in (k : nat) (pool : list thread) (c : list (option Sound))
    {struct pool} : list thread * list (option Sound) :=
  match pool with
  | [] => ([], c)
  | t :: rest =>
      match k with
      | O =>
          match _play_sound t c with
          | (Some t', c') => (t' :: rest, c')
          | (None, c') => (rest, c')
          end
      | S k' => let (rest', c') := thread_runs_in k' rest c in (t :: rest', c')
      end
  end.

Definition thread_runs (k : nat) (p : player) : player :=
  let (pool, c) := thread_runs_in k (threads p) (channels p) in
  set_channels c (set_threads pool p).

(** The threads run as the scheduler decides: [schedule] names, call after
    call, the thread that makes the next one. *)
Definition threads_run (schedule : list nat) (p : player) : player :=
  fold_left (fun q k => thread_runs k q) schedule p.

Section Loading.
Context {J : JsonModule}.

Variable gettempdir : string.    (* tempfile.gettempdir() *)
Variable mkdtemp : string.       (* the directory tempfile.mkdtemp(prefix="moda_") makes *)

Local Open Scope monad_scope.

Definition on_file {A : Type} (m : M io A) : M (player * io) A :=
  fun s => let (r, f) := m (snd s) in (r, (fst s, f)).

Definition on_self (g : player -> player) : M (player * io) unit :=
  fun s => (inr tt, (g (fst s), snd s)).

(** One turn of [for _ in range(track_count)] in [load_moda]. *)
Definition load_track : M (player * io) unit :=
  track_name_len <- on_file read_H ;;
  track_name <- on_file (read_str track_name_len) ;;
  track_size <- on_file read_I ;;
  track_data <- on_file (f_read track_size) ;;
  d <- gets (fun s => temp_dir (fst s)) ;;
  track_path <- lift (py_path_join d (JStr track_name)) ;;
  on_file (open_wb track_path track_data).

(** The magic and the block under [# Read JSON metadata]. *)
Definition load_metadata : M (player * io) json :=
  magic <- on_file (f_read 4) ;;
  if negb (bytes_eqb magic MODA_MAGIC) then raise NotAValidModaFile
  else
    json_len <- on_file read_I ;;
    meta_json <- on_file (f_read json_len) ;;
    meta <- lift (json_loads meta_json) ;;
    mode <- lift (py_get meta "play_mode" (JStr "sequential")) ;;
    on_self (set_play_mode mode) ;;
    tracks <- lift (py_get meta "tracks" (JArr [])) ;;
    on_self (set_tracks_meta tracks) ;;
    ret meta.

(** The block under [# Read thumbnail]. *)
Definition load_thumbnail : M (player * io) unit :=
  thumb_name_len <- on_file read_H ;;
  if (0 <? thumb_name_len)%N then
    thumb_name <- on_file (read_str thumb_name_len) ;;
    thumb_size <- on_file read_I ;;
    thumb_data <- on_file (f_read thumb_size) ;;
    on_self (set_thumbnail_path (Some (os_path_join gettempdir thumb_name))) ;;
    on_file (open_wb (os_path_join gettempdir thumb_name) thumb_data)
  else ret tt.

(** The blocks under [# Create temp dir for audio files] and [# Read tracks]. *)
Definition load_tracks : M (player * io) unit :=
  on_self (set_temp_dir (Some mkdtemp)) ;;
  track_count <- on_file read_H ;;
  for_range (N.to_nat track_count) load_track.

(** The body of the [try] in [load_moda]. *)
Definition load_body : M (player * io) json :=
  meta <- load_metadata ;;
  load_thumbnail ;;
  load_tracks ;;
  ret meta.

(** [load_moda(self, filepath)], on the content [data] of the file at
    [filepath]. *)
Definition load_moda (data : list byte) (self : player) : (exn + json) * (player * io) :=
  try_except load_body (fun e => raise (ErrorLoading e))
    (self, {| unread := data; written := [] |}).

End Loading.

Section Engine.

(** Which files [mixer.Sound] manages to load. *)
Variable Sound_loads : string -> bool.

Local Open Scope monad_scope.

(** [mixer.Sound(track_path)] *)
Definition mixer_Sound (track_path : string) : M player Sound :=
  if Sound_loads track_path then ret {| source := track_path |}
  else raise pygame_error.

(** [stop(self)] *)
Definition stop : M player unit :=
  modify (fun p => set_channels (mixer_stop (channels p)) p) ;;
  modify (set_is_playing false) ;;
  modify (set_current_track 0) ;;
  modify (set_sound_objects []).

(** The loop of [play_parallel] that loads the sounds. *)
Fixpoint load_sounds (tracks : list json) : M player unit :=
  match tracks with
  | [] => ret tt
  | track :: rest =>
      file <- lift (py_item track "file") ;;
      d <- gets temp_dir ;;
      track_path <- lift (py_path_join d file) ;;
      try_except
        (sound <- mixer_Sound track_path ;;
         modify (fun p => set_sound_objects (sound_objects p ++ [sound]) p))
        (fun _ => ret tt) ;;
      load_sounds rest
  end.

(** The loop that starts the threads, [i] counting them.  [Thread_starts]
    says which calls of [thread.start()] the system has room for; a thread
    that was started is alive from then on. *)
Fixpoint start_threads (Thread_starts : nat -> bool) (i : nat) (sounds : list Sound)
    : M player unit :=
  match sounds with
  | [] => ret tt
  | sound :: rest =>
      if Thread_starts i then
        modify (fun p => set_threads (threads p ++ [looking sound]) p) ;;
        start_threads Thread_starts (S i) rest
      else raise RuntimeError
  end.

(** [play_parallel(self)].  It starts the threads and returns; it does not
    wait for them.  What the threads do, they do in [thread_runs].  A thread
    that runs while the later ones are being started touches the mixer
    only, which [play_parallel] has finished with by then, so nothing is
    lost by letting the threads run once it has returned. *)
Definition play_parallel (Thread_starts : nat -> bool) : M player unit :=
  stop ;;
  modify (set_sound_objects []) ;;
  tracks <- gets tracks_meta ;;
  items <- lift (py_iter tracks) ;;
  load_sounds items ;;
  modify (set_audio_threads []) ;;
  sounds <- gets sound_objects ;;
  modify (set_audio_threads sounds) ;;
  threads <- gets audio_threads ;;
  start_threads Thread_starts 0 threads ;;
  modify (set_is_playing true).

(** [play_sequential(self)], with [fuel] the number of calls of it that the
    interpreter still has room for, one inside the other: the method calls
    itself once for every track that fails, and Python raises
    [RecursionError] for the call that does not fit.  The limit is taken to
    be met at a call of [play_sequential] itself, not inside what it calls;
    the call is made in the handler, outside the [try], so the error goes
    up through every call that is open. *)
Fixpoint play_sequential_rec (fuel : nat) : M player unit :=
  match fuel with
  | O => raise RecursionError
  | S fuel' =>
      cur <- gets current_track ;;
      tracks <- gets tracks_meta ;;
      n <- lift (py_len tracks) ;;
      if cur <? n then
        track <- lift (py_index tracks cur) ;;
        file <- lift (py_item track "file") ;;
        d <- gets temp_dir ;;
        track_path <- lift (py_path_join d file) ;;
        try_except
          (sound <- mixer_Sound track_path ;;
           modify (set_sound_objects [sound]) ;;
           channel <- gets (fun p => find_channel (channels p)) ;;
           match channel with
           | Some i =>
               modify (fun p => set_channels (channel_play i sound (channels p)) p) ;;
               (* channel.set_endevent(pygame.USEREVENT): the end of this sound
                  will arrive as a USEREVENT *)
               modify (set_is_playing true)
           | None => ret tt
           end)
          (fun _ =>
             modify (fun p => set_current_track (current_track p + 1) p) ;;
             play_sequential_rec fuel')
      else ret tt
  end.

(** [play_sequential(self)] when the interpreter has room for [frames]
    calls of it inside one another.  With no room left the call raises
    before it has changed anything. *)
Definition play_sequential (frames : nat) : M player unit :=
  play_sequential_rec frames.

(** [play(self)] *)
Definition play (Thread_starts : nat -> bool) (frames : nat) : M player unit :=
  tracks <- gets tracks_meta ;;
  if negb (py_truthy tracks) then ret tt
  else
    mode <- gets play_mode ;;
    if py_eq_str mode "parallel" then play_parallel Thread_starts
    else play_sequential frames.

(** The body of [for event in pygame.event.get()]. *)
Definition on_event (frames : nat) (ev : event) : M player unit :=
  match ev with
  | USEREVENT =>
      modify (fun p => set_current_track (current_track p + 1) p) ;;
      cur <- gets current_track ;;
      tracks <- gets tracks_meta ;;
      n <- lift (py_len tracks) ;;
      if cur <? n then play_sequential frames
      else
        modify (set_is_playing false) ;;
        modify (set_current_track 0)
  | other_event => ret tt
  end.

Fixpoint on_events (frames : nat) (evs : list event) : M player unit :=
  match evs with
  | [] => ret tt
  | ev :: rest => on_event frames ev ;; on_events frames rest
  end.

(** [check_events(self)], given the events [pygame.event.get()] returns. *)
Definition check_events (frames : nat) (evs : list event) : M player bool :=
  on_events frames evs ;;
  gets is_playing.

End Engine.

Section Disk.
Context {J : JsonModule}.

(** [load_moda(self, filepath)] on the file system [fs]: the file is opened
    inside the [try], so a file that cannot be opened is reported like any
    other failure. *)
Definition load_moda_at (fs : filesystem) (gettempdir mkdtemp filepath : string)
    (self : player) : (exn + json) * (player * io) :=
  match open_rb fs filepath with
  | inr data => load_moda gettempdir mkdtemp data self
  | inl e => (inl (ErrorLoading e), (self, {| unread := []; written := [] |}))
  end.

(** [cleanup(self)].  After [stop] it removes the temporary directory with
    the files in it, and the thumbnail; that changes the disk and nothing of
    the player, so what is kept of it is [removal], the exception it ends
    in, if any. *)
Definition cleanup (removal : option exn) : M player unit :=
  bind stop (fun _ =>
  match removal with
  | Some e => raise e
  | None => ret tt
  end).

End Disk.
End ModaPlayer.

(** ** The decompiler's window ([ModaDecompilerApp])

    The labels and message boxes are kept as what they show: a label or a
    box built by an f-string is the constructor for that f-string applied
    to the values formatted into it. *)

Module ModaDecompilerApp.

Inductive label : Type :=
| fixed (text : string)
| play_mode_is (v : json)            (* f"Play Mode: {v}" *)
| tracks_are (n : nat).              (* f"Tracks: {n}" *)

Inductive message : Type :=
| failed_to_read_info (e : exn)      (* "Failed to read MODA file info:\n{e}" *)
| select_a_file_first                (* "Please select a MODA file first!" *)
| select_a_folder_first              (* "Please select an output folder!" *)
| extracted (n : nat) (dir : string) (* "Extracted {n} tracks to:\n{dir}" *)
| failed_to_extract (e : exn).       (* "Failed to extract MODA file:\n{e}" *)

Record app : Type := {
  current_file : option string;
  output_dir : option string;
  file_label : label;
  output_label : label;
  mode_label : label;
  tracks_label : label;
  messages : list message;                   (* the boxes shown, oldest first *)
  on_disk : list (string * list byte)        (* every file written, oldest first *)
}.

(** [ModaDecompilerApp(root)] *)
Definition init : app :=
  {| current_file := None; output_dir := None;
     file_label := fixed "No file selected"; output_label := fixed "No folder selected";
     mode_label := fixed "Play Mode: -"; tracks_label := fixed "Tracks: 0";
     messages := []; on_disk := [] |}.

Definition set_current_file (f : option string) (a : app) : app :=
  {| current_file := f; output_dir := output_dir a; file_label := file_label a;
     output_label := output_label a; mode_label := mode_label a;
     tracks_label := tracks_label a; messages := messages a; on_disk := on_disk a |}.

Definition set_output_dir (d : option string) (a : app) : app :=
  {| current_file := current_file a; output_dir := d; file_label := file_label a;
     output_label := output_label a; mode_label := mode_label a;
     tracks_label := tracks_label a; messages := messages a; on_disk := on_disk a |}.

Definition set_file_label (l : label) (a : app) : app :=
  {| current_file := current_file a; output_dir := output_dir a; file_label := l;
     output_label := output_label a; mode_label := mode_label a;
     tracks_label := tracks_label a; messages := messages a; on_disk := on_disk a |}.

Definition set_output_label (l : label) (a : app) : app :=
  {| current_file := current_file a; output_dir := output_dir a; file_label := file_label a;
     output_label := l; mode_label := mode_label a;
     tracks_label := tracks_label a; messages := messages a; on_disk := on_disk a |}.

Definition set_mode_label (l : label) (a : app) : app :=
  {| current_file := current_file a; output_dir := output_dir a; file_label := file_label a;
     output_label := output_label a; mode_label := l;
     tracks_label := tracks_label a; messages := messages a; on_disk := on_disk a |}.

Definition set_tracks_label (l : label) (a : app) : app :=
  {| current_file := current_file a; output_dir := output_dir a; file_label := file_label a;
     output_label := output_label a; mode_label := mode_label a;
     tracks_label := l; messages := messages a; on_disk := on_disk a |}.

(** [messagebox.showerror] and [messagebox.showinfo] *)
Definition show (m : message) (a : app) : app :=
  {| current_file := current_file a; output_dir := output_dir a; file_label := file_label a;
     output_label := output_label a; mode_label := mode_label a;
     tracks_label := tracks_label a; messages := messages a ++ [m]; on_disk := on_disk a |}.

Definition write_out (files : list (string * list byte)) (a : app) : app :=
  {| current_file := current_file a; output_dir := output_dir a; file_label := file_label a;
     output_label := output_label a; mode_label := mode_label a;
     tracks_label := tracks_label a; messages := messages a; on_disk := on_disk a ++ files |}.

Section WithJson.
Context {J : JsonModule}.

(** The files the dialogs can choose from. *)
Variable fs : filesystem.

Local Open Scope monad_scope.

(** The [try] block of [open_file]: the header is read as [extract_moda]
    reads it, then the two labels are set, one after the other. *)
Definition read_info (file : string) : M app unit :=
  data <- lift (open_rb fs file) ;;
  meta <- lift (fst (ModaDecompiler.read_header {| unread := data; written := [] |})) ;;
  mode <- lift (py_get meta "play_mode" (JStr "unknown")) ;;
  modify (set_mode_label (play_mode_is mode)) ;;
  tracks <- lift (py_get meta "tracks" (JArr [])) ;;
  n <- lift (py_len tracks) ;;
  modify (set_tracks_label (tracks_are n)).

(** [open_file(self)], [file] being what the file dialog returned (the
    empty string when it was cancelled). *)
Definition open_file (file : string) : M app unit :=
  if String.eqb file EmptyString then ret tt
  else
    modify (set_current_file (Some file)) ;;
    modify (set_file_label (fixed (basename file))) ;;
    try_except (read_info file) (fun e => modify (show (failed_to_read_info e))).

(** [choose_output(self)] *)
Definition choose_output (folder : string) : M app unit :=
  if String.eqb folder EmptyString then ret tt
  else
    modify (set_output_dir (Some folder)) ;;
    modify (set_output_label (fixed folder)).

(** [ModaDecompiler.extract_moda(filepath, output_dir)], the file being
    opened inside its [try]: what it returns or raises, and the files it
    wrote. *)
Definition extract_moda_at (filepath output_dir : string)
    : (exn + json) * list (string * list byte) :=
  match open_rb fs filepath with
  | inr data =>
      let (r, s) := ModaDecompiler.extract_moda data output_dir in (r, written s)
  | inl e => (inl (ErrorExtracting e), [])
  end.

(** The [try] block of [extract_files]; [os.makedirs] is taken to find or
    make the folder. *)
Definition extract_and_report (file dir : string) : M app unit :=
  let (r, files) := extract_moda_at file dir in
  modify (write_out files) ;;
  meta <- lift r ;;
  tracks <- lift (py_get meta "tracks" (JArr [])) ;;
  n <- lift (py_len tracks) ;;
  modify (show (extracted n dir)).

(** [extract_files(self)] *)
Definition extract_files : M app unit :=
  file <- gets current_file ;;
  match ModaCompiler.truthy_path file with
  | None => modify (show select_a_file_first)
  | Some f =>
      dir <- gets output_dir ;;
      match ModaCompiler.truthy_path dir with
      | None => modify (show select_a_folder_first)
      | Some d =>
          try_except (extract_and_report f d)
            (fun e => modify (show (failed_to_extract e)))
      end
  end.

End WithJson.
End ModaDecompilerApp.

(** ** The player's window ([ModaPlayerApp]) *)

Module ModaPlayerApp.

Inductive label : Type :=
| fixed (text : string)
| play_mode_is (v : json)            (* f"Play Mode: {v}" *)
| tracks_are (n : nat).              (* f"Tracks: {n}" *)

(** What [thumb_label] shows. *)
Inductive picture : Type :=
| blank                              (* ttk.Label(self.thumb_frame) *)
| no_thumbnail                       (* image='', text="No thumbnail" *)
| image_of (path : string).          (* image=self.thumbnail_img *)

Inductive message : Type :=
| failed_to_load (e : exn).          (* "Failed to load MODA file:\n{e}" *)

Record app : Type := {
  the_player : player;                       (* self.player *)
  current_file : option string;
  file_label : label;
  mode_label : label;
  tracks_label : label;
  thumb_label : picture;
  track_list : list (json * json);           (* a row f"{order}. {file}" per pair *)
  play_btn : bool;                           (* state=tk.NORMAL *)
  stop_btn : bool;
  messages : list message                    (* the boxes shown, oldest first *)
}.

(** [ModaPlayerApp(root)] *)
Definition init : app :=
  {| the_player := ModaPlayer.init; current_file := None;
     file_label := fixed "No file loaded"; mode_label := fixed "Play Mode: -";
     tracks_label := fixed "Tracks: 0"; thumb_label := blank; track_list := [];
     play_btn := false; stop_btn := false; messages := [] |}.

Definition set_player (p : player) (a : app) : app :=
  {| the_player := p; current_file := current_file a; file_label := file_label a;
     mode_label := mode_label a; tracks_label := tracks_label a;
     thumb_label := thumb_label a; track_list := track_list a; play_btn := play_btn a;
     stop_btn := stop_btn a; messages := messages a |}.

Definition set_current_file (f : option string) (a : app) : app :=
  {| the_player := the_player a; current_file := f; file_label := file_label a;
     mode_label := mode_label a; tracks_label := tracks_label a;
     thumb_label := thumb_label a; track_list := track_list a; play_btn := play_btn a;
     stop_btn := stop_btn a; messages := messages a |}.

Definition set_file_label (l : label) (a : app) : app :=
  {| the_player := the_player a; current_file := current_file a; file_label := l;
     mode_label := mode_label a; tracks_label := tracks_label a;
     thumb_label := thumb_label a; track_list := track_list a; play_btn := play_btn a;
     stop_btn := stop_btn a; messages := messages a |}.

Definition set_mode_label (l : label) (a : app) : app :=
  {| the_player := the_player a; current_file := current_file a;
     file_label := file_label a; mode_label := l; tracks_label := tracks_label a;
     thumb_label := thumb_label a; track_list := track_list a; play_btn := play_btn a;
     stop_btn := stop_btn a; messages := messages a |}.

Definition set_tracks_label (l : label) (a : app) : app :=
  {| the_player := the_player a; current_file := current_file a;
     file_label := file_label a; mode_label := mode_label a; tracks_label := l;
     thumb_label := thumb_label a; track_list := track_list a; play_btn := play_btn a;
     stop_btn := stop_btn a; messages := messages a |}.

Definition set_thumb_label (t : picture) (a : app) : app :=
  {| the_player := the_player a; current_file := current_file a;
     file_label := file_label a; mode_label := mode_label a;
     tracks_label := tracks_label a; thumb_label := t; track_list := track_list a;
     play_btn := play_btn a; stop_btn := stop_btn a; messages := messages a |}.

Definition set_track_list (rows : list (json * json)) (a : app) : app :=
  {| the_player := the_player a; current_file := current_file a;
     file_label := file_label a; mode_label := mode_label a;
     tracks_label := tracks_label a; thumb_label := thumb_label a; track_list := rows;
     play_btn := play_btn a; stop_btn := stop_btn a; messages := messages a |}.

Definition set_play_btn (b : bool) (a : app) : app :=
  {| the_player := the_player a; current_file := current_file a;
     file_label := file_label a; mode_label := mode_label a;
     tracks_label := tracks_label a; thumb_label := thumb_label a;
     track_list := track_list a; play_btn := b; stop_btn := stop_btn a;
     messages := messages a |}.

Definition set_stop_btn (b : bool) (a : app) : app :=
  {| the_player := the_player a; current_file := current_file a;
     file_label := file_label a; mode_label := mode_label a;
     tracks_label := tracks_label a; thumb_label := thumb_label a;
     track_list := track_list a; play_btn := play_btn a; stop_btn := b;
     messages := messages a |}.

(** [messagebox.showerror] *)
Definition show (m : message) (a : app) : app :=
  {| the_player := the_player a; current_file := current_file a;
     file_label := file_label a; mode_label := mode_label a;
     tracks_label := tracks_label a; thumb_label := thumb_label a;
     track_list := track_list a; play_btn := play_btn a; stop_btn := stop_btn a;
     messages := messages a ++ [m] |}.

(** A method of [self.player], called from the window. *)
Definition on_player {A : Type} (m : M player A) : M app A :=
  fun a => let (r, p) := m (the_player a) in (r, set_player p a).

Local Open Scope monad_scope.

Section Opening.
Context {J : JsonModule}.

Variable fs : filesystem.              (* the files the dialog can choose from *)
Variable gettempdir : string.
Variable mkdtemp : string.
Variable removal : option exn.         (* how the removals of [cleanup] end *)
Variable Image_opens : string -> bool. (* which files PIL makes a picture of *)

(** [meta = self.player.load_moda(file)] *)
Definition load (file : string) : M app json :=
  fun a =>
    let (r, s) := ModaPlayer.load_moda_at fs gettempdir mkdtemp file (the_player a) in
    (r, set_player (fst s) a).

(** The block under [# Load thumbnail]; what goes wrong inside it is
    printed and the label says there is no thumbnail. *)
Definition show_thumbnail : M app unit :=
  thumb <- gets (fun a => thumbnail_path (the_player a)) ;;
  match ModaCompiler.truthy_path thumb with
  | Some path =>
      if Image_opens path then modify (set_thumb_label (image_of path))
      else modify (set_thumb_label no_thumbnail)
  | None => modify (set_thumb_label no_thumbnail)
  end.

(** The loop under [# Populate track list]. *)
Fixpoint add_rows (tracks : list json) : M app unit :=
  match tracks with
  | [] => ret tt
  | track :: rest =>
      order <- lift (py_item track "order") ;;
      file <- lift (py_item track "file") ;;
      modify (fun a => set_track_list (track_list a ++ [(order, file)]) a) ;;
      add_rows rest
  end.

(** The [try] block of [open_file]. *)
Definition show_file (file : string) : M app unit :=
  on_player (ModaPlayer.cleanup removal) ;;
  meta <- load file ;;
  modify (set_current_file (Some file)) ;;
  modify (set_file_label (fixed (basename file))) ;;
  mode <- lift (py_get meta "play_mode" (JStr "unknown")) ;;
  modify (set_mode_label (play_mode_is mode)) ;;
  tracks <- lift (py_get meta "tracks" (JArr [])) ;;
  n <- lift (py_len tracks) ;;
  modify (set_tracks_label (tracks_are n)) ;;
  show_thumbnail ;;
  modify (set_track_list []) ;;
  tracks <- lift (py_get meta "tracks" (JArr [])) ;;
  items <- lift (py_iter tracks) ;;
  add_rows items ;;
  modify (set_play_btn true) ;;
  modify (set_stop_btn true).

(** [open_file(self)], [file] being what the file dialog returned (the
    empty string when it was cancelled). *)
Definition open_file (file : string) : M app unit :=
  if String.eqb file EmptyString then ret tt
  else try_except (show_file file) (fun e => modify (show (failed_to_load e))).

End Opening.

Section Controls.

Variable Sound_loads : string -> bool.
Variable Thread_starts : nat -> bool.
Variable frames : nat.         (* the room the interpreter has for [play_sequential] *)

(** [play(self)] *)
Definition play : M app unit :=
  file <- gets current_file ;;
  match ModaCompiler.truthy_path file with
  | Some _ =>
      on_player (ModaPlayer.play Sound_loads Thread_starts frames) ;;
      modify (set_play_btn false) ;;
      modify (set_stop_btn true)
  | None => ret tt
  end.

(** [stop(self)] *)
Definition stop : M app unit :=
  on_player ModaPlayer.stop ;;
  modify (set_play_btn true) ;;
  modify (set_stop_btn false).

(** [update_player(self)], given the events [pygame.event.get()] would
    return; the call is scheduled again every 100 ms. *)
Definition update_player (evs : list event) : M app unit :=
  playing <- gets (fun a => is_playing (the_player a)) ;;
  if playing then
    _ <- on_player (ModaPlayer.check_events Sound_loads frames evs) ;;
    ret tt
  else ret tt.

(** [on_close(self)], up to [root.destroy()]. *)
Definition on_close (removal : option exn) : M app unit :=
  on_player (ModaPlayer.cleanup removal).

End Controls.
End ModaPlayerApp.

(** ** The compiler's window ([ModaCompilerApp]) *)

Module ModaCompilerApp.

Inductive message : Type :=
| failed_to_load_image (e : exn)     (* "Failed to load image: {e}" *)
| add_a_track_first                  (* "Please add at least one audio track!" *)
| saved (file : string)              (* "MODA file saved successfully:\n{file}" *)
| failed_to_save (e : exn).          (* "Failed to save MODA file:\n{e}" *)

Record app : Type := {
  tracks : list string;
  thumbnail : option string;
  play_mode : string;                        (* self.play_mode.get() *)
  track_list : list string;                  (* the rows of the Listbox *)
  thumb_label : option string;               (* the file whose picture is shown *)
  messages : list message;                   (* the boxes shown, oldest first *)
  on_disk : list (string * list byte)        (* every file written, oldest first *)
}.

(** [ModaCompilerApp(root)] *)
Definition init : app :=
  {| tracks := []; thumbnail := None; play_mode := "sequential"; track_list := [];
     thumb_label := None; messages := []; on_disk := [] |}.

Definition set_tracks (l : list string) (a : app) : app :=
  {| tracks := l; thumbnail := thumbnail a; play_mode := play_mode a;
     track_list := track_list a; thumb_label := thumb_label a; messages := messages a;
     on_disk := on_disk a |}.

Definition set_thumbnail (t : option string) (a : app) : app :=
  {| tracks := tracks a; thumbnail := t; play_mode := play_mode a;
     track_list := track_list a; thumb_label := thumb_label a; messages := messages a;
     on_disk := on_disk a |}.

Definition set_play_mode (m : string) (a : app) : app :=
  {| tracks := tracks a; thumbnail := thumbnail a; play_mode := m;
     track_list := track_list a; thumb_label := thumb_label a; messages := messages a;
     on_disk := on_disk a |}.

Definition set_track_list (rows : list string) (a : app) : app :=
  {| tracks := tracks a; thumbnail := thumbnail a; play_mode := play_mode a;
     track_list := rows; thumb_label := thumb_label a; messages := messages a;
     on_disk := on_disk a |}.

Definition set_thumb_label (t : option string) (a : app) : app :=
  {| tracks := tracks a; thumbnail := thumbnail a; play_mode := play_mode a;
     track_list := track_list a; thumb_label := t; messages := messages a;
     on_disk := on_disk a |}.

(** [messagebox.showerror] and [messagebox.showinfo] *)
Definition show (m : message) (a : app) : app :=
  {| tracks := tracks a; thumbnail := thumbnail a; play_mode := play_mode a;
     track_list := track_list a; thumb_label := thumb_label a;
     messages := messages a ++ [m]; on_disk := on_disk a |}.

Definition write_out (files : list (string * list byte)) (a : app) : app :=
  {| tracks := tracks a; thumbnail := thumbnail a; play_mode := play_mode a;
     track_list := track_list a; thumb_label := thumb_label a; messages := messages a;
     on_disk := on_disk a ++ files |}.

(** [del l[index]] for an index within [len(l)], and [Listbox.delete(index)],
    which does nothing for a row that is not there. *)
Definition del (A : Type) (index : nat) (l : list A) : list A :=
  firstn index l ++ skipn (S index) l.

Local Open Scope monad_scope.

(** [add_tracks(self)], [files] being what the file dialog returned (nothing
    when it was cancelled). *)
Definition add_tracks (files : list string) : M app unit :=
  match files with
  | [] => ret tt
  | _ =>
      modify (fun a => set_tracks (tracks a ++ files) a) ;;
      modify (fun a => set_track_list (track_list a ++ map basename files) a)
  end.

(** [remove_track(self)], [selection] being [track_list.curselection()]. *)
Definition remove_track (selection : list nat) : M app unit :=
  match selection with
  | [] => ret tt
  | index :: _ =>
      modify (fun a => set_track_list (del index (track_list a)) a) ;;
      n <- gets (fun a => length (tracks a)) ;;
      if index <? n then modify (fun a => set_tracks (del index (tracks a)) a)
      else raise IndexError
  end.

(** [choose_thumbnail(self)]; [Image_open] is what becomes of making the
    preview of a file. *)
Definition choose_thumbnail (Image_open : string -> exn + unit) (file : string)
    : M app unit :=
  if String.eqb file EmptyString then ret tt
  else
    modify (set_thumbnail (Some file)) ;;
    try_except
      (lift (Image_open file) ;;
       modify (set_thumb_label (Some file)))
      (fun e => modify (show (failed_to_load_image e))).

(** A radio button of the play mode is chosen. *)
Definition choose_mode (parallel : bool) : M app unit :=
  modify (set_play_mode (if parallel then "parallel" else "sequential")).

Section WithJson.
Context {J : JsonModule}.

Variable fs : filesystem.
Variable writable : string -> bool.

(** [save_moda(self)], [file] being what the save dialog returns (the empty
    string when it is cancelled). *)
Definition save_moda (file : string) : M app unit :=
  l <- gets tracks ;;
  match l with
  | [] => modify (show add_a_track_first)
  | _ =>
      if String.eqb file EmptyString then ret tt
      else
        try_except
          (t <- gets thumbnail ;;
           m <- gets play_mode ;;
           out <- lift (ModaCompiler.build_moda_file fs writable l m t file) ;;
           modify (write_out [(file, out)]) ;;
           modify (show (saved file)))
          (fun e => modify (show (failed_to_save e)))
  end.

End WithJson.
End ModaCompilerApp.

(** ** A reference [json] module

    [json.dumps(v, indent=2)] and [json.loads] written out for the values of
    [json] whose strings are ASCII: enough to run both programs on concrete
    containers.  A byte above 0x7f in a string is written as it is, and a
    number with a fraction or an exponent is refused. *)

Module PyJson.

Local Open Scope string_scope.

Definition dquote : ascii := ascii_of_N 34.
Definition backslash : ascii := ascii_of_N 92.

Definition hex_digit (n : N) : ascii :=
  ascii_of_N (if (n <? 10)%N then 48 + n else 87 + n).

(** One character of a string, escaped as [json.dumps] escapes it. *)
Definition escape_char (c : ascii) : string :=
  let n := N_of_ascii c in
  if (n =? 34)%N then String backslash (String dquote EmptyString)
  else if (n =? 92)%N then String backslash (String backslash EmptyString)
  else if (n =? 10)%N then String backslash "n"
  else if (n =? 13)%N then String backslash "r"
  else if (n =? 9)%N then String backslash "t"
  else if (n =? 8)%N then String backslash "b"
  else if (n =? 12)%N then String backslash "f"
  else if (n <? 32)%N
       then String backslash "u00"
            ++ String (hex_digit (n / 16)) (String (hex_digit (n mod 16)) EmptyString)
  else String c EmptyString.

Fixpoint escape (s : string) : string :=
  match s with
  | EmptyString => EmptyString
  | String c s' => escape_char c ++ escape s'
  end.

Definition quote (s : string) : string :=
  String dquote (escape s ++ String dquote EmptyString).

Fixpoint spaces (n : nat) : string :=
  match n with
  | O => EmptyString
  | S n' => " " ++ spaces n'
  end.

Definition newline : string := String (ascii_of_N 10) EmptyString.

Fixpoint join_lines (ind : nat) (items : list string) : string :=
  match items with
  | [] => EmptyString
  | [x] => spaces ind ++ x
  | x :: rest => spaces ind ++ x ++ "," ++ newline ++ join_lines ind rest
  end.

(** [json.dumps(v, indent=2)], at nesting depth [ind / 2]. *)
Fixpoint dumps_at (ind : nat) (v : json) : string :=
  match v with
  | JNull => "null"
  | JBool true => "true"
  | JBool false => "false"
  | JNum n => NilZero.string_of_int (Z.to_int n)
  | JStr s => quote s
  | JArr [] => "[]"
  | JArr items =>
      "[" ++ newline ++ join_lines (2 + ind) (map (dumps_at (2 + ind)) items)
      ++ newline ++ spaces ind ++ "]"
  | JObj [] => "{}"
  | JObj members =>
      "{" ++ newline
      ++ join_lines (2 + ind)
           (map (fun kv : string * json => quote (fst kv) ++ ": " ++ dumps_at (2 + ind) (snd kv))
                members)
      ++ newline ++ spaces ind ++ "}"
  end.

Definition dumps (v : json) : list byte := list_byte_of_string (dumps_at 0 v).

(** *** Reading *)

Definition is_ws (c : ascii) : bool :=
  let n := N_of_ascii c in
  ((n =? 32) || (n =? 10) || (n =? 13) || (n =? 9))%N.

Fixpoint skip_ws (s : string) : string :=
  match s with
  | String c s' => if is_ws c then skip_ws s' else s
  | EmptyString => s
  end.

Fixpoint strip_prefix (p s : string) : option string :=
  match p, s with
  | EmptyString, _ => Some s
  | String a p', String b s' => if Ascii.eqb a b then strip_prefix p' s' else None
  | _, _ => None
  end.

Definition digit_value (c : ascii) : option Z :=
  let n := N_of_ascii c in
  if ((48 <=? n) && (n <=? 57))%N then Some (Z.of_N (n - 48)) else None.

Fixpoint parse_digits (acc : Z) (s : string) : Z * string :=
  match s with
  | String c s' =>
      match digit_value c with
      | Some d => parse_digits (10 * acc + d) s'
      | None => (acc, s)
      end
  | EmptyString => (acc, s)
  end.

Definition starts_fraction (s : string) : bool :=
  match s with
  | String c _ => (Ascii.eqb c "." || Ascii.eqb c "e" || Ascii.eqb c "E")%bool
  | EmptyString => false
  end.

(** An integer without sign: no leading zero, no fraction, no exponent. *)
Definition parse_unsigned (s : string) : option (Z * string) :=
  match s with
  | String c s' =>
      match digit_value c with
      | Some d =>
          let (n, rest) := if Z.eqb d 0 then (0%Z, s') else parse_digits d s' in
          if starts_fraction rest then None
          else match rest with
               | String c' _ =>
                   match digit_value c' with
                   | Some _ => None
                   | None => Some (n, rest)
                   end
               | EmptyString => Some (n, rest)
               end
      | None => None
      end
  | EmptyString => None
  end.

Definition hex_value (c : ascii) : option N :=
  let n := N_of_ascii c in
  if ((48 <=? n) && (n <=? 57))%N then Some (n - 48)%N
  else if ((97 <=? n) && (n <=? 102))%N then Some (n - 87)%N
  else if ((65 <=? n) && (n <=? 70))%N then Some (n - 55)%N
  else None.

Definition snoc (s : string) (c : ascii) : string := s ++ String c EmptyString.

(** The rest of a string literal, after its opening quote. *)
Fixpoint parse_string (acc s : string) : option (string * string) :=
  match s with
  | EmptyString => None
  | String c s' =>
      let n := N_of_ascii c in
      if (n =? 34)%N then Some (acc, s')
      else if (n <? 32)%N then None
      else if (n =? 92)%N then
        match s' with
        | String e s'' =>
            let m := N_of_ascii e in
            if (m =? 34)%N then parse_string (snoc acc e) s''
            else if (m =? 92)%N then parse_string (snoc acc e) s''
            else if (m =? 47)%N then parse_string (snoc acc e) s''
            else if (m =? 110)%N then parse_string (snoc acc (ascii_of_N 10)) s''
            else if (m =? 114)%N then parse_string (snoc acc (ascii_of_N 13)) s''
            else if (m =? 116)%N then parse_string (snoc acc (ascii_of_N 9)) s''
            else if (m =? 98)%N then parse_string (snoc acc (ascii_of_N 8)) s''
            else if (m =? 102)%N then parse_string (snoc acc (ascii_of_N 12)) s''
            else if (m =? 117)%N then
              match s'' with
              | String h3 (String h2 (String h1 (String h0 s3))) =>
                  match hex_value h3, hex_value h2, hex_value h1, hex_value h0 with
                  | Some 0%N, Some 0%N, Some a, Some b =>
                      if (a <? 8)%N then parse_string (snoc acc (ascii_of_N (16 * a + b))) s3
                      else None
                  | _, _, _, _ => None
                  end
              | _ => None
              end
            else None
        | EmptyString => None
        end
      else parse_string (snoc acc c) s'
  end.

(** A value, then what follows it.  [elements] and [members] read the rest
    of an array and of an object after their first item. *)
Fixpoint value (fuel : nat) (s : string) : option (json * string) :=
  match fuel with
  | O => None
  | S fuel' =>
      match skip_ws s with
      | String c s' =>
          let n := N_of_ascii c in
          if (n =? 34)%N then
            match parse_string EmptyString s' with
            | Some (str, rest) => Some (JStr str, rest)
            | None => None
            end
          else if (n =? 91)%N then
            match skip_ws s' with
            | String "]" rest => Some (JArr [], rest)
            | _ =>
                match value fuel' s' with
                | Some (v, rest) =>
                    match elements fuel' [v] rest with
                    | Some (items, rest') => Some (JArr items, rest')
                    | None => None
                    end
                | None => None
                end
            end
          else if (n =? 123)%N then
            match skip_ws s' with
            | String "}" rest => Some (JObj [], rest)
            | _ => members fuel' [] s'
            end
          else if (n =? 45)%N then
            match parse_unsigned s' with
            | Some (z, rest) => Some (JNum (- z), rest)
            | None => None
            end
          else
            match strip_prefix "null" (String c s'), strip_prefix "true" (String c s'),
                  strip_prefix "false" (String c s') with
            | Some rest, _, _ => Some (JNull, rest)
            | _, Some rest, _ => Some (JBool true, rest)
            | _, _, Some rest => Some (JBool false, rest)
            | _, _, _ =>
                match parse_unsigned (String c s') with
                | Some (z, rest) => Some (JNum z, rest)
                | None => None
                end
            end
      | EmptyString => None
      end
  end

with elements (fuel : nat) (acc : list json) (s : string) : option (list json * string) :=
  match fuel with
  | O => None
  | S fuel' =>
      match skip_ws s with
      | String "]" rest => Some (acc, rest)
      | String "," rest =>
          match value fuel' rest with
          | Some (v, rest') => elements fuel' (acc ++ [v]) rest'
          | None => None
          end
      | _ => None
      end
  end

with members (fuel : nat) (acc : list (string * json)) (s : string)
    : option (json * string) :=
  match fuel with
  | O => None
  | S fuel' =>
      match skip_ws s with
      | String c s1 =>
          match (if Ascii.eqb c dquote then parse_string EmptyString s1 else None) with
          | Some (key, s2) =>
              match skip_ws s2 with
              | String ":" s3 =>
                  match value fuel' s3 with
                  | Some (v, s4) =>
                      match skip_ws s4 with
                      | String "}" rest => Some (JObj (acc ++ [(key, v)]), rest)
                      | String "," rest => members fuel' (acc ++ [(key, v)]) rest
                      | _ => None
                      end
                  | None => None
                  end
              | _ => None
              end
          | None => None
          end
      | EmptyString => None
      end
  end.

(** [json.loads(b.decode('utf-8'))] *)
Definition loads (b : list byte) : exn + json :=
  if utf8_valid b then
    let s := string_of_list_byte b in
    match value (2 * String.length s + 2) s with
    | Some (v, rest) =>
        match skip_ws rest with
        | EmptyString => inr v
        | _ => inl JSONDecodeError
        end
    | None => inl JSONDecodeError
    end
  else inl UnicodeDecodeError.

End PyJson.

#[local] Instance py_json : JsonModule :=
  {| json_dumps := PyJson.dumps; json_loads := PyJson.loads |}.

(** * What the theorems speak of *)

(** ** Files and states *)

(** An open file with [bs] left to read, [w] having been written. *)
Definition at_ (bs : list byte) (w : list (string * list byte)) : io :=
  {| unread := bs; written := w |}.

(** A name without a slash in it. *)
Fixpoint no_slash (s : string) : bool :=
  match s with
  | EmptyString => true
  | String c s' => negb (Ascii.eqb c "/"%char) && no_slash s'
  end.

(** What the file system holds at [p]. *)
Definition content (fs : filesystem) (p : string) : list byte :=
  match fs p with
  | Some data => data
  | None => []
  end.

(** The files a container built from [tracks] and [thumbnail_path] unpacks to. *)
Definition thumbnail_file (fs : filesystem) (dir : string) (thumbnail_path : option string)
    : list (string * list byte) :=
  match ModaCompiler.truthy_path thumbnail_path with
  | Some p => [(os_path_join dir (basename p), content fs p)]
  | None => []
  end.

Definition track_files (fs : filesystem) (dir : string) (tracks : list string)
    : list (string * list byte) :=
  map (fun t => (os_path_join dir (basename t), content fs t)) tracks.

(** The [tracks] array of a metadata object. *)
Definition meta_tracks (meta : json) : list json :=
  match py_item meta "tracks" with
  | inr (JArr items) => items
  | _ => []
  end.

(** The failures a missing byte can cause directly: a length or count field
    that is not whole, or a name cut in the middle of a character. *)
Definition cut_short (e : exn) : Prop := e = TruncatedInput \/ e = UnicodeDecodeError.

Definition fails_cut_short (A : Type) (r : (exn + A) * io) : Prop :=
  exists e s, r = (inl e, s) /\ cut_short e.

(** What [extract_moda] makes of the result of its [try] block. *)
Definition reraise (A : Type) (r : (exn + A) * io) : (exn + A) * io :=
  match r with
  | (inl e, s) => (inl (ErrorExtracting e), s)
  | (inr a, s) => (inr a, s)
  end.

(** The last track of a list, the data it contributes to the end of the
    container, and the files a container unpacks to when only the first [j]
    bytes of that data are there. *)
Definition last_track (tracks : list string) : option string :=
  match rev tracks with
  | t :: _ => Some t
  | [] => None
  end.

Definition last_data (fs : filesystem) (tracks : list string) : list byte :=
  match last_track tracks with
  | Some t => content fs t
  | None => []
  end.

Definition cut_files (fs : filesystem) (dir : string) (tracks : list string) (j : nat)
    : list (string * list byte) :=
  track_files fs dir (removelast tracks)
  ++ match last_track tracks with
     | Some t => [(os_path_join dir (basename t), firstn j (content fs t))]
     | None => []
     end.

(** The metadata of a player lists the files [files], stored in [dir]. *)
Definition track_named (entry : json) (file : string) : Prop :=
  py_item entry "file" = inr (JStr file).

Definition lists_files (p : player) (dir : string) (files : list string) : Prop :=
  temp_dir p = Some dir /\
  exists entries, tracks_meta p = JArr entries /\ Forall2 track_named entries files.

Definition sound_of (dir file : string) : Sound := {| source := os_path_join dir file |}.


(** A step of [load_moda] that leaves [play_mode] and [tracks_meta] alone. *)
Definition keeps_selection (A : Type) (m : M (player * io) A) : Prop :=
  forall s,
    play_mode (fst (snd (m s))) = play_mode (fst s) /\
    tracks_meta (fst (snd (m s))) = tracks_meta (fst s).

(** ** A container to run the programs on *)

Module Demo.

Local Open Scope string_scope.

Definition fs : filesystem := fun p =>
  if String.eqb p "/music/intro.wav" then Some (list_byte_of_string "RIFFwave")
  else if String.eqb p "/music/theme.ogg" then Some (list_byte_of_string "OggS01")
  else if String.eqb p "/art/cover.png" then Some (list_byte_of_string "PNG!")
  else None.

Definition tracks : list string := ["/music/intro.wav"; "/music/theme.ogg"].

Definition container : list byte :=
  match ModaCompiler.build_moda_file (J := py_json) fs (fun _ => true) tracks "sequential"
          (Some "/art/cover.png") "/music/album.moda" with
  | inr out => out
  | inl _ => []
  end.

Definition plain_container : list byte :=
  match ModaCompiler.build_moda_file (J := py_json) fs (fun _ => true) tracks "parallel"
          None "/music/plain.moda" with
  | inr out => out
  | inl _ => []
  end.

End Demo.

(** ** Players to run the engine on *)

Module DemoPlayer.

Local Open Scope string_scope.

Definition entry (file : string) (order : Z) : json :=
  JObj [("file", JStr file); ("order", JNum order)].

Definition two : json := JArr [entry "a.wav" 1; entry "b.wav" 2].

Definition three : json := JArr [entry "a.wav" 1; entry "b.wav" 2; entry "c.wav" 3].



Definition dir : string := "/tmp/moda_x".

(** A player on which [load_moda] has just succeeded. *)
Definition loaded (mode : string) (tracks : json) : player :=
  {| temp_dir := Some dir; current_track := 0; is_playing := false;
     tracks_meta := tracks; play_mode := JStr mode; thumbnail_path := None;
     audio_threads := []; sound_objects := [];
     channels := repeat None 8; threads := [] |}.

(** Every file loads but [b.wav]. *)
Definition loads (path : string) : bool := negb (String.eqb path "/tmp/moda_x/b.wav").

Definition everything_loads (path : string) : bool := true.

(** The system has room for every thread. *)
Definition every_thread_starts (i : nat) : bool := true.

Definition a_wav : Sound := sound_of dir "a.wav".
Definition b_wav : Sound := sound_of dir "b.wav".

(** The second of three tracks is playing, on the channel the first left. *)
Definition mid_session : player :=
  {| temp_dir := Some dir; current_track := 1; is_playing := true;
     tracks_meta := three; play_mode := JStr "sequential"; thumbnail_path := None;
     audio_threads := []; sound_objects := [b_wav];
     channels := Some b_wav :: repeat None 7; threads := [] |}.

End DemoPlayer.

(** ** What the compiler can pack *)

Definition fits_H (n : N) : bool := (n <? 65536)%N.

Definition fits_I (n : N) : bool := (n <? 4294967296)%N.

(** A file [build_moda_file] can embed: it can be opened, its name is
    well-formed UTF-8 of fewer than 65536 bytes, and it holds fewer than
    4294967296 bytes. *)
Definition embeddable (fs : filesystem) (p : string) : bool :=
  negb (names_directory p) &&
  match fs p with
  | Some data =>
      utf8_valid (list_byte_of_string (basename p)) &&
      fits_H (len (list_byte_of_string (basename p))) &&
      fits_I (len data)
  | None => false
  end.

Definition encodable {J : JsonModule} (fs : filesystem) (writable : string -> bool)
    (tracks : list string)
    (play_mode : string) (thumbnail_path : option string) (output_path : string) : bool :=
  fits_I (len (json_dumps (ModaCompiler.build_meta tracks play_mode thumbnail_path))) &&
  match ModaCompiler.truthy_path thumbnail_path with
  | Some p => embeddable fs p
  | None => true
  end &&
  fits_H (len tracks) &&
  forallb (embeddable fs) tracks &&
  negb (names_directory output_path) &&
  writable output_path.

(** The bytes one embedded file takes in the container: two length fields,
    the name and the data. *)
Definition record_size (fs : filesystem) (p : string) : nat :=
  2 + length (list_byte_of_string (basename p)) + 4 + length (content fs p).

Definition succeeds (A : Type) (r : exn + A) : bool :=
  match r with
  | inr _ => true
  | inl _ => false
  end.

(** ** Metadata and names to try the decompiler on *)

Module DemoCodec.

Local Open Scope string_scope.

(** Metadata that lists no track at all. *)
Definition empty_meta_text : list byte := list_byte_of_string "{}".

Definition empty_meta_len : list byte := [x00; x00; x00; x02].

Definition outside : string := "/etc/cron.d/job".

Definition payload : list byte := list_byte_of_string "* * * * *".

End DemoCodec.

(** ** Files to open in the decompiler's window *)

Module DemoWindow.

Local Open Scope string_scope.
Local Open Scope list_scope.

Definition thumb : option string := Some "/art/cover.png".

Definition header_len : list byte := [x00; x00; x00; xbf].

Definition header_text : list byte :=
  json_dumps (JsonModule := py_json) (ModaCompiler.build_meta Demo.tracks "sequential" thumb).

Definition sec : list byte :=
  match ModaCompiler.thumbnail_section Demo.fs thumb with inr b => b | inl _ => [] end.

Definition count : list byte := [x00; x02].

Definition records : list byte :=
  match ModaCompiler.track_records Demo.fs Demo.tracks with inr b => b | inl _ => [] end.

(** The metadata [[]]: valid JSON, but a list. *)
Definition list_meta_text : list byte := list_byte_of_string "[]".

(** Metadata that gives a number where the list of tracks should be. *)
Definition counted_meta : json := JObj [("tracks", JNum 5)].

Definition counted_meta_text : list byte := json_dumps (JsonModule := py_json) counted_meta.

Definition counted_meta_len : list byte :=
  match struct_pack_I (len counted_meta_text) with inr b => b | inl _ => [] end.

Definition fs : filesystem := fun p =>
  if String.eqb p "/in/album.moda" then Some Demo.container
  else if String.eqb p "/in/header.moda"
       then Some (MODA_MAGIC ++ header_len ++ header_text)
  else if String.eqb p "/in/song.wav" then Some (list_byte_of_string "RIFF0000WAVE")
  else if String.eqb p "/in/untitled.moda"
       then Some (MODA_MAGIC ++ DemoCodec.empty_meta_len ++ DemoCodec.empty_meta_text
                  ++ sec ++ count ++ records)
  else if String.eqb p "/in/list.moda"
       then Some (MODA_MAGIC ++ DemoCodec.empty_meta_len ++ list_meta_text
                  ++ sec ++ count ++ records)
  else if String.eqb p "/in/counted.moda"
       then Some (MODA_MAGIC ++ counted_meta_len ++ counted_meta_text
                  ++ sec ++ count ++ records)
  else None.

(** The window with a file and a folder chosen. *)
Definition ready (file : string) : ModaDecompilerApp.app :=
  ModaDecompilerApp.set_output_dir (Some "/out")
    (ModaDecompilerApp.set_current_file (Some file) ModaDecompilerApp.init).

Definition unpacked (meta : json) : list (string * list byte) :=
  thumbnail_file Demo.fs "/out" thumb ++ track_files Demo.fs "/out" Demo.tracks
  ++ [(os_path_join "/out" "meta.json", json_dumps (JsonModule := py_json) meta)].

End DemoWindow.

(** ** What a player holds after loading *)

(** The part of a player that says what is being played. *)
Definition session (p : player)
    : nat * bool * list Sound * list Sound * list (option Sound) :=
  (current_track p, is_playing p, sound_objects p, audio_threads p, channels p).

(** A step of [load_moda] that leaves the session alone. *)
Definition keeps_session (A : Type) (m : M (player * io) A) : Prop :=
  forall s, session (fst (snd (m s))) = session (fst s).

(** The player after [load_moda] has read a container built from [tracks],
    [mode] and [thumbnail]: the temporary directory, the metadata and the
    play mode are those of the container; the thumbnail path is replaced
    only when the container has a thumbnail. *)
Definition after_loading (self : player) (gettempdir mkdtemp : string)
    (tracks : list string) (mode : string) (thumbnail : option string) : player :=
  {| temp_dir := Some mkdtemp;
     current_track := current_track self;
     is_playing := is_playing self;
     tracks_meta := JArr (map ModaCompiler.track_entry (ModaCompiler.enumerate tracks));
     play_mode := JStr mode;
     thumbnail_path :=
       match ModaCompiler.truthy_path thumbnail with
       | Some p => Some (os_path_join gettempdir (basename p))
       | None => thumbnail_path self
       end;
     audio_threads := audio_threads self;
     sound_objects := sound_objects self;
     channels := channels self;
     threads := threads self |}.

(** ** A session from the compiler to the mixer *)

Module DemoSession.

Local Open Scope string_scope.

(** The first extracted track is one the mixer cannot load. *)
Definition loads (path : string) : bool := negb (String.eqb path "/tmp/moda_x/intro.wav").

Definition theme : Sound := sound_of "/tmp/moda_x" "theme.ogg".

End DemoSession.

(** ** A session as the mixer lives it *)

(** The sound on channel [i] comes to its end. *)
Definition sound_ends (i : nat) (p : player) : player :=
  ModaPlayer.set_channels (ModaPlayer.fall_silent i (channels p)) p.

(** Play is pressed; then, [n] times over, the sound on channel [i] ends and
    the window polls the player, which finds the end event. *)
Fixpoint listen (Sound_loads : string -> bool) (Thread_starts : nat -> bool)
    (frames : nat) (i n : nat) : M ModaPlayerApp.app unit :=
  match n with
  | O => ModaPlayerApp.play Sound_loads Thread_starts frames
  | S n' =>
      bind (listen Sound_loads Thread_starts frames i n') (fun _ =>
      bind (ModaPlayerApp.on_player (modify (sound_ends i))) (fun _ =>
      ModaPlayerApp.update_player Sound_loads frames [USEREVENT]))
  end.

(** The player [p] with the cursor on [k] and the file [f] playing alone on
    channel [i]. *)
Definition playing (p : player) (dir : string) (i k : nat) (f : string) : player :=
  {| temp_dir := temp_dir p; current_track := k; is_playing := true;
     tracks_meta := tracks_meta p; play_mode := play_mode p;
     thumbnail_path := thumbnail_path p; audio_threads := audio_threads p;
     sound_objects := [sound_of dir f];
     channels := ModaPlayer.channel_play i (sound_of dir f) (channels p);
     threads := threads p |}.

(** The player [p] when its list has been played to the end, [f] having
    been the last file. *)
Definition played_out (p : player) (dir : string) (f : string) : player :=
  {| temp_dir := temp_dir p; current_track := 0; is_playing := false;
     tracks_meta := tracks_meta p; play_mode := play_mode p;
     thumbnail_path := thumbnail_path p; audio_threads := audio_threads p;
     sound_objects := [sound_of dir f];
     channels := channels p;
     threads := threads p |}.

(** The window around a player, once Play has been pressed. *)
Definition pressed (a : ModaPlayerApp.app) (p : player) : ModaPlayerApp.app :=
  ModaPlayerApp.set_stop_btn true
    (ModaPlayerApp.set_play_btn false (ModaPlayerApp.set_player p a)).

(** ** A window with two tracks loaded *)

Module DemoWindowPlayer.

Local Open Scope string_scope.

Definition files : list string := ["a.wav"; "b.wav"].

Definition window : ModaPlayerApp.app :=
  ModaPlayerApp.set_current_file (Some "/music/album.moda")
    (ModaPlayerApp.set_player (DemoPlayer.loaded "sequential" DemoPlayer.two)
       ModaPlayerApp.init).

End DemoWindowPlayer.

(** ** The window and the mixer *)

(** Nothing is playing: the player does not say so and no channel is busy. *)
Definition at_rest (p : player) : Prop :=
  is_playing p = false /\ ModaPlayer.busy (channels p) = 0.

(** What can happen to the window, one thing at a time: a file is chosen
    in the dialog, a button is pressed, the timer polls the player, a
    sound comes to its end, a thread started by [play_parallel] makes its
    next call to the mixer.  The callbacks run on the one thread of the
    window, so each is a single step.  The threads run whenever the
    scheduler lets them; they touch the channels only, so that a call of
    theirs made while a callback runs can be taken to come before or after
    it, but for one that comes between the [find_channel] and the [play] of
    [play_sequential], which changes what a channel holds and nothing else.
    A callback that raises leaves the window as the exception found it,
    with the threads it had started alive. *)
Inductive happens {J : JsonModule} (a : ModaPlayerApp.app) : ModaPlayerApp.app -> Prop :=
| opens (fs : filesystem) (gettempdir mkdtemp : string) (removal : option exn)
    (Image_opens : string -> bool) (file : string) :
    happens a
      (snd (ModaPlayerApp.open_file fs gettempdir mkdtemp removal Image_opens file a))
| presses_play (Sound_loads : string -> bool) (Thread_starts : nat -> bool)
    (frames : nat) :
    happens a (snd (ModaPlayerApp.play Sound_loads Thread_starts frames a))
| presses_stop :
    happens a (snd (ModaPlayerApp.stop a))
| polls (Sound_loads : string -> bool) (frames : nat) (evs : list event) :
    happens a (snd (ModaPlayerApp.update_player Sound_loads frames evs a))
| a_sound_ends (i : nat) :
    happens a (ModaPlayerApp.set_player (sound_ends i (ModaPlayerApp.the_player a)) a)
| a_thread_runs (k : nat) :
    happens a
      (ModaPlayerApp.set_player (ModaPlayer.thread_runs k (ModaPlayerApp.the_player a)) a).

Inductive reachable {J : JsonModule} : ModaPlayerApp.app -> Prop :=
| at_start : reachable ModaPlayerApp.init
| later (a a' : ModaPlayerApp.app) : reachable a -> happens a a' -> reachable a'.

(** A step of the window that leaves the session of its player alone. *)
Definition quiet (A : Type) (m : M ModaPlayerApp.app A) : Prop :=
  forall a,
    session (ModaPlayerApp.the_player (snd (m a))) = session (ModaPlayerApp.the_player a).

(** ** What the player's window shows *)

(** The row of the track list for the track at position [i]: its order and
    its name. *)
Definition track_row (it : nat * string) : json * json :=
  (JNum (Z.of_nat (fst it) + 1), JStr (basename (snd it))).

(** What [thumb_label] shows for the thumbnail path of a player. *)
Definition picture_of (Image_opens : string -> bool) (p : player) : ModaPlayerApp.picture :=
  match ModaCompiler.truthy_path (thumbnail_path p) with
  | Some path =>
      if Image_opens path then ModaPlayerApp.image_of path else ModaPlayerApp.no_thumbnail
  | None => ModaPlayerApp.no_thumbnail
  end.

(** ** The compiler's window in use *)

(** What can happen to the compiler's window: tracks are added, a row is
    removed, a thumbnail or a play mode is chosen, the container is saved.
    A callback that raises leaves the window as the exception found it. *)
Inductive edits {J : JsonModule} (a : ModaCompilerApp.app) : ModaCompilerApp.app -> Prop :=
| adds (files : list string) :
    edits a (snd (ModaCompilerApp.add_tracks files a))
| removes (selection : list nat) :
    edits a (snd (ModaCompilerApp.remove_track selection a))
| chooses_thumbnail (Image_open : string -> exn + unit) (file : string) :
    edits a (snd (ModaCompilerApp.choose_thumbnail Image_open file a))
| chooses_mode (parallel : bool) :
    edits a (snd (ModaCompilerApp.choose_mode parallel a))
| saves (fs : filesystem) (writable : string -> bool) (file : string) :
    edits a (snd (ModaCompilerApp.save_moda fs writable file a)).

Inductive edited {J : JsonModule} : ModaCompilerApp.app -> Prop :=
| fresh : edited ModaCompilerApp.init
| then_ (a a' : ModaCompilerApp.app) : edited a -> edits a a' -> edited a'.

(** The list on the screen shows the tracks that will be packed. *)
Definition mirrors (a : ModaCompilerApp.app) : Prop :=
  ModaCompilerApp.track_list a = map basename (ModaCompilerApp.tracks a).

Module DemoCompilerWindow.

Local Open Scope string_scope.

(** Parallel mode is chosen, three files are added, the second is removed. *)
Definition two_left : ModaCompilerApp.app :=
  snd (ModaCompilerApp.remove_track [1]
    (snd (ModaCompilerApp.add_tracks
            ["/music/intro.wav"; "/art/cover.png"; "/music/theme.ogg"]
            (snd (ModaCompilerApp.choose_mode true ModaCompilerApp.init))))).

End DemoCompilerWindow.

(** ** Threads taking channels *)





(** ** The two readers of a container *)

(** The files stored under the names and with the data of [log], unpacked
    into [dir]. *)
Definition unpacked (dir : string) (log : list (string * list byte))
    : list (string * list byte) :=
  map (fun nd => (os_path_join dir (fst nd), snd nd)) log.

(** A reader that writes nothing. *)
Definition reads (A : Type) (m : M io A) : Prop :=
  forall u, exists r u', forall w, m (at_ u w) = (r, at_ u' w).

(** A reader that unpacks into a directory: what it returns, what it leaves
    unread and the names and data it writes do not depend on the directory
    nor on what was written before. *)
Definition unpacks (A : Type) (m : string -> M io A) : Prop :=
  forall u, exists r u' log,
    forall dir w, m dir (at_ u w) = (r, at_ u' (w ++ unpacked dir log)).

(** What [load_moda] raises where [extract_moda] raises; what it returns
    where [extract_moda] returns. *)
Definition as_loading (r : exn + json) : exn + json :=
  match r with
  | inl (ErrorExtracting e) => inl (ErrorLoading e)
  | other => other
  end.

(** ** A container that stops inside a track *)

(** Where the record of the track that follows [before] starts in the
    container built from [tracks], and how many bytes of a record come
    before its data: the two length fields and the name. *)
Definition track_offset {J : JsonModule} (fs : filesystem) (tracks : list string)
    (play_mode : string) (thumbnail_path : option string) (before : list string) : nat :=
  8 + length (json_dumps (ModaCompiler.build_meta tracks play_mode thumbnail_path))
  + match ModaCompiler.truthy_path thumbnail_path with
    | Some p => record_size fs p
    | None => 2
    end
  + 2 + list_sum (map (record_size fs) before).

Definition header_size (t : string) : nat :=
  2 + length (list_byte_of_string (basename t)) + 4.

(** * Facts about the embedding *)

(** ** [struct]: what is packed is what is unpacked *)

Section StructFacts.

Local Open Scope N_scope.

Lemma to_N_byte_of_N (n : N) : n < 256 -> Byte.to_N (byte_of_N n) = n.
Proof.
  intros Hn. unfold byte_of_N.
  destruct (Byte.of_N n) as [b|] eqn:E.
  - now apply Byte.to_of_N.
  - pose proof (Byte.to_of_N_option_map n) as H. rewrite E in H. simpl in H.
    destruct (N.leb_spec n 255); [discriminate | lia].
Qed.

Lemma split_H (n : N) : n < 65536 -> n / 256 < 256 /\ n mod 256 < 256 /\ n / 256 * 256 + n mod 256 = n.
Proof.
  intros Hn. repeat split.
  - apply N.Div0.div_lt_upper_bound. lia.
  - apply N.mod_lt. lia.
  - pose proof (N.div_mod n 256). lia.
Qed.

Lemma pack_H_inv (n : N) (b : list byte) :
  struct_pack_H n = inr b ->
  n < 65536 /\ b = [byte_of_N (n / 256); byte_of_N (n mod 256)].
Proof.
  unfold struct_pack_H. destruct (N.ltb_spec n 65536); intros E; inversion E. auto.
Qed.

Lemma pack_I_inv (n : N) (b : list byte) :
  struct_pack_I n = inr b ->
  n < 4294967296 /\
  b = [byte_of_N (n / 16777216); byte_of_N ((n / 65536) mod 256);
       byte_of_N ((n / 256) mod 256); byte_of_N (n mod 256)].
Proof.
  unfold struct_pack_I. destruct (N.ltb_spec n 4294967296); intros E; inversion E. auto.
Qed.

Lemma unpack_pack_H (n : N) (b : list byte) :
  struct_pack_H n = inr b -> struct_unpack_H b = inr n.
Proof.
  intros E. apply pack_H_inv in E. destruct E as [Hn ->].
  destruct (split_H Hn) as (H1 & H0 & Hsum).
  unfold struct_unpack_H. rewrite !to_N_byte_of_N by assumption. now rewrite Hsum.
Qed.

Lemma unpack_pack_I (n : N) (b : list byte) :
  struct_pack_I n = inr b -> struct_unpack_I b = inr n.
Proof.
  intros E. apply pack_I_inv in E. destruct E as [Hn ->].
  assert (H3 : n / 16777216 < 256) by (apply N.Div0.div_lt_upper_bound; lia).
  assert (H2 : (n / 65536) mod 256 < 256) by (apply N.mod_lt; lia).
  assert (H1 : (n / 256) mod 256 < 256) by (apply N.mod_lt; lia).
  assert (H0 : n mod 256 < 256) by (apply N.mod_lt; lia).
  unfold struct_unpack_I. rewrite !to_N_byte_of_N by assumption. f_equal.
  pose proof (N.div_mod n 256).
  pose proof (N.div_mod (n / 256) 256).
  pose proof (N.div_mod (n / 65536) 256).
  assert (n / 256 / 256 = n / 65536) by (rewrite N.Div0.div_div; reflexivity).
  assert (n / 65536 / 256 = n / 16777216) by (rewrite N.Div0.div_div; reflexivity).
  lia.
Qed.

Lemma pack_H_length (n : N) (b : list byte) : struct_pack_H n = inr b -> length b = 2%nat.
Proof. intros E. apply pack_H_inv in E. now destruct E as [_ ->]. Qed.

Lemma pack_I_length (n : N) (b : list byte) : struct_pack_I n = inr b -> length b = 4%nat.
Proof. intros E. apply pack_I_inv in E. now destruct E as [_ ->]. Qed.

(** A buffer of the wrong size is refused. *)
Lemma unpack_H_short (b : list byte) : length b <> 2%nat -> struct_unpack_H b = inl struct_error.
Proof.
  destruct b as [|b1 [|b0 [|? ?]]]; simpl; intros H; try reflexivity. now elim H.
Qed.

Lemma unpack_I_short (b : list byte) : length b <> 4%nat -> struct_unpack_I b = inl struct_error.
Proof.
  destruct b as [|b3 [|b2 [|b1 [|b0 [|? ?]]]]]; simpl; intros H; try reflexivity. now elim H.
Qed.

End StructFacts.

(** ** Paths *)

Section PathFacts.

Local Open Scope string_scope.

Lemma append_assoc (a b c : string) : (a ++ b) ++ c = a ++ (b ++ c).
Proof. induction a as [|x a IH]; simpl; [reflexivity | now rewrite IH]. Qed.

Lemma no_slash_app (a b : string) : no_slash (a ++ b) = no_slash a && no_slash b.
Proof.
  induction a as [|x a IH]; simpl; [reflexivity|].
  rewrite IH. now rewrite andb_assoc.
Qed.

Lemma basename_from_no_slash (p acc : string) :
  no_slash acc = true -> no_slash (basename_from acc p) = true.
Proof.
  revert acc. induction p as [|c p IH]; simpl; intros acc Hacc; [assumption|].
  destruct (Ascii.eqb c "/"%char) eqn:E.
  - now apply IH.
  - apply IH. rewrite no_slash_app, Hacc. simpl. now rewrite E.
Qed.

Lemma basename_no_slash (p : string) : no_slash (basename p) = true.
Proof. now apply basename_from_no_slash. Qed.

Lemma basename_from_plain (b acc : string) :
  no_slash b = true -> basename_from acc b = acc ++ b.
Proof.
  revert acc. induction b as [|c b IH]; simpl; intros acc H.
  - clear H. induction acc as [|x acc IHa]; simpl; [reflexivity | now rewrite <- IHa].
  - apply andb_true_iff in H. destruct H as [Hc Hb].
    apply negb_true_iff in Hc. rewrite Hc, IH by assumption.
    now rewrite append_assoc.
Qed.

Lemma basename_plain (b : string) : no_slash b = true -> basename b = b.
Proof. intros H. unfold basename. now rewrite basename_from_plain. Qed.

Lemma basename_from_slash (a b acc : string) :
  basename_from acc (a ++ String "/" b) = basename b.
Proof.
  revert acc. induction a as [|c a IH]; simpl; intros acc; [reflexivity|].
  destruct (Ascii.eqb c "/"%char); apply IH.
Qed.

Lemma endswith_slash_split (a : string) :
  endswith_slash a = true -> exists a', a = a' ++ "/".
Proof.
  induction a as [|c a IH]; simpl; [discriminate|].
  destruct a as [|c' a'].
  - intros E. apply Ascii.eqb_eq in E. subst c. now exists EmptyString.
  - intros E. destruct (IH E) as [a0 Ha0]. exists (String c a0). simpl. now rewrite <- Ha0.
Qed.

Lemma no_slash_start (b : string) : no_slash b = true -> startswith_slash b = false.
Proof.
  destruct b as [|c b]; simpl; [reflexivity|].
  intros H. apply andb_true_iff in H. destruct H as [Hc _]. now apply negb_true_iff in Hc.
Qed.

(** A plain name stays the last component of the path it is joined to. *)
Lemma basename_join (dir b : string) :
  no_slash b = true -> basename (os_path_join dir b) = b.
Proof.
  intros Hb. unfold os_path_join. rewrite (no_slash_start _ Hb).
  destruct (String.eqb_spec dir EmptyString) as [-> | Hne]; simpl.
  - now apply basename_plain.
  - destruct (endswith_slash dir) eqn:E.
    + destruct (endswith_slash_split _ E) as [a ->].
      rewrite append_assoc. simpl. unfold basename at 1.
      rewrite basename_from_slash. now apply basename_plain.
    + unfold basename at 1. rewrite basename_from_slash. now apply basename_plain.
Qed.

Lemma names_directory_join (dir p : string) :
  names_directory (os_path_join dir (basename p)) = names_directory p.
Proof.
  unfold names_directory. rewrite basename_join by apply basename_no_slash.
  reflexivity.
Qed.

Lemma names_directory_meta (dir : string) :
  names_directory (os_path_join dir "meta.json") = false.
Proof.
  unfold names_directory. rewrite basename_join by reflexivity. reflexivity.
Qed.

Lemma open_rb_inv (fs : filesystem) (p : string) (data : list byte) :
  open_rb fs p = inr data -> names_directory p = false /\ fs p = Some data.
Proof.
  unfold open_rb. destruct (names_directory p); [discriminate|].
  destruct (fs p); [|discriminate]. intros E. inversion E. auto.
Qed.

End PathFacts.

(** ** UTF-8 *)

Lemma encode_utf8_inv (s : string) (bs : list byte) :
  encode_utf8 s = inr bs -> bs = list_byte_of_string s /\ utf8_valid bs = true.
Proof.
  unfold encode_utf8. destruct (utf8_valid (list_byte_of_string s)) eqn:E; [|discriminate].
  intros H. inversion H. subst. auto.
Qed.

Lemma decode_encode_utf8 (s : string) (bs : list byte) :
  encode_utf8 s = inr bs -> decode_utf8 bs = inr s.
Proof.
  intros H. apply encode_utf8_inv in H. destruct H as [-> Hv].
  unfold decode_utf8. rewrite Hv. now rewrite string_of_list_byte_of_string.
Qed.

(** ** Reading what was written *)

Section ReadFacts.

Lemma run_bind (S A B : Type) (m : M S A) (k : A -> M S B) (s s' : S) (a : A) :
  m s = (inr a, s') -> bind m k s = k a s'.
Proof. intros E. unfold bind. now rewrite E. Qed.

Lemma run_bind_raise (S A B : Type) (m : M S A) (k : A -> M S B) (s s' : S) (e : exn) :
  m s = (inl e, s') -> bind m k s = (inl e, s').
Proof. intros E. unfold bind. now rewrite E. Qed.

Lemma f_read_app (b rest : list byte) (w : list (string * list byte)) :
  f_read (len b) (at_ (b ++ rest) w) = (inr b, at_ rest w).
Proof.
  unfold f_read, at_, len. simpl. rewrite Nat2N.id.
  rewrite firstn_app, Nat.sub_diag, firstn_all, firstn_0, app_nil_r.
  rewrite skipn_app, Nat.sub_diag, skipn_all. reflexivity.
Qed.

Lemma f_read_exact (n : nat) (b rest : list byte) (w : list (string * list byte)) :
  length b = n -> f_read (N.of_nat n) (at_ (b ++ rest) w) = (inr b, at_ rest w).
Proof. intros <-. apply f_read_app. Qed.

Lemma read_H_app (n : N) (b rest : list byte) (w : list (string * list byte)) :
  struct_pack_H n = inr b -> read_H (at_ (b ++ rest) w) = (inr n, at_ rest w).
Proof.
  intros E. unfold read_H.
  erewrite run_bind by (apply (@f_read_exact 2); eapply pack_H_length, E).
  unfold lift. now rewrite (unpack_pack_H _ E).
Qed.

Lemma read_I_app (n : N) (b rest : list byte) (w : list (string * list byte)) :
  struct_pack_I n = inr b -> read_I (at_ (b ++ rest) w) = (inr n, at_ rest w).
Proof.
  intros E. unfold read_I.
  erewrite run_bind by (apply (@f_read_exact 4); eapply pack_I_length, E).
  unfold lift. now rewrite (unpack_pack_I _ E).
Qed.

Lemma read_str_app (s : string) (bs rest : list byte) (w : list (string * list byte)) :
  encode_utf8 s = inr bs -> read_str (len bs) (at_ (bs ++ rest) w) = (inr s, at_ rest w).
Proof.
  intros E. unfold read_str. erewrite run_bind by apply f_read_app.
  unfold lift. now rewrite (decode_encode_utf8 _ E).
Qed.

Lemma open_wb_ok (path : string) (data : list byte) (bs : list byte)
    (w : list (string * list byte)) :
  names_directory path = false ->
  open_wb path data (at_ bs w) = (inr tt, at_ bs (w ++ [(path, data)])).
Proof. intros H. unfold open_wb. now rewrite H. Qed.

End ReadFacts.

(** ** The decompiler on the compiler's output *)

Ltac step_sum H :=
  match type of H with
  | bind_sum ?r _ = inr _ =>
      let E := fresh "E" in
      destruct r eqn:E; simpl in H; [discriminate H|]
  end.

Section RoundTrip.
Context {J : JsonModule}.

Import ModaCompiler ModaDecompiler.

Lemma bytes_nonempty (s : string) : list_byte_of_string s = [] -> s = EmptyString.
Proof. destruct s; [reflexivity | discriminate]. Qed.

Lemma named_file_has_name (p : string) (bs : list byte) :
  names_directory p = false -> encode_utf8 (basename p) = inr bs -> (0 <? len bs)%N = true.
Proof.
  intros Hd E. apply encode_utf8_inv in E. destruct E as [-> _].
  apply N.ltb_lt. unfold len.
  destruct (list_byte_of_string (basename p)) eqn:Eb; simpl; [|lia].
  apply bytes_nonempty in Eb. unfold names_directory in Hd. rewrite Eb in Hd. discriminate.
Qed.

Lemma read_thumbnail_section (fs : filesystem) (thumb : option string) (dir : string)
    (sec rest : list byte) (w : list (string * list byte)) :
  thumbnail_section fs thumb = inr sec ->
  read_thumbnail dir (at_ (sec ++ rest) w) = (inr tt, at_ rest (w ++ thumbnail_file fs dir thumb)).
Proof.
  unfold thumbnail_section, thumbnail_file, read_thumbnail.
  destruct (truthy_path thumb) as [p|]; intros H.
  - do 4 step_sum H. inversion H; subst sec; clear H.
    apply open_rb_inv in E. destruct E as [Hd Hfs].
    rewrite <- !app_assoc.
    erewrite run_bind by (apply read_H_app; eassumption).
    rewrite (named_file_has_name _ Hd E0).
    erewrite run_bind by (apply read_str_app; eassumption).
    erewrite run_bind by (apply read_I_app; eassumption).
    erewrite run_bind by apply f_read_app.
    rewrite open_wb_ok by (rewrite names_directory_join; assumption).
    unfold content. now rewrite Hfs.
  - erewrite run_bind by (apply read_H_app; eassumption).
    simpl. unfold ret. now rewrite app_nil_r.
Qed.

Lemma read_track_record (fs : filesystem) (t dir : string) (r rest : list byte)
    (w : list (string * list byte)) :
  track_record fs t = inr r ->
  read_track dir (at_ (r ++ rest) w)
  = (inr tt, at_ rest (w ++ [(os_path_join dir (basename t), content fs t)])).
Proof.
  unfold track_record, read_track. intros H.
  do 4 step_sum H. inversion H; subst r; clear H.
  apply open_rb_inv in E. destruct E as [Hd Hfs].
  rewrite <- !app_assoc.
  erewrite run_bind by (apply read_H_app; eassumption).
  erewrite run_bind by (apply read_str_app; eassumption).
  erewrite run_bind by (apply read_I_app; eassumption).
  erewrite run_bind by apply f_read_app.
  rewrite open_wb_ok by (rewrite names_directory_join; assumption).
  unfold content. now rewrite Hfs.
Qed.

Lemma read_track_records (fs : filesystem) (dir : string) (ts : list string) :
  forall (rs rest : list byte) (w : list (string * list byte)),
  track_records fs ts = inr rs ->
  for_range (length ts) (read_track dir) (at_ (rs ++ rest) w)
  = (inr tt, at_ rest (w ++ track_files fs dir ts)).
Proof.
  induction ts as [|t ts IH]; simpl; intros rs rest w H.
  - inversion H. unfold ret. simpl. now rewrite app_nil_r.
  - do 2 step_sum H. inversion H; subst rs; clear H.
    rewrite <- app_assoc.
    erewrite run_bind by (apply read_track_record; eassumption).
    rewrite (IH _ _ _ eq_refl). now rewrite <- app_assoc.
Qed.

Lemma read_track_section (fs : filesystem) (dir : string) (ts : list string)
    (c rs rest : list byte) (w : list (string * list byte)) :
  struct_pack_H (len ts) = inr c ->
  track_records fs ts = inr rs ->
  read_tracks dir (at_ (c ++ rs ++ rest) w) = (inr tt, at_ rest (w ++ track_files fs dir ts)).
Proof.
  intros Hc Hrs. unfold read_tracks.
  erewrite run_bind by (apply read_H_app; eassumption).
  unfold len. rewrite Nat2N.id. now apply read_track_records.
Qed.

Lemma bytes_eqb_refl (b : list byte) : bytes_eqb b b = true.
Proof. unfold bytes_eqb. destruct (list_eq_dec Byte.byte_eq_dec b b); congruence. Qed.

Lemma bytes_eqb_neq (a b : list byte) : a <> b -> bytes_eqb a b = false.
Proof. unfold bytes_eqb. destruct (list_eq_dec Byte.byte_eq_dec a b); congruence. Qed.

Lemma read_header_written (meta_json json_len rest : list byte)
    (w : list (string * list byte)) :
  struct_pack_I (len meta_json) = inr json_len ->
  read_header (at_ (MODA_MAGIC ++ json_len ++ meta_json ++ rest) w)
  = (json_loads meta_json, at_ rest w).
Proof.
  intros Hl. unfold read_header.
  erewrite run_bind by (apply (@f_read_exact 4); reflexivity).
  rewrite bytes_eqb_refl. cbn [negb].
  erewrite run_bind by (apply read_I_app; eassumption).
  erewrite run_bind by apply f_read_app.
  reflexivity.
Qed.

(** The container [build_moda_file] writes, laid out field by field. *)
Lemma build_moda_file_layout (fs : filesystem) (writable : string -> bool) (tracks : list string) (play_mode : string)
    (thumb : option string) (output_path : string) (out : list byte) :
  build_moda_file fs writable tracks play_mode thumb output_path = inr out ->
  exists json_len sec count records,
    struct_pack_I (len (json_dumps (build_meta tracks play_mode thumb))) = inr json_len /\
    thumbnail_section fs thumb = inr sec /\
    struct_pack_H (len tracks) = inr count /\
    track_records fs tracks = inr records /\
    out = MODA_MAGIC ++ json_len ++ json_dumps (build_meta tracks play_mode thumb)
          ++ sec ++ count ++ records.
Proof.
  unfold build_moda_file. intros H. do 4 step_sum H.
  destruct (names_directory output_path); [discriminate|].
  destruct (writable output_path); [|discriminate].
  inversion H. eauto 10.
Qed.

(** Unpacking a container that was just built: the metadata comes back as
    [json.loads] reads it, every embedded file is written under its own name
    with its own bytes, in the order of the container, and nothing is left
    unread. *)
Lemma extract_build (fs : filesystem) (writable : string -> bool) (tracks : list string) (play_mode : string)
    (thumb : option string) (output_path dir : string) (out : list byte) :
  let meta := build_meta tracks play_mode thumb in
  build_moda_file fs writable tracks play_mode thumb output_path = inr out ->
  json_loads (json_dumps meta) = inr meta ->
  extract_moda out dir
  = (inr meta,
     at_ [] (thumbnail_file fs dir thumb ++ track_files fs dir tracks
             ++ [(os_path_join dir "meta.json", json_dumps meta)])).
Proof.
  intros meta Hb Hj.
  destruct (build_moda_file_layout _ _ _ _ _ _ Hb)
    as (json_len & sec & count & records & Hl & Hs & Hc & Hr & ->).
  fold meta in Hl |- *.
  unfold extract_moda, try_except, extract_body.
  change {| unread := ?b; written := ?w |} with (at_ b w).
  erewrite run_bind; cycle 1.
  { rewrite read_header_written by eassumption. rewrite Hj. reflexivity. }
  erewrite run_bind by (apply read_thumbnail_section; eassumption).
  erewrite run_bind; cycle 1.
  { rewrite <- (app_nil_r records). apply read_track_section; eassumption. }
  erewrite run_bind by (apply open_wb_ok, names_directory_meta).
  unfold ret. simpl. now rewrite <- app_assoc.
Qed.

End RoundTrip.

(** * The codec against its specification *)

Section CodecClaims.

Import ModaCompiler ModaDecompiler.

Lemma meta_tracks_build {J : JsonModule} (tracks : list string) (play_mode : string)
    (thumb : option string) :
  meta_tracks (build_meta tracks play_mode thumb) = map track_entry (enumerate tracks).
Proof. reflexivity. Qed.

Lemma enumerate_from_length (A : Type) (l : list A) (i : nat) :
  length (enumerate_from i l) = length l.
Proof. revert i. induction l as [|x l IH]; simpl; intros i; [reflexivity | now rewrite IH]. Qed.

Lemma enumerate_from_nth (A : Type) (l : list A) (i k : nat) (x : A) :
  nth_error l k = Some x -> nth_error (enumerate_from i l) k = Some (i + k, x).
Proof.
  revert i k. induction l as [|y l IH]; intros i [|k]; simpl; try discriminate.
  - intros E. inversion E. now rewrite Nat.add_0_r.
  - intros E. rewrite (IH (S i) k E). now rewrite Nat.add_succ_r.
Qed.

Lemma track_files_nth (fs : filesystem) (dir : string) (tracks : list string)
    (i : nat) (t : string) :
  nth_error tracks i = Some t ->
  nth_error (track_files fs dir tracks) i = Some (os_path_join dir (basename t), content fs t).
Proof. intros E. unfold track_files. now rewrite nth_error_map, E. Qed.

Lemma track_records_read (fs : filesystem) (tracks : list string) (rs : list byte) :
  track_records fs tracks = inr rs ->
  forall t, In t tracks -> fs t = Some (content fs t).
Proof.
  revert rs. induction tracks as [|t0 ts IH]; simpl; intros rs H t Hin; [contradiction|].
  do 2 step_sum H. destruct Hin as [<- | Hin].
  - unfold track_record in E. step_sum E. apply open_rb_inv in E1.
    destruct E1 as [_ Hfs]. unfold content. now rewrite Hfs.
  - eapply IH; eauto.
Qed.

(** C1. Round trip.  When [build_moda_file] succeeds on [tracks], [play_mode]
    and an optional thumbnail, and [json.loads] reads back the metadata that
    [json.dumps] wrote, [extract_moda] on the bytes produced returns that
    metadata, with the same play mode and thumbnail name and one entry per
    track, and writes the thumbnail (when there is one) and then every track,
    in the order given, each under its own name and with exactly the bytes
    that were read when the container was built. *)
Theorem round_trip {J : JsonModule} (fs : filesystem) (writable : string -> bool) (tracks : list string)
    (play_mode : string) (thumb : option string) (output_path dir : string)
    (out : list byte) :
  build_moda_file fs writable tracks play_mode thumb output_path = inr out ->
  json_loads (json_dumps (build_meta tracks play_mode thumb))
  = inr (build_meta tracks play_mode thumb) ->
  exists (meta : json) (files : list (string * list byte)),
    extract_moda out dir
    = (inr meta,
       {| unread := [];
          written := thumbnail_file fs dir thumb ++ files
                     ++ [(os_path_join dir "meta.json", json_dumps meta)] |}) /\
    length files = length tracks /\
    length (meta_tracks meta) = length tracks /\
    (forall i t, nth_error tracks i = Some t ->
       fs t = Some (content fs t) /\
       nth_error files i = Some (os_path_join dir (basename t), content fs t) /\
       exists entry, nth_error (meta_tracks meta) i = Some entry /\
                     py_item entry "file" = inr (JStr (basename t))) /\
    py_item meta "play_mode" = inr (JStr play_mode) /\
    match truthy_path thumb with
    | Some p =>
        fs p = Some (content fs p) /\
        thumbnail_file fs dir thumb = [(os_path_join dir (basename p), content fs p)] /\
        py_item meta "thumbnail" = inr (JStr (basename p))
    | None =>
        thumbnail_file fs dir thumb = [] /\ py_item meta "thumbnail" = inr JNull
    end.
Proof.
  intros Hb Hj.
  exists (build_meta tracks play_mode thumb), (track_files fs dir tracks).
  split; [eapply extract_build; eassumption|].
  destruct (build_moda_file_layout _ _ _ _ _ _ Hb)
    as (json_len & sec & count & records & Hl & Hs & Hc & Hr & ->).
  split; [apply length_map|].
  split; [rewrite meta_tracks_build, length_map; apply enumerate_from_length|].
  split; [|split; [reflexivity|]].
  - intros i t Hi. split; [|split].
    + eapply track_records_read; eauto using nth_error_In.
    + now apply track_files_nth.
    + exists (track_entry (i, t)). split; [|reflexivity].
      rewrite meta_tracks_build, nth_error_map. unfold enumerate.
      now rewrite (enumerate_from_nth _ 0 _ Hi).
  - unfold thumbnail_file, build_meta. unfold thumbnail_section in Hs.
    destruct (truthy_path thumb) as [p|]; [|split; reflexivity].
    split; [|split; reflexivity].
    step_sum Hs. apply open_rb_inv in E. destruct E as [_ Hfs].
    unfold content. now rewrite Hfs.
Qed.

Lemma round_trip_witness :
  exists (meta : json) (files : list (string * list byte)),
    extract_moda (J := py_json) Demo.container "/out"
    = (inr meta,
       {| unread := [];
          written := thumbnail_file Demo.fs "/out" (Some "/art/cover.png"%string) ++ files
                     ++ [(os_path_join "/out" "meta.json", json_dumps meta)] |}) /\
    length files = 2.
Proof.
  destruct (@round_trip py_json Demo.fs (fun _ => true) Demo.tracks "sequential"
              (Some "/art/cover.png"%string) "/music/album.moda" "/out" Demo.container)
    as (meta & files & H & Hlen & _); [reflexivity | reflexivity |].
  exists meta, files. split; [exact H | exact Hlen].
Defined.

(** C4. Order.  In the metadata [build_moda_file] builds there is one entry
    per track and the entry at position [i] has [order] [i + 1]; when the
    container is unpacked again, the metadata [extract_moda] returns is that
    same metadata, so the orders are still the positions plus one. *)
Theorem order_is_position {J : JsonModule} (tracks : list string) (play_mode : string)
    (thumb : option string) :
  let meta := build_meta tracks play_mode thumb in
  (length (meta_tracks meta) = length tracks /\
   forall i entry, nth_error (meta_tracks meta) i = Some entry ->
     py_item entry "order" = inr (JNum (Z.of_nat i + 1))) /\
  forall (fs : filesystem) (writable : string -> bool) (output_path dir : string) (out : list byte),
    build_moda_file fs writable tracks play_mode thumb output_path = inr out ->
    json_loads (json_dumps meta) = inr meta ->
    exists decoded,
      fst (extract_moda out dir) = inr decoded /\
      length (meta_tracks decoded) = length tracks /\
      forall i entry, nth_error (meta_tracks decoded) i = Some entry ->
        py_item entry "order" = inr (JNum (Z.of_nat i + 1)).
Proof.
  intros meta.
  assert (Hlen : length (meta_tracks meta) = length tracks).
  { unfold meta. rewrite meta_tracks_build, length_map. apply enumerate_from_length. }
  assert (Hord : forall i entry, nth_error (meta_tracks meta) i = Some entry ->
                   py_item entry "order" = inr (JNum (Z.of_nat i + 1))).
  { intros i entry. unfold meta. rewrite meta_tracks_build, nth_error_map.
    destruct (nth_error (enumerate tracks) i) as [[k t]|] eqn:E; [|discriminate].
    simpl. intros H. inversion H; subst entry; clear H.
    assert (Hi : i < length tracks).
    { rewrite <- (enumerate_from_length tracks 0). apply nth_error_Some.
      unfold enumerate in E. congruence. }
    destruct (nth_error tracks i) as [t'|] eqn:Et; [|apply nth_error_None in Et; lia].
    unfold enumerate in E. rewrite (enumerate_from_nth _ 0 _ Et) in E.
    inversion E. reflexivity. }
  split; [split; assumption|].
  intros fs writable output_path dir out Hb Hj. exists meta.
  erewrite extract_build by eassumption. auto.
Qed.

Lemma order_is_position_witness :
  exists decoded,
    fst (extract_moda (J := py_json) Demo.container "/out") = inr decoded /\
    length (meta_tracks decoded) = 2 /\
    forall i entry, nth_error (meta_tracks decoded) i = Some entry ->
      py_item entry "order" = inr (JNum (Z.of_nat i + 1)).
Proof.
  apply (proj2 (@order_is_position py_json Demo.tracks "sequential"
                  (Some "/art/cover.png"%string))
           Demo.fs (fun _ => true) "/music/album.moda"%string "/out"%string Demo.container);
    reflexivity.
Defined.

(** C5. No thumbnail.  When [build_moda_file] is given no thumbnail, the
    container is the magic, the metadata, the two bytes 00 00, the track
    count and the tracks, with nothing else between the two zero bytes and
    the track count.  Reading the thumbnail block of such a container takes
    those two bytes and nothing more, and writes no file; unpacking the whole
    container writes the tracks and [meta.json] only, and the metadata
    names no thumbnail. *)
Theorem no_thumbnail_is_two_zero_bytes {J : JsonModule} (fs : filesystem) (writable : string -> bool)
    (tracks : list string) (play_mode : string) (thumb : option string)
    (output_path : string) (out : list byte) :
  truthy_path thumb = None ->
  build_moda_file fs writable tracks play_mode thumb output_path = inr out ->
  let meta := build_meta tracks play_mode thumb in
  (exists json_len count records,
     struct_pack_I (len (json_dumps meta)) = inr json_len /\
     struct_pack_H (len tracks) = inr count /\
     track_records fs tracks = inr records /\
     out = MODA_MAGIC ++ json_len ++ json_dumps meta ++ [x00; x00] ++ count ++ records) /\
  (forall dir rest w,
     read_thumbnail dir {| unread := [x00; x00] ++ rest; written := w |}
     = (inr tt, {| unread := rest; written := w |})) /\
  py_item meta "thumbnail" = inr JNull /\
  (json_loads (json_dumps meta) = inr meta ->
   forall dir,
     extract_moda out dir
     = (inr meta,
        {| unread := [];
           written := track_files fs dir tracks
                      ++ [(os_path_join dir "meta.json", json_dumps meta)] |})).
Proof.
  intros Ht Hb meta. split; [|split; [|split]].
  - destruct (build_moda_file_layout _ _ _ _ _ _ Hb)
      as (json_len & sec & count & records & Hl & Hs & Hc & Hr & ->).
    unfold thumbnail_section in Hs. rewrite Ht in Hs. inversion Hs.
    exists json_len, count, records. auto.
  - intros dir rest w. reflexivity.
  - unfold meta, build_meta. now rewrite Ht.
  - intros Hj dir. erewrite extract_build by eassumption.
    unfold thumbnail_file. now rewrite Ht.
Qed.

Lemma no_thumbnail_is_two_zero_bytes_witness :
  extract_moda (J := py_json) Demo.plain_container "/out"
  = (inr (build_meta Demo.tracks "parallel" None),
     {| unread := [];
        written := track_files Demo.fs "/out" Demo.tracks
                   ++ [(os_path_join "/out" "meta.json",
                        json_dumps (build_meta Demo.tracks "parallel" None))] |}).
Proof.
  apply (proj2 (proj2 (proj2 (@no_thumbnail_is_two_zero_bytes py_json Demo.fs (fun _ => true) Demo.tracks
                                "parallel" None "/music/plain.moda" Demo.plain_container
                                eq_refl eq_refl)))).
  reflexivity.
Defined.

Lemma short_magic_unread (data : list byte) :
  f_read 4 {| unread := data; written := [] |}
  = (inr (firstn 4 data), {| unread := skipn 4 data; written := [] |}).
Proof. reflexivity. Qed.

(** C3. Magic.  When the first four bytes of the file are not [MODA],
    [extract_moda] and [load_moda] fail with the bad-magic error after
    reading those four bytes only: whatever follows them is left unread, no
    file is written, and the player is left as it was. *)
Theorem bad_magic_rejected {J : JsonModule} (data : list byte) :
  firstn 4 data <> MODA_MAGIC ->
  (forall dir,
     extract_moda data dir
     = (inl (ErrorExtracting BadMagic), {| unread := skipn 4 data; written := [] |})) /\
  (forall gettempdir mkdtemp self,
     ModaPlayer.load_moda gettempdir mkdtemp data self
     = (inl (ErrorLoading BadMagic), (self, {| unread := skipn 4 data; written := [] |}))).
Proof.
  intros Hm. split.
  - intros dir. unfold extract_moda, try_except, extract_body, read_header.
    unfold bind at 1. unfold bind at 1. rewrite short_magic_unread.
    now rewrite (bytes_eqb_neq Hm).
  - intros gettempdir mkdtemp self.
    unfold ModaPlayer.load_moda, try_except, ModaPlayer.load_body, ModaPlayer.load_metadata.
    unfold bind at 1. unfold bind at 1. unfold ModaPlayer.on_file at 1. simpl snd. simpl fst.
    rewrite short_magic_unread. now rewrite (bytes_eqb_neq Hm).
Qed.

Lemma bad_magic_rejected_witness :
  extract_moda (J := py_json) (list_byte_of_string "RIFF0000WAVE") "/out"
  = (inl (ErrorExtracting BadMagic),
     {| unread := list_byte_of_string "0000WAVE"; written := [] |}).
Proof.
  apply (proj1 (@bad_magic_rejected py_json (list_byte_of_string "RIFF0000WAVE")
                  ltac:(discriminate))).
Defined.

End CodecClaims.

(** ** Reading a file that ends too early *)

Section ShortReads.

Lemma f_read_short (n : nat) (l : list byte) (w : list (string * list byte)) :
  length l <= n -> f_read (N.of_nat n) (at_ l w) = (inr l, at_ [] w).
Proof.
  intros H. unfold f_read, at_. simpl. rewrite Nat2N.id.
  now rewrite firstn_all2, skipn_all2 by assumption.
Qed.

Lemma read_H_short (l : list byte) (w : list (string * list byte)) :
  length l < 2 -> read_H (at_ l w) = (inl TruncatedInput, at_ [] w).
Proof.
  intros H. unfold read_H.
  erewrite run_bind by (apply (@f_read_short 2); lia).
  unfold lift. rewrite unpack_H_short by lia. reflexivity.
Qed.

Lemma read_I_short (l : list byte) (w : list (string * list byte)) :
  length l < 4 -> read_I (at_ l w) = (inl TruncatedInput, at_ [] w).
Proof.
  intros H. unfold read_I.
  erewrite run_bind by (apply (@f_read_short 4); lia).
  unfold lift. rewrite unpack_I_short by lia. reflexivity.
Qed.

Lemma read_str_short (n : nat) (l : list byte) (w : list (string * list byte)) :
  length l <= n ->
  read_str (N.of_nat n) (at_ l w) = (inl UnicodeDecodeError, at_ [] w) \/
  exists s, read_str (N.of_nat n) (at_ l w) = (inr s, at_ [] w).
Proof.
  intros H. unfold read_str.
  erewrite run_bind by (apply f_read_short; assumption).
  unfold lift, decode_utf8. destruct (utf8_valid l); eauto.
Qed.

Lemma firstn_app_le (A : Type) (k : nat) (a b : list A) :
  k <= length a -> firstn k (a ++ b) = firstn k a.
Proof.
  intros H. rewrite firstn_app.
  replace (k - length a) with 0 by lia. now rewrite firstn_0, app_nil_r.
Qed.

Lemma firstn_app_ge (A : Type) (k : nat) (a b : list A) :
  length a <= k -> firstn k (a ++ b) = a ++ firstn (k - length a) b.
Proof. intros H. rewrite firstn_app. now rewrite firstn_all2 by assumption. Qed.

End ShortReads.

Section CutContainers.
Context {J : JsonModule}.

Import ModaCompiler ModaDecompiler.

Ltac cut_fail :=
  do 2 eexists; split; [reflexivity | (left; reflexivity) || (right; reflexivity)].

(** A track record is a header (name length, name, data length) followed by
    the data. *)
Lemma track_record_split (fs : filesystem) (t : string) (r : list byte) :
  track_record fs t = inr r ->
  exists nl name dl,
    struct_pack_H (len name) = inr nl /\
    encode_utf8 (basename t) = inr name /\
    struct_pack_I (len (content fs t)) = inr dl /\
    names_directory t = false /\
    r = (nl ++ name ++ dl) ++ content fs t.
Proof.
  unfold track_record. intros H. do 4 step_sum H. inversion H; subst r; clear H.
  apply open_rb_inv in E. destruct E as [Hd Hfs].
  assert (Hc : content fs t = l) by (unfold content; now rewrite Hfs).
  rewrite Hc. exists l1, l0, l2. rewrite <- !app_assoc. auto.
Qed.

Section OneRecord.

Variables (fs : filesystem) (t dir : string) (nl name dl : list byte).
Hypothesis Hnl : struct_pack_H (len name) = inr nl.
Hypothesis Hname : encode_utf8 (basename t) = inr name.
Hypothesis Hdl : struct_pack_I (len (content fs t)) = inr dl.
Hypothesis Hdir : names_directory t = false.

(** Cut inside the data: the record is read, with the data that is there. *)
Lemma read_track_cut_data (j : nat) (w : list (string * list byte)) :
  read_track dir (at_ ((nl ++ name ++ dl) ++ firstn j (content fs t)) w)
  = (inr tt, at_ [] (w ++ [(os_path_join dir (basename t), firstn j (content fs t))])).
Proof.
  unfold read_track. rewrite <- !app_assoc.
  erewrite run_bind by (apply read_H_app; eassumption).
  erewrite run_bind by (apply read_str_app; eassumption).
  erewrite run_bind by (apply read_I_app; eassumption).
  erewrite run_bind by (apply f_read_short; rewrite length_firstn; lia).
  apply open_wb_ok. now rewrite names_directory_join.
Qed.

(** Cut inside the header: the record is refused. *)
Lemma read_track_cut_header (k : nat) (w : list (string * list byte)) :
  k < length (nl ++ name ++ dl) ->
  fails_cut_short (read_track dir (at_ (firstn k (nl ++ name ++ dl)) w)).
Proof.
  intros Hk. rewrite !length_app in Hk.
  rewrite (pack_H_length _ Hnl), (pack_I_length _ Hdl) in Hk.
  unfold read_track.
  destruct (le_lt_dec 2 k) as [H2|H2].
  - rewrite firstn_app_ge by (rewrite (pack_H_length _ Hnl); assumption).
    rewrite (pack_H_length _ Hnl).
    erewrite run_bind by (apply read_H_app; eassumption).
    destruct (le_lt_dec (length name) (k - 2)) as [Hn|Hn].
    + rewrite firstn_app_ge by assumption.
      erewrite run_bind by (apply read_str_app; eassumption).
      erewrite run_bind_raise; [cut_fail|].
      apply read_I_short. rewrite length_firstn. lia.
    + rewrite firstn_app_le by lia.
      destruct (@read_str_short (length name) (firstn (k - 2) name) w) as [E | [s E]];
        [rewrite length_firstn; lia | |].
      * erewrite run_bind_raise by exact E. cut_fail.
      * erewrite run_bind by exact E.
        erewrite run_bind_raise; [cut_fail|].
        apply read_I_short. simpl. lia.
  - erewrite run_bind_raise; [cut_fail|].
    apply read_H_short. rewrite length_firstn. lia.
Qed.

End OneRecord.

Lemma bind_fails (A B : Type) (m : M io A) (k : A -> M io B) (s : io) :
  fails_cut_short (m s) -> fails_cut_short (bind m k s).
Proof.
  intros (e & s' & E & He). exists e, s'. split; [|assumption].
  now apply run_bind_raise.
Qed.

Lemma for_range_add (S : Type) (n m : nat) (body : M S unit) (s : S) :
  for_range (n + m) body s = bind (for_range n body) (fun _ => for_range m body) s.
Proof.
  revert s. induction n as [|n IH]; intros s; simpl; [reflexivity|].
  unfold bind in *. destruct (body s) as [[e|[]] s']; [reflexivity | apply IH].
Qed.

Lemma track_records_app (fs : filesystem) (ts : list string) (t : string) (rs : list byte) :
  track_records fs (ts ++ [t]) = inr rs ->
  exists a r, track_records fs ts = inr a /\ track_record fs t = inr r /\ rs = a ++ r.
Proof.
  revert rs. induction ts as [|t0 ts IH]; simpl; intros rs H.
  - step_sum H. inversion H. exists [], l. rewrite app_nil_r. auto.
  - do 2 step_sum H. inversion H; subst rs; clear H.
    destruct (IH _ eq_refl) as (a & r & Ha & Hr & ->).
    exists (l ++ a), r. rewrite Ha. simpl. now rewrite app_assoc.
Qed.

Section LastRecord.

Variables (fs : filesystem) (t dir : string) (nl name dl : list byte).
Hypothesis Hnl : struct_pack_H (len name) = inr nl.
Hypothesis Hname : encode_utf8 (basename t) = inr name.
Hypothesis Hdl : struct_pack_I (len (content fs t)) = inr dl.
Hypothesis Hdir : names_directory t = false.

Let h : list byte := nl ++ name ++ dl.
Let d : list byte := content fs t.

(** The loop over the records, when the file is cut inside the data of the
    last track. *)
Lemma loop_cut_data (ts : list string) (a : list byte) (j : nat)
    (w : list (string * list byte)) :
  track_records fs ts = inr a ->
  for_range (length ts + 1) (read_track dir) (at_ (a ++ h ++ firstn j d) w)
  = (inr tt,
     at_ [] (w ++ track_files fs dir ts ++ [(os_path_join dir (basename t), firstn j d)])).
Proof.
  intros Ha. rewrite for_range_add.
  erewrite run_bind by (apply read_track_records; eassumption).
  simpl for_range. unfold h, d.
  erewrite run_bind by (apply read_track_cut_data; eassumption).
  unfold ret. now rewrite <- app_assoc.
Qed.

Lemma loop_on_nothing (n : nat) (w : list (string * list byte)) :
  fails_cut_short (for_range (n + 1) (read_track dir) (at_ [] w)).
Proof.
  rewrite Nat.add_1_r. simpl. apply bind_fails. unfold read_track. apply bind_fails.
  rewrite read_H_short by (simpl; lia). do 2 eexists. split; [reflexivity | now left].
Qed.

(** The loop over the records, when the file is cut before the data of the
    last track. *)
Lemma loop_cut_header (ts : list string) :
  forall (a : list byte) (k : nat) (w : list (string * list byte)),
  track_records fs ts = inr a ->
  k < length (a ++ h) ->
  fails_cut_short (for_range (length ts + 1) (read_track dir) (at_ (firstn k (a ++ h)) w)).
Proof.
  induction ts as [|t1 ts IH]; intros a k w Ha Hk.
  - simpl in Ha. inversion Ha; subst a. simpl app in *. simpl for_range.
    apply bind_fails. eapply read_track_cut_header with (fs := fs) (t := t); eassumption.
  - simpl in Ha. do 2 step_sum Ha. inversion Ha; subst a; clear Ha.
    destruct (track_record_split _ _ E) as (nl1 & name1 & dl1 & H1 & H2 & H3 & H4 & ->).
    simpl length. simpl for_range. rewrite <- app_assoc.
    set (h1 := nl1 ++ name1 ++ dl1) in *. set (d1 := content fs t1) in *.
    destruct (le_lt_dec (length (h1 ++ d1)) k) as [Hr|Hr].
    + rewrite firstn_app_ge by assumption.
      erewrite run_bind by (apply read_track_record; eassumption).
      apply IH; [reflexivity|]. rewrite <- app_assoc, !length_app in Hk.
      rewrite !length_app in *. lia.
    + rewrite firstn_app_le by lia.
      destruct (le_lt_dec (length h1) k) as [Hh|Hh].
      * rewrite firstn_app_ge by assumption.
        erewrite run_bind by (apply read_track_cut_data; eassumption).
        apply loop_on_nothing.
      * rewrite firstn_app_le by lia.
        apply bind_fails.
        eapply read_track_cut_header with (fs := fs) (t := t1); eassumption.
Qed.

End LastRecord.

(** The thumbnail block of a file that ends inside it: either it is refused,
    or the cut fell inside the thumbnail's data and the block is read with
    nothing left after it. *)
Lemma read_thumbnail_cut (fs : filesystem) (thumb : option string) (dir : string)
    (sec : list byte) (k : nat) (w : list (string * list byte)) :
  thumbnail_section fs thumb = inr sec ->
  k < length sec ->
  fails_cut_short (read_thumbnail dir (at_ (firstn k sec) w)) \/
  exists w', read_thumbnail dir (at_ (firstn k sec) w) = (inr tt, at_ [] w').
Proof.
  unfold thumbnail_section. destruct (truthy_path thumb) as [p|]; intros H Hk.
  - do 4 step_sum H. inversion H; subst sec; clear H.
    apply open_rb_inv in E. destruct E as [Hd Hfs].
    rewrite !length_app, (pack_H_length _ E1), (pack_I_length _ E2) in Hk.
    unfold read_thumbnail.
    destruct (le_lt_dec 2 k) as [H2|H2].
    + rewrite firstn_app_ge by (rewrite (pack_H_length _ E1); assumption).
      rewrite (pack_H_length _ E1).
      erewrite run_bind by (apply read_H_app; eassumption).
      rewrite (named_file_has_name _ Hd E0).
      destruct (le_lt_dec (length l0) (k - 2)) as [Hn|Hn].
      * rewrite firstn_app_ge by assumption.
        erewrite run_bind by (apply read_str_app; eassumption).
        destruct (le_lt_dec 4 (k - 2 - length l0)) as [H4|H4].
        -- rewrite firstn_app_ge by (rewrite (pack_I_length _ E2); assumption).
           erewrite run_bind by (apply read_I_app; eassumption).
           erewrite run_bind by (apply f_read_short; rewrite length_firstn; lia).
           right. eexists. apply open_wb_ok. now rewrite names_directory_join.
        -- left. erewrite run_bind_raise; [cut_fail|].
           apply read_I_short. rewrite length_firstn. lia.
      * left. rewrite firstn_app_le by lia.
        destruct (@read_str_short (length l0) (firstn (k - 2) l0) w) as [Es | [s Es]];
          [rewrite length_firstn; lia | |].
        -- erewrite run_bind_raise by exact Es. cut_fail.
        -- erewrite run_bind by exact Es.
           erewrite run_bind_raise; [cut_fail|].
           apply read_I_short. simpl. lia.
    + left. erewrite run_bind_raise; [cut_fail|].
      apply read_H_short. rewrite length_firstn. lia.
  - left. apply pack_H_length in H. unfold read_thumbnail.
    erewrite run_bind_raise; [cut_fail|].
    apply read_H_short. rewrite length_firstn. lia.
Qed.

Lemma read_tracks_on_nothing (dir : string) (w : list (string * list byte)) :
  fails_cut_short (read_tracks dir (at_ [] w)).
Proof.
  unfold read_tracks. erewrite run_bind_raise; [cut_fail|].
  apply read_H_short. simpl. lia.
Qed.

Lemma extract_moda_reraise (data : list byte) (dir : string) :
  extract_moda data dir = reraise (extract_body dir (at_ data [])).
Proof. reflexivity. Qed.

Lemma reraise_fails (A : Type) (r : (exn + A) * io) :
  fails_cut_short r -> exists e s, reraise r = (inl (ErrorExtracting e), s) /\ cut_short e.
Proof. intros (e & s & -> & He). exists e, s. auto. Qed.

Lemma extract_moda_bad_magic (data : list byte) (dir : string) :
  firstn 4 data <> MODA_MAGIC ->
  extract_moda data dir
  = (inl (ErrorExtracting BadMagic), {| unread := skipn 4 data; written := [] |}).
Proof.
  intros Hm. unfold extract_moda, try_except, extract_body, read_header.
  unfold bind at 1. unfold bind at 1.
  change (f_read 4 {| unread := data; written := [] |})
    with (inr (A := exn) (firstn 4 data), {| unread := skipn 4 data; written := [] |}).
  cbv iota beta. now rewrite (bytes_eqb_neq Hm).
Qed.

Lemma last_track_snoc (ts : list string) (t : string) : last_track (ts ++ [t]) = Some t.
Proof. unfold last_track. now rewrite rev_app_distr. Qed.

(** The track block, cut anywhere: reading succeeds exactly when the cut
    falls inside the data of the last track. *)
Lemma read_tracks_cut (fs : filesystem) (dir : string) (tracks : list string)
    (count records : list byte) :
  struct_pack_H (len tracks) = inr count ->
  track_records fs tracks = inr records ->
  exists rh,
    records = rh ++ last_data fs tracks /\
    (forall j w,
       read_tracks dir (at_ (count ++ rh ++ firstn j (last_data fs tracks)) w)
       = (inr tt, at_ [] (w ++ cut_files fs dir tracks j))) /\
    (forall k w, k < length (count ++ rh) ->
       fails_cut_short (read_tracks dir (at_ (firstn k (count ++ rh)) w))).
Proof.
  intros Hc Hr. pose proof (pack_H_length _ Hc) as Hlc.
  destruct tracks as [|t0 ts0].
  - simpl in Hr. inversion Hr; subst records. exists []. split; [reflexivity|]. split.
    + intros j w. unfold last_data, cut_files. simpl. rewrite firstn_nil, !app_nil_r.
      rewrite <- (app_nil_r count). unfold read_tracks.
      erewrite run_bind by (apply read_H_app; eassumption). reflexivity.
    + intros k w Hk. rewrite app_nil_r in *. unfold read_tracks.
      erewrite run_bind_raise; [cut_fail|].
      apply read_H_short. rewrite length_firstn. lia.
  - destruct (@exists_last _ (t0 :: ts0)) as (ts & t & Heq); [discriminate|].
    rewrite Heq in *. clear Heq t0 ts0.
    destruct (track_records_app _ _ _ Hr) as (a & r & Ha & Hrec & ->).
    destruct (track_record_split _ _ Hrec) as (nl & name & dl & H1 & H2 & H3 & H4 & ->).
    unfold last_data, cut_files. rewrite last_track_snoc, removelast_last.
    exists (a ++ nl ++ name ++ dl). split; [now rewrite <- !app_assoc|]. split.
    + intros j w. unfold read_tracks.
      erewrite run_bind by (apply read_H_app; eassumption).
      unfold len. rewrite Nat2N.id, length_app. simpl length.
      rewrite <- app_assoc. eapply loop_cut_data; eassumption.
    + intros k w Hk. unfold read_tracks.
      destruct (le_lt_dec 2 k) as [H2k|H2k].
      * rewrite firstn_app_ge by lia. rewrite Hlc.
        erewrite run_bind by (apply read_H_app; eassumption).
        unfold len. rewrite Nat2N.id, length_app. simpl length.
        eapply loop_cut_header; try eassumption.
        rewrite length_app in Hk. lia.
      * erewrite run_bind_raise; [cut_fail|].
        apply read_H_short. rewrite length_firstn. lia.
Qed.

Lemma extract_after_header (meta_json json_len rest : list byte) (meta : json)
    (dir : string) :
  struct_pack_I (len meta_json) = inr json_len ->
  json_loads meta_json = inr meta ->
  extract_moda (MODA_MAGIC ++ json_len ++ meta_json ++ rest) dir
  = reraise
      (bind (read_thumbnail dir)
         (fun _ => bind (read_tracks dir)
            (fun _ => bind (open_wb (os_path_join dir "meta.json") (json_dumps meta))
               (fun _ => ret meta)))
         (at_ rest [])).
Proof.
  intros Hl Hj. rewrite extract_moda_reraise. unfold extract_body.
  erewrite run_bind; [reflexivity|].
  rewrite read_header_written by eassumption. now rewrite Hj.
Qed.

Lemma read_header_cut (meta_json json_len : list byte) (k : nat) :
  struct_pack_I (len meta_json) = inr json_len ->
  read_header (at_ (MODA_MAGIC ++ json_len ++ firstn k meta_json) [])
  = (json_loads (firstn k meta_json), at_ [] []).
Proof.
  intros Hl. unfold read_header.
  erewrite run_bind by (apply (@f_read_exact 4); reflexivity).
  rewrite bytes_eqb_refl. cbn [negb].
  erewrite run_bind by (apply read_I_app; eassumption).
  erewrite run_bind by (apply f_read_short; rewrite length_firstn; lia).
  reflexivity.
Qed.

(** A file that stops inside the metadata: [json.loads] gets the text that
    is there; should it accept that text, the thumbnail block is missing. *)
Lemma extract_cut_in_metadata (meta_json json_len : list byte) (k : nat) (dir : string) :
  struct_pack_I (len meta_json) = inr json_len ->
  exists e s,
    extract_moda (MODA_MAGIC ++ json_len ++ firstn k meta_json) dir
    = (inl (ErrorExtracting e), s) /\
    (json_loads (firstn k meta_json) = inl e \/ e = TruncatedInput).
Proof.
  intros Hl. rewrite extract_moda_reraise. unfold extract_body.
  destruct (json_loads (firstn k meta_json)) as [e|meta] eqn:Ej.
  - erewrite run_bind_raise by (rewrite read_header_cut by eassumption; rewrite Ej; reflexivity).
    simpl. eauto.
  - erewrite run_bind by (rewrite read_header_cut by eassumption; rewrite Ej; reflexivity).
    unfold read_thumbnail at 1.
    erewrite run_bind_raise; cycle 1.
    { erewrite run_bind_raise; [reflexivity|]. apply read_H_short. simpl. lia. }
    simpl. eauto.
Qed.

Lemma extract_cut_in_length (json_len : list byte) (k : nat) (dir : string) :
  length json_len = 4 -> k < 4 ->
  exists s,
    extract_moda (MODA_MAGIC ++ firstn k json_len) dir
    = (inl (ErrorExtracting TruncatedInput), s).
Proof.
  intros Hl Hk. rewrite extract_moda_reraise. unfold extract_body, read_header.
  erewrite run_bind_raise; cycle 1.
  { erewrite run_bind by (apply (@f_read_exact 4); reflexivity).
    rewrite bytes_eqb_refl. cbn [negb].
    erewrite run_bind_raise; [reflexivity|].
    apply read_I_short. rewrite length_firstn. lia. }
  simpl. eauto.
Qed.

Lemma extract_cut_in_magic (data : list byte) (k : nat) (dir : string) :
  k < 4 ->
  exists s, extract_moda (firstn k data) dir = (inl (ErrorExtracting BadMagic), s).
Proof.
  intros Hk. rewrite extract_moda_bad_magic; [eauto|].
  intros E. apply (f_equal (@length byte)) in E.
  rewrite !length_firstn in E. change (length MODA_MAGIC) with 4 in E. lia.
Qed.

End CutContainers.

Section TruncationClaim.

Import ModaCompiler ModaDecompiler.

(** C2, as the code has it.  A length or count field is read with a read of
    its width, and [extract_moda] fails with the truncation error when fewer
    bytes than that are left; a payload read returns the bytes that are left
    when its declared length asks for more, and never more than are there.
    So for a container [build_moda_file] wrote, split as [head ++ tail] with
    [tail] the data of its last track: a file that stops inside [tail] is
    unpacked, the last track holding the bytes that are there; a file that
    stops inside [head] is refused, with the bad-magic error when it has
    fewer than 4 bytes, the truncation error when it stops inside the
    metadata length, the error of [json.loads] on the cut text (or the
    truncation error, if it accepts that text) when it stops inside the
    metadata, and the truncation error or, with a name cut inside a
    character, the decoding error when it stops after the metadata. *)
Theorem truncated_container {J : JsonModule} (fs : filesystem) (writable : string -> bool) (tracks : list string)
    (play_mode : string) (thumb : option string) (output_path dir : string)
    (out : list byte) :
  build_moda_file fs writable tracks play_mode thumb output_path = inr out ->
  json_loads (json_dumps (build_meta tracks play_mode thumb))
  = inr (build_meta tracks play_mode thumb) ->
  let meta := build_meta tracks play_mode thumb in
  let js := json_dumps meta in
  let tail := last_data fs tracks in
  ((forall s, length (unread s) < 2 -> fst (read_H s) = inl TruncatedInput) /\
   (forall s, length (unread s) < 4 -> fst (read_I s) = inl TruncatedInput) /\
   (forall n s, f_read n s
                = (inr (firstn (N.to_nat n) (unread s)),
                   {| unread := skipn (N.to_nat n) (unread s); written := written s |}))) /\
  exists head,
    out = head ++ tail /\
    8 + length js < length head /\
    (forall j,
       extract_moda (head ++ firstn j tail) dir
       = (inr meta,
          {| unread := [];
             written := thumbnail_file fs dir thumb ++ cut_files fs dir tracks j
                        ++ [(os_path_join dir "meta.json", js)] |})) /\
    (forall k, k < length head ->
       exists e s,
         extract_moda (firstn k out) dir = (inl (ErrorExtracting e), s) /\
         if k <? 4 then e = BadMagic
         else if k <? 8 then e = TruncatedInput
         else if k <? 8 + length js
              then json_loads (firstn (k - 8) js) = inl e \/ e = TruncatedInput
         else e = TruncatedInput \/ e = UnicodeDecodeError).
Proof.
  intros Hb Hj meta js tail. split.
  { repeat split.
    - intros [l w] H. simpl in H. change {| unread := l; written := w |} with (at_ l w).
      now rewrite read_H_short.
    - intros [l w] H. simpl in H. change {| unread := l; written := w |} with (at_ l w).
      now rewrite read_I_short. }
  destruct (build_moda_file_layout _ _ _ _ _ _ Hb)
    as (json_len & sec & count & records & Hl & Hs & Hc & Hr & ->).
  fold meta in Hl, Hj |- *. fold js in Hl, Hj |- *.
  destruct (read_tracks_cut fs dir tracks Hc Hr) as (rh & -> & Hdata & Hhead).
  fold tail in Hdata |- *.
  pose proof (pack_I_length _ Hl) as Hll. pose proof (pack_H_length _ Hc) as Hlc.
  exists (MODA_MAGIC ++ json_len ++ js ++ sec ++ count ++ rh).
  split; [now rewrite <- !app_assoc|].
  split; [rewrite !length_app, Hll, Hlc; simpl; lia|].
  split.
  - intros j. rewrite <- !app_assoc.
    erewrite extract_after_header by eassumption.
    erewrite run_bind by (apply read_thumbnail_section; eassumption).
    erewrite run_bind by apply Hdata.
    erewrite run_bind by (apply open_wb_ok, names_directory_meta).
    unfold ret, reraise. simpl. now rewrite <- app_assoc.
  - intros k Hk. rewrite !length_app, Hll in Hk. change (length MODA_MAGIC) with 4 in Hk.
    destruct (Nat.ltb_spec k 4) as [H4|H4].
    { destruct (extract_cut_in_magic
                  (MODA_MAGIC ++ json_len ++ js ++ sec ++ count ++ rh ++ tail) dir H4)
        as [s E].
      eauto. }
    rewrite firstn_app_ge by assumption. change (length MODA_MAGIC) with 4.
    destruct (Nat.ltb_spec k 8) as [H8|H8].
    { rewrite firstn_app_le by lia.
      destruct (@extract_cut_in_length J json_len (k - 4) dir Hll) as [s E]; [lia|].
      eauto. }
    rewrite firstn_app_ge by lia. rewrite Hll.
    destruct (Nat.ltb_spec k (8 + length js)) as [Hm|Hm].
    { rewrite firstn_app_le by lia.
      replace (k - 4 - 4) with (k - 8) by lia.
      destruct (extract_cut_in_metadata js (k - 8) dir Hl) as (e & s & E & He).
      eauto. }
    rewrite firstn_app_ge by lia.
    erewrite extract_after_header by eassumption.
    apply reraise_fails.
    set (k' := k - 4 - 4 - length js).
    assert (Hk' : k' < length sec + length (count ++ rh)).
    { unfold k'. rewrite length_app. lia. }
    rewrite (app_assoc count rh tail), (app_assoc sec (count ++ rh) tail).
    rewrite firstn_app_le by (rewrite length_app; lia).
    destruct (le_lt_dec (length sec) k') as [Hsec|Hsec].
    + rewrite firstn_app_ge by assumption.
      erewrite run_bind by (apply read_thumbnail_section; eassumption).
      apply bind_fails. apply Hhead. lia.
    + rewrite firstn_app_le by lia.
      destruct (read_thumbnail_cut fs thumb dir [] Hs Hsec) as [Hf | [w' Hw]].
      * now apply bind_fails.
      * erewrite run_bind by exact Hw. apply bind_fails, read_tracks_on_nothing.
Qed.

Lemma truncated_container_witness :
  exists head,
    Demo.container = head ++ last_data Demo.fs Demo.tracks /\
    forall j,
      extract_moda (J := py_json) (head ++ firstn j (last_data Demo.fs Demo.tracks)) "/out"
      = (inr (build_meta Demo.tracks "sequential" (Some "/art/cover.png"%string)),
         {| unread := [];
            written := thumbnail_file Demo.fs "/out" (Some "/art/cover.png"%string)
                       ++ cut_files Demo.fs "/out" Demo.tracks j
                       ++ [(os_path_join "/out" "meta.json",
                            json_dumps (build_meta Demo.tracks "sequential"
                                          (Some "/art/cover.png"%string)))] |}).
Proof.
  destruct (@truncated_container py_json Demo.fs (fun _ => true) Demo.tracks "sequential"
              (Some "/art/cover.png"%string) "/music/album.moda" "/out" Demo.container
              eq_refl eq_refl)
    as (_ & head & Hout & _ & Hcut & _).
  exists head. split; [exact Hout | exact Hcut].
Defined.

(** The container of [Demo] without its last byte is a strict prefix of a
    valid container, and the length declared for its last track (6) reads
    past its end; [extract_moda] unpacks it all the same, writing 5 bytes
    for that track. *)
Lemma truncated_container_accepted :
  build_moda_file (J := py_json) Demo.fs (fun _ => true) Demo.tracks "sequential"
    (Some "/art/cover.png"%string) "/music/album.moda" = inr Demo.container /\
  removelast Demo.container = firstn (length Demo.container - 1) Demo.container /\
  length (removelast Demo.container) < length Demo.container /\
  extract_moda (J := py_json) (removelast Demo.container) "/out"
  = (inr (build_meta Demo.tracks "sequential" (Some "/art/cover.png"%string)),
     {| unread := [];
        written :=
          [("/out/cover.png"%string, list_byte_of_string "PNG!");
           ("/out/intro.wav"%string, list_byte_of_string "RIFFwave");
           ("/out/theme.ogg"%string, list_byte_of_string "OggS0");
           ("/out/meta.json"%string,
            json_dumps (build_meta Demo.tracks "sequential"
                          (Some "/art/cover.png"%string)))] |}) /\
  fst (extract_moda (J := py_json) (removelast Demo.container) "/out")
  <> inl (ErrorExtracting TruncatedInput).
Proof.
  split; [reflexivity|]. split; [reflexivity|]. split; [vm_compute; lia|].
  split; [vm_compute; reflexivity | vm_compute; discriminate].
Qed.

End TruncationClaim.

(** * The player against its specification *)

Section MixerFacts.

Import ModaPlayer.


Lemma mixer_stop_busy (c : list (option Sound)) : busy (mixer_stop c) = 0.
Proof. unfold busy, mixer_stop. induction c as [|x c IH]; simpl; auto. Qed.

Lemma mixer_stop_twice (c : list (option Sound)) : mixer_stop (mixer_stop c) = mixer_stop c.
Proof. unfold mixer_stop. rewrite map_map. reflexivity. Qed.





Lemma channel_play_length (i : nat) (s : Sound) (c : list (option Sound)) :
  length (channel_play i s c) = length c.
Proof. revert i. induction c as [|x c IH]; intros [|i]; simpl; auto. Qed.

(** A sound played on a channel takes the place of what was playing there:
    no channel falls silent, and at most one more is busy. *)
Lemma channel_play_busy (i : nat) (s : Sound) (c : list (option Sound)) :
  busy c <= busy (channel_play i s c) <= S (busy c).
Proof.
  unfold busy. revert i. induction c as [|[x|] c IH]; intros [|i]; simpl;
    try specialize (IH i); lia.
Qed.



(** ** The threads at the mixer *)

(** One call of one thread: the mixer keeps its channels, none of them
    falls silent, and a channel comes into use only as a thread ends. *)
Lemma thread_runs_in_bound (pool : list thread) :
  forall (c : list (option Sound)) (k : nat),
    let r := thread_runs_in k pool c in
    length (snd r) = length c /\
    busy c <= busy (snd r) /\
    busy (snd r) + length (fst r) <= busy c + length pool.
Proof.
  induction pool as [|t pool IH]; intros c k; cbn zeta.
  - cbn [thread_runs_in fst snd length]. lia.
  - destruct k as [|k]; cbn [thread_runs_in].
    + destruct t as [s|s i]; cbn [_play_sound].
      * destruct (find_channel c); cbn [fst snd length]; lia.
      * pose proof (channel_play_busy i s c). pose proof (channel_play_length i s c).
        cbn [fst snd length]. lia.
    + specialize (IH c k). cbn zeta in IH.
      destruct (thread_runs_in k pool c) as [pool' c'].
      cbn [fst snd length] in IH |- *. lia.
Qed.



(** However the threads are scheduled, they touch the channels only: the
    mixer keeps as many, none falls silent, and no more come into use than
    threads have ended. *)
Lemma threads_run_bound (schedule : list nat) :
  forall p,
    let q := threads_run schedule p in
    (temp_dir q, current_track q, is_playing q, tracks_meta q, play_mode q,
     thumbnail_path q, audio_threads q, sound_objects q)
    = (temp_dir p, current_track p, is_playing p, tracks_meta p, play_mode p,
       thumbnail_path p, audio_threads p, sound_objects p) /\
    length (channels q) = length (channels p) /\
    busy (channels p) <= busy (channels q) /\
    busy (channels q) + length (threads q) <= busy (channels p) + length (threads p).
Proof.
  induction schedule as [|k schedule IH]; intros p.
  - simpl. repeat split; lia.
  - cbn [threads_run fold_left]. fold (threads_run schedule (thread_runs k p)).
    specialize (IH (thread_runs k p)). cbn zeta in IH.
    destruct IH as (Hf & Hl & Hm & Hb). rewrite Hf, Hl.
    pose proof (thread_runs_in_bound (threads p) (channels p) k) as H.
    unfold thread_runs in *.
    destruct (thread_runs_in k (threads p) (channels p)) as [pool c].
    cbn in H, Hm, Hb |- *. repeat split; lia.
Qed.



End MixerFacts.

Section EngineFacts.

Import ModaPlayer.

Variable Sound_loads : string -> bool.

Lemma named_entry (entries : list json) (files : list string) (i : nat) (f : string) :
  Forall2 track_named entries files ->
  nth_error files i = Some f ->
  exists e, nth_error entries i = Some e /\ track_named e f.
Proof.
  intros H. revert i. induction H as [|e f0 entries files He H IH]; intros [|i]; simpl;
    try discriminate.
  - intros E. inversion E; subst. eauto.
  - apply IH.
Qed.

Lemma named_length (entries : list json) (files : list string) :
  Forall2 track_named entries files -> length entries = length files.
Proof. induction 1; simpl; auto. Qed.

(** One call of [play_sequential] on well-formed metadata. *)
Lemma play_sequential_rec_step (fuel : nat) (p : player) (dir : string)
    (files : list string) :
  lists_files p dir files ->
  play_sequential_rec Sound_loads (S fuel) p =
  match nth_error files (current_track p) with
  | None => (inr tt, p)
  | Some f =>
      if Sound_loads (os_path_join dir f) then
        match find_channel (channels p) with
        | Some i =>
            (inr tt,
             set_is_playing true
               (set_channels (channel_play i (sound_of dir f) (channels p))
                  (set_sound_objects [sound_of dir f] p)))
        | None => (inr tt, set_sound_objects [sound_of dir f] p)
        end
      else play_sequential_rec Sound_loads fuel (set_current_track (current_track p + 1) p)
  end.
Proof.
  intros (Hd & entries & Ht & Hn).
  cbn [play_sequential_rec]. unfold bind at 1. unfold gets at 1.
  unfold bind at 1. unfold gets at 1. rewrite Ht.
  unfold bind at 1. unfold lift at 1. cbn [py_len py_iter].
  rewrite (named_length Hn).
  destruct (nth_error files (current_track p)) as [f|] eqn:Ef.
  - assert (Hlt : current_track p < length files) by (apply nth_error_Some; congruence).
    apply Nat.ltb_lt in Hlt. rewrite Hlt.
    destruct (named_entry _ Hn Ef) as (e & Ee & He).
    unfold bind at 1. unfold lift at 1. cbn [py_index]. rewrite Ee.
    unfold bind at 1. unfold lift at 1. rewrite He.
    unfold bind at 1. unfold gets at 1. rewrite Hd.
    unfold bind at 1. unfold lift at 1. cbn [py_path_join].
    unfold try_except, mixer_Sound.
    destruct (Sound_loads (os_path_join dir f)) eqn:El.
    + unfold bind at 1. unfold ret at 1.
      unfold bind at 1. unfold modify at 1.
      unfold bind at 1. unfold gets at 1. cbn [channels set_sound_objects].
      destruct (find_channel (channels p)); reflexivity.
    + unfold bind at 1. unfold raise at 1. reflexivity.
  - apply nth_error_None in Ef. apply Nat.ltb_ge in Ef. now rewrite Ef.
Qed.

Lemma lists_files_cursor (p : player) (dir : string) (files : list string) (n : nat) :
  lists_files p dir files -> lists_files (set_current_track n p) dir files.
Proof. intros H. exact H. Qed.

(** Tracks that do not load are passed over, one call each. *)
Lemma play_sequential_rec_skip (j : nat) :
  forall (fuel : nat) (p : player) (dir : string) (files : list string),
  lists_files p dir files ->
  current_track p + j <= length files ->
  (forall i f, current_track p <= i < current_track p + j ->
     nth_error files i = Some f -> Sound_loads (os_path_join dir f) = false) ->
  play_sequential_rec Sound_loads (j + fuel) p
  = play_sequential_rec Sound_loads fuel (set_current_track (current_track p + j) p).
Proof.
  induction j as [|j IH]; intros fuel p dir files Hl Hle Hfail.
  - simpl. rewrite Nat.add_0_r. now destruct p.
  - cbn [Nat.add]. rewrite (play_sequential_rec_step _ Hl).
    destruct (nth_error files (current_track p)) as [f|] eqn:Ef;
      [|apply nth_error_None in Ef; lia].
    rewrite (Hfail (current_track p) f) by (try assumption; lia).
    rewrite (IH fuel _ dir files); cbn [current_track set_current_track].
    + f_equal. unfold set_current_track. cbn. f_equal. lia.
    + exact Hl.
    + lia.
    + intros i g Hi. apply Hfail. lia.
Qed.

Lemma py_len_raises (v : json) (e : exn) : py_len v = inl e -> e = TypeError.
Proof. destruct v; cbn; intros H; inversion H; reflexivity. Qed.

Lemma py_index_raises (v : json) (i : nat) (e : exn) :
  py_index v i = inl e -> e <> RecursionError.
Proof.
  destruct v; cbn; try (intros H; inversion H; discriminate).
  - destruct (nth_error (utf8_chars s) i); intros H; inversion H; discriminate.
  - destruct (nth_error items i); intros H; inversion H; discriminate.
Qed.

Lemma py_item_raises (v : json) (key : string) (e : exn) :
  py_item v key = inl e -> e <> RecursionError.
Proof.
  destruct v; cbn; try (intros H; inversion H; discriminate).
  destruct (dict_lookup members key); intros H; inversion H; discriminate.
Qed.

Lemma py_path_join_raises (d : option string) (v : json) (e : exn) :
  py_path_join d v = inl e -> e = TypeError.
Proof. destruct d, v; cbn; intros H; inversion H; reflexivity. Qed.

(** [RecursionError] is raised only when the tracks left from the cursor
    on are too many for the calls that fit, whatever the metadata holds. *)
Lemma play_sequential_rec_fuel (fuel : nat) :
  forall p,
    match py_len (tracks_meta p) with
    | inr n => n - current_track p < fuel
    | inl _ => 0 < fuel
    end ->
    fst (play_sequential_rec Sound_loads fuel p) <> inl RecursionError.
Proof.
  induction fuel as [|fuel IH]; intros p H.
  - destruct (py_len (tracks_meta p)); lia.
  - cbn [play_sequential_rec]. unfold bind, gets, lift, try_except, mixer_Sound, ret, raise, modify.
    destruct (py_len (tracks_meta p)) as [e|n] eqn:E.
    { apply py_len_raises in E. subst e. cbn. discriminate. }
    destruct (current_track p <? n) eqn:Hlt; [|cbn; discriminate].
    apply Nat.ltb_lt in Hlt.
    destruct (py_index (tracks_meta p) (current_track p)) as [e|track] eqn:Ei.
    { apply py_index_raises in Ei. cbn. congruence. }
    destruct (py_item track "file") as [e|file] eqn:Ef.
    { apply py_item_raises in Ef. cbn. congruence. }
    destruct (py_path_join (temp_dir p) file) as [e|track_path] eqn:Ej.
    { apply py_path_join_raises in Ej. subst e. cbn. discriminate. }
    destruct (Sound_loads track_path).
    + cbn [channels set_sound_objects].
      destruct (find_channel (channels p)); cbn; discriminate.
    + apply IH. cbn [tracks_meta current_track set_current_track]. rewrite E. lia.
Qed.

(** When no track from the cursor on loads and there is room for a call
    for each of them and one more, the calls run off the end of the list:
    the cursor stops there and nothing else changes. *)
Lemma play_sequential_exhausted (frames : nat) (p : player) (dir : string)
    (files : list string) :
  lists_files p dir files ->
  current_track p <= length files ->
  (forall i f, current_track p <= i -> nth_error files i = Some f ->
     Sound_loads (os_path_join dir f) = false) ->
  length files - current_track p < frames ->
  play_sequential Sound_loads frames p = (inr tt, set_current_track (length files) p).
Proof.
  intros Hl Hle Hfail Hroom. unfold play_sequential.
  replace frames
    with ((length files - current_track p)
          + S (frames - S (length files - current_track p))) by lia.
  rewrite play_sequential_rec_skip
    with (j := length files - current_track p) (dir := dir) (files := files);
    [|assumption|lia|intros i f Hi; apply Hfail; lia].
  rewrite play_sequential_rec_step with (dir := dir) (files := files) by assumption.
  cbn [current_track set_current_track].
  replace (current_track p + (length files - current_track p)) with (length files) by lia.
  destruct (nth_error files (length files)) eqn:E; [|reflexivity].
  assert (length files < length files) by (apply nth_error_Some; congruence). lia.
Qed.

(** When the tracks at the cursor fail to load up to one that loads, and
    there is room for a call for each of them, the cursor stops on that
    one; it is started if a channel is free. *)
Lemma play_sequential_starts (frames : nat) (p : player) (dir : string)
    (files : list string) (j : nat) (f : string) :
  lists_files p dir files ->
  (forall i g, current_track p <= i < current_track p + j ->
     nth_error files i = Some g -> Sound_loads (os_path_join dir g) = false) ->
  nth_error files (current_track p + j) = Some f ->
  Sound_loads (os_path_join dir f) = true ->
  j < frames ->
  play_sequential Sound_loads frames p =
  let q := set_sound_objects [sound_of dir f] (set_current_track (current_track p + j) p) in
  match find_channel (channels p) with
  | Some i =>
      (inr tt, set_is_playing true (set_channels (channel_play i (sound_of dir f) (channels p)) q))
  | None => (inr tt, q)
  end.
Proof.
  intros Hl Hfail Hf Hloads Hroom.
  assert (Hlt : current_track p + j < length files) by (apply nth_error_Some; congruence).
  unfold play_sequential.
  replace frames with (j + S (frames - S j)) by lia.
  rewrite play_sequential_rec_skip with (j := j) (dir := dir) (files := files);
    [|assumption|lia|assumption].
  rewrite play_sequential_rec_step with (dir := dir) (files := files) by assumption.
  cbn [current_track set_current_track]. rewrite Hf, Hloads.
  change (channels (set_current_track (current_track p + j) p)) with (channels p).
  destruct (find_channel (channels p)); reflexivity.
Qed.

(** When more tracks fail in a row than calls fit, the call that does not
    fit raises [RecursionError]; the cursor has been moved once for every
    call that did fit. *)
Lemma play_sequential_overflows (frames : nat) (p : player) (dir : string)
    (files : list string) :
  lists_files p dir files ->
  current_track p + frames <= length files ->
  (forall i g, current_track p <= i < current_track p + frames ->
     nth_error files i = Some g -> Sound_loads (os_path_join dir g) = false) ->
  play_sequential Sound_loads frames p
  = (inl RecursionError, set_current_track (current_track p + frames) p).
Proof.
  intros Hl Hle Hfail. unfold play_sequential.
  replace frames with (frames + 0) at 1 by lia.
  rewrite play_sequential_rec_skip with (j := frames) (dir := dir) (files := files)
    by assumption.
  reflexivity.
Qed.



(** The loop that starts the threads touches nothing but the threads,
    however it ends. *)
Lemma start_threads_frame (Thread_starts : nat -> bool) (sounds : list Sound) :
  forall (i : nat) (p q : player) (r : exn + unit),
    start_threads Thread_starts i sounds p = (r, q) ->
    is_playing q = is_playing p /\ channels q = channels p.
Proof.
  induction sounds as [|s sounds IH]; intros i p q r.
  - intros H. inversion H. auto.
  - cbn [start_threads]. destruct (Thread_starts i); [|intros H; inversion H; auto].
    erewrite run_bind by reflexivity. intros H. apply IH in H. exact H.
Qed.



End EngineFacts.

Section EngineClaims.

Import ModaPlayer.

(** C8. Stop.  From any state, [stop] silences every channel of the mixer,
    drops the sounds, puts the cursor back to 0 and leaves the player not
    playing, touching nothing else and raising nothing; a second [stop]
    changes nothing more. *)
Theorem stop_is_idempotent (p : player) :
  exists p',
    stop p = (inr tt, p') /\
    channels p' = mixer_stop (channels p) /\
    busy (channels p') = 0 /\
    sound_objects p' = [] /\
    current_track p' = 0 /\
    is_playing p' = false /\
    (temp_dir p', tracks_meta p', play_mode p', thumbnail_path p', audio_threads p',
     threads p')
    = (temp_dir p, tracks_meta p, play_mode p, thumbnail_path p, audio_threads p,
       threads p) /\
    stop p' = (inr tt, p') /\
    bind stop (fun _ => stop) p = stop p.
Proof.
  eexists. split; [reflexivity|]. cbn.
  repeat split; try apply mixer_stop_busy.
  - unfold stop, bind, modify. cbn. now rewrite mixer_stop_twice.
  - unfold stop, bind, modify. cbn. now rewrite mixer_stop_twice.
Qed.

(** C6, where the code departs from it.  In the middle of a sequential
    session (second of three tracks playing), [play] does not stop first:
    the channel that was playing keeps playing, the cursor stays on the
    second track, and that track is started once more on another channel.
    With the stop the claim describes, the first track would start alone.
    This is so whenever there is room for the one call of
    [play_sequential]. *)
Theorem play_does_not_stop_a_sequential_session (frames : nat) :
  play DemoPlayer.everything_loads DemoPlayer.every_thread_starts (S frames)
    DemoPlayer.mid_session
  = (inr tt,
     {| temp_dir := Some DemoPlayer.dir; current_track := 1; is_playing := true;
        tracks_meta := DemoPlayer.three; play_mode := JStr "sequential";
        thumbnail_path := None; audio_threads := [];
        sound_objects := [DemoPlayer.b_wav];
        channels := Some DemoPlayer.b_wav :: Some DemoPlayer.b_wav :: repeat None 6;
        threads := [] |}) /\
  bind stop (fun _ => play DemoPlayer.everything_loads DemoPlayer.every_thread_starts
                        (S frames))
    DemoPlayer.mid_session
  = (inr tt,
     {| temp_dir := Some DemoPlayer.dir; current_track := 0; is_playing := true;
        tracks_meta := DemoPlayer.three; play_mode := JStr "sequential";
        thumbnail_path := None; audio_threads := [];
        sound_objects := [DemoPlayer.a_wav];
        channels := Some DemoPlayer.a_wav :: repeat None 7;
        threads := [] |}).
Proof. split; reflexivity. Qed.

(** C7, where the code departs from it.  Two tracks, the second of which
    does not load: [play] starts the first; when it has ended and the end
    event arrives, [check_events] moves to the second, which fails, and the
    calls run off the end of the list.  Nothing is playing and no track is
    left, yet the player still says it is playing, with the cursor past the
    end, and stays so at every later poll.  And when a track loads but no
    channel is free, nothing is started and the cursor does not move.  This
    is so whenever there is room for the calls made: one of
    [play_sequential] by [play], two by [check_events]. *)
Theorem failed_last_track_leaves_session_active (frames : nat) :
  let p0 := DemoPlayer.loaded "sequential" DemoPlayer.two in
  exists p1 p3,
    play DemoPlayer.loads DemoPlayer.every_thread_starts (S frames) p0 = (inr tt, p1) /\
    (is_playing p1, current_track p1, sound_objects p1) = (true, 0, [DemoPlayer.a_wav]) /\
    check_events DemoPlayer.loads (S (S frames)) [USEREVENT]
      (set_channels (fall_silent 0 (channels p1)) p1) = (inr true, p3) /\
    (is_playing p3, current_track p3, busy (channels p3)) = (true, 2, 0) /\
    check_events DemoPlayer.loads frames [] p3 = (inr true, p3) /\
    let q := set_channels (repeat (Some DemoPlayer.b_wav) 8) p0 in
    play_sequential DemoPlayer.everything_loads (S frames) q
    = (inr tt, set_sound_objects [DemoPlayer.a_wav] q).
Proof.
  intros p0. do 2 eexists.
  split; [reflexivity|].
  split; [reflexivity|].
  split; [reflexivity|].
  split; [reflexivity|].
  split; reflexivity.
Qed.






Section LoadFacts.
Context {J : JsonModule}.
Variables gettempdir mkdtemp : string.

Lemma keeps_on_file (A : Type) (m : M io A) : keeps_selection (on_file m).
Proof. intros [p f]. unfold on_file. simpl. destruct (m f). auto. Qed.

Lemma keeps_ret (A : Type) (a : A) : keeps_selection (ret a).
Proof. intros s. auto. Qed.

Lemma keeps_lift (A : Type) (r : exn + A) : keeps_selection (lift r).
Proof. intros s. auto. Qed.

Lemma keeps_gets (A : Type) (g : player * io -> A) : keeps_selection (gets g).
Proof. intros s. auto. Qed.

Lemma keeps_on_self (g : player -> player) :
  (forall p, play_mode (g p) = play_mode p /\ tracks_meta (g p) = tracks_meta p) ->
  keeps_selection (on_self g).
Proof. intros H [p f]. apply H. Qed.

Lemma keeps_bind (A B : Type) (m : M (player * io) A) (k : A -> M (player * io) B) :
  keeps_selection m -> (forall a, keeps_selection (k a)) -> keeps_selection (bind m k).
Proof.
  intros Hm Hk s. unfold bind. specialize (Hm s).
  destruct (m s) as [[e|a] s']; [exact Hm|].
  destruct (Hk a s') as [H1 H2]. simpl in Hm. destruct Hm as [H3 H4].
  split; congruence.
Qed.

Lemma keeps_for_range (n : nat) (body : M (player * io) unit) :
  keeps_selection body -> keeps_selection (for_range n body).
Proof.
  intros H. induction n as [|n IH]; simpl; [apply keeps_ret|].
  apply keeps_bind; auto.
Qed.

Ltac keeps :=
  repeat first
    [ apply keeps_on_file | apply keeps_ret | apply keeps_lift | apply keeps_gets
    | apply keeps_on_self; intros; split; reflexivity
    | apply keeps_for_range
    | apply keeps_bind; [|intros] ].

Lemma keeps_load_thumbnail : keeps_selection (load_thumbnail gettempdir).
Proof.
  unfold load_thumbnail. apply keeps_bind; [keeps|]. intros n.
  destruct (0 <? n)%N; keeps.
Qed.

Lemma keeps_load_tracks : keeps_selection (load_tracks mkdtemp).
Proof. unfold load_tracks, load_track. keeps. Qed.

Lemma bind_inv (S A B : Type) (m : M S A) (k : A -> M S B) (s s2 : S) (b : B) :
  bind m k s = (inr b, s2) -> exists a s1, m s = (inr a, s1) /\ k a s1 = (inr b, s2).
Proof.
  unfold bind. destruct (m s) as [[e|a] s1]; [discriminate|]. eauto.
Qed.

(** What [load_moda] leaves in [self.play_mode] and [self.tracks_meta]. *)
Lemma load_metadata_selection (s s' : player * io) (meta : json) :
  load_metadata s = (inr meta, s') ->
  py_get meta "play_mode" (JStr "sequential") = inr (play_mode (fst s')) /\
  py_get meta "tracks" (JArr []) = inr (tracks_meta (fst s')).
Proof.
  unfold load_metadata. intros H.
  apply bind_inv in H. destruct H as (magic & s1 & _ & H).
  destruct (negb (bytes_eqb magic MODA_MAGIC)); [discriminate|].
  apply bind_inv in H. destruct H as (json_len & s2 & _ & H).
  apply bind_inv in H. destruct H as (meta_json & s3 & _ & H).
  apply bind_inv in H. destruct H as (meta0 & s4 & _ & H).
  apply bind_inv in H. destruct H as (mode & s5 & Hmode & H).
  apply bind_inv in H. destruct H as ([] & s6 & Hset & H).
  apply bind_inv in H. destruct H as (tracks & s7 & Htracks & H).
  apply bind_inv in H. destruct H as ([] & s8 & Hset' & H).
  unfold ret in H. inversion H; subst meta0 s8; clear H.
  unfold lift in Hmode, Htracks. unfold on_self in Hset, Hset'.
  inversion Hmode; subst s5. inversion Htracks; subst s7.
  inversion Hset; subst s6. inversion Hset'; subst s'.
  cbn. split; assumption.
Qed.

Lemma load_moda_selection (data : list byte) (self p : player) (f : io) (meta : json) :
  load_moda gettempdir mkdtemp data self = (inr meta, (p, f)) ->
  py_get meta "play_mode" (JStr "sequential") = inr (play_mode p) /\
  py_get meta "tracks" (JArr []) = inr (tracks_meta p).
Proof.
  unfold load_moda, try_except.
  destruct (load_body gettempdir mkdtemp _) as [[e|meta'] s'] eqn:E; [discriminate|].
  intros H. inversion H; subst meta' s'; clear H.
  unfold load_body in E.
  apply bind_inv in E. destruct E as (meta0 & s1 & Hmeta & E).
  apply bind_inv in E. destruct E as ([] & s2 & Hthumb & E).
  apply bind_inv in E. destruct E as ([] & s3 & Htracks & E).
  unfold ret in E. inversion E; subst meta0 s3; clear E.
  destruct (load_metadata_selection _ Hmeta) as [Hm Ht].
  destruct (keeps_load_thumbnail s1) as [K1 K2]. rewrite Hthumb in K1, K2.
  destruct (keeps_load_tracks s2) as [K3 K4]. rewrite Htracks in K3, K4.
  simpl in K1, K2, K3, K4. rewrite K3, K4, K1, K2. auto.
Qed.

End LoadFacts.

Lemma py_eq_str_spec (v : json) (s : string) : py_eq_str v s = true <-> v = JStr s.
Proof.
  destruct v; simpl; split; try discriminate.
  - intros E. apply String.eqb_eq in E. now subst.
  - intros E. inversion E. apply String.eqb_refl.
Qed.

Lemma play_sequential_no_tracks (Sound_loads : string -> bool) (frames : nat)
    (p : player) :
  tracks_meta p = JArr [] -> play_sequential Sound_loads (S frames) p = (inr tt, p).
Proof.
  intros Ht. unfold play_sequential.
  cbn [play_sequential_rec]. erewrite run_bind by reflexivity.
  erewrite run_bind by reflexivity. rewrite Ht. reflexivity.
Qed.

(** C10. Play mode.  After [load_moda] has succeeded, the player's play mode
    is the [play_mode] of the metadata, or ["sequential"] when the metadata
    has no such key.  If it is anything but the string ["parallel"], [play]
    is [play_sequential]: it calls it when there are tracks, and with an
    empty track list it returns at once, as [play_sequential] does when
    there is room for the call.  Only when the mode is exactly ["parallel"]
    does [play] call [play_parallel]. *)
Theorem play_mode_selects_the_path {J : JsonModule} (gettempdir mkdtemp : string)
    (data : list byte) (self p : player) (f : io) (meta : json) :
  load_moda gettempdir mkdtemp data self = (inr meta, (p, f)) ->
  py_get meta "play_mode" (JStr "sequential") = inr (play_mode p) /\
  (forall members, meta = JObj members -> dict_lookup members "play_mode" = None ->
     play_mode p = JStr "sequential") /\
  forall (Sound_loads : string -> bool) (Thread_starts : nat -> bool) (frames : nat),
    (play_mode p <> JStr "parallel" ->
       play Sound_loads Thread_starts frames p
       = (if py_truthy (tracks_meta p) then play_sequential Sound_loads frames p
          else (inr tt, p)) /\
       (forall items, tracks_meta p = JArr items ->
          play Sound_loads Thread_starts (S frames) p
          = play_sequential Sound_loads (S frames) p)) /\
    (play_mode p = JStr "parallel" ->
       play Sound_loads Thread_starts frames p
       = (if py_truthy (tracks_meta p) then play_parallel Sound_loads Thread_starts p
          else (inr tt, p))).
Proof.
  intros Hload. destruct (load_moda_selection _ _ _ _ Hload) as [Hm _].
  split; [exact Hm|]. split.
  - intros members -> Hnone. unfold py_get in Hm. rewrite Hnone in Hm. congruence.
  - intros Sound_loads Thread_starts frames. split.
    + intros Hne.
      assert (Hb : py_eq_str (play_mode p) "parallel" = false).
      { destruct (py_eq_str (play_mode p) "parallel") eqn:E; [|reflexivity].
        apply py_eq_str_spec in E. contradiction. }
      assert (Hplay : forall n, play Sound_loads Thread_starts n p
                      = (if py_truthy (tracks_meta p) then play_sequential Sound_loads n p
                         else (inr tt, p))).
      { intros n. unfold play. erewrite run_bind by reflexivity.
        destruct (py_truthy (tracks_meta p)); [|reflexivity]. cbn [negb].
        erewrite run_bind by reflexivity. now rewrite Hb. }
      split; [apply Hplay|].
      intros items Ht. rewrite Hplay, Ht.
      destruct items as [|x items]; [|reflexivity].
      cbn [py_truthy]. symmetry. now apply play_sequential_no_tracks.
    + intros Hp. unfold play. erewrite run_bind by reflexivity.
      destruct (py_truthy (tracks_meta p)); [|reflexivity]. cbn [negb].
      erewrite run_bind by reflexivity. now rewrite Hp.
Qed.

Lemma play_mode_selects_the_path_witness :
  let p := fst (snd (load_moda (J := py_json) "/tmp" "/tmp/moda_x" Demo.container init)) in
  play_mode p = JStr "sequential" /\
  play DemoPlayer.loads DemoPlayer.every_thread_starts 1000 p
  = play_sequential DemoPlayer.loads 1000 p.
Proof.
  intros p.
  assert (Hload : load_moda (J := py_json) "/tmp" "/tmp/moda_x" Demo.container init
                  = (inr (ModaCompiler.build_meta Demo.tracks "sequential"
                            (Some "/art/cover.png"%string)),
                     (p, snd (snd (load_moda (J := py_json) "/tmp" "/tmp/moda_x"
                                     Demo.container init))))).
  { vm_compute. reflexivity. }
  destruct (play_mode_selects_the_path _ _ _ _ Hload) as (_ & _ & H).
  split; [vm_compute; reflexivity|].
  destruct (H DemoPlayer.loads DemoPlayer.every_thread_starts 999) as [[_ Hseq] _].
  - intros E. vm_compute in E. discriminate E.
  - eapply Hseq. vm_compute. reflexivity.
Defined.

End EngineClaims.

(** * Further properties of the codec *)

Section CodecFacts.
Context {J : JsonModule}.

Import ModaCompiler ModaDecompiler.

Lemma track_record_succeeds (fs : filesystem) (t : string) :
  succeeds (track_record fs t) = embeddable fs t.
Proof.
  unfold track_record, open_rb, encode_utf8, struct_pack_H, struct_pack_I, embeddable,
    fits_H, fits_I.
  destruct (names_directory t); [reflexivity|]. cbn [negb andb].
  destruct (fs t) as [data|]; [|reflexivity]. cbn [bind_sum].
  destruct (utf8_valid (list_byte_of_string (basename t))); [|reflexivity]. cbn [bind_sum andb].
  destruct (len (list_byte_of_string (basename t)) <? 65536)%N; [|reflexivity].
  cbn [bind_sum andb].
  destruct (len data <? 4294967296)%N; reflexivity.
Qed.

Lemma track_records_succeeds (fs : filesystem) (tracks : list string) :
  succeeds (track_records fs tracks) = forallb (embeddable fs) tracks.
Proof.
  induction tracks as [|t ts IH]; [reflexivity|].
  cbn [track_records forallb]. rewrite <- track_record_succeeds, <- IH.
  destruct (track_record fs t); [reflexivity|]. cbn [bind_sum succeeds andb].
  destruct (track_records fs ts); reflexivity.
Qed.

Lemma thumbnail_section_succeeds (fs : filesystem) (thumb : option string) :
  succeeds (thumbnail_section fs thumb)
  = match truthy_path thumb with
    | Some p => embeddable fs p
    | None => true
    end.
Proof.
  unfold thumbnail_section. destruct (truthy_path thumb) as [p|]; [|reflexivity].
  rewrite <- track_record_succeeds. unfold track_record.
  destruct (open_rb fs p); [reflexivity|]. cbn [bind_sum].
  destruct (encode_utf8 (basename p)); [reflexivity|]. cbn [bind_sum].
  destruct (struct_pack_H (len l0)); [reflexivity|]. cbn [bind_sum].
  destruct (struct_pack_I (len l)); reflexivity.
Qed.

(** [build_moda_file] writes a container exactly when the metadata text,
    every name, every file and the number of tracks fit their length fields,
    every file named can be read and has a well-formed name, the output path
    does not end in a directory name and the disk lets the program open it
    for writing; in every other case it raises and writes nothing. *)
Theorem build_succeeds_iff (fs : filesystem) (writable : string -> bool) (tracks : list string) (play_mode : string)
    (thumb : option string) (output_path : string) :
  (exists out, build_moda_file fs writable tracks play_mode thumb output_path = inr out)
  <-> encodable fs writable tracks play_mode thumb output_path = true.
Proof.
  assert (H : succeeds (build_moda_file fs writable tracks play_mode thumb output_path)
              = encodable fs writable tracks play_mode thumb output_path).
  { unfold build_moda_file, encodable.
    rewrite <- thumbnail_section_succeeds, <- track_records_succeeds.
    unfold struct_pack_I at 1. unfold fits_I, fits_H.
    destruct (len (json_dumps (build_meta tracks play_mode thumb)) <? 4294967296)%N;
      [|reflexivity].
    cbn [bind_sum andb].
    destruct (thumbnail_section fs thumb); [reflexivity|]. cbn [bind_sum succeeds andb].
    unfold struct_pack_H at 1.
    destruct (len tracks <? 65536)%N; [|reflexivity]. cbn [bind_sum andb].
    destruct (track_records fs tracks); [reflexivity|]. cbn [bind_sum succeeds andb].
    destruct (names_directory output_path); [reflexivity|].
    destruct (writable output_path); reflexivity. }
  rewrite <- H. destruct (build_moda_file fs writable tracks play_mode thumb output_path) as [e|out].
  - split; [intros [out E]; discriminate | discriminate].
  - split; [reflexivity | eauto].
Qed.

Lemma track_records_length (fs : filesystem) (tracks : list string) (rs : list byte) :
  track_records fs tracks = inr rs ->
  length rs = list_sum (map (record_size fs) tracks).
Proof.
  revert rs. induction tracks as [|t ts IH]; intros rs H.
  - inversion H. reflexivity.
  - cbn [track_records] in H. do 2 step_sum H. inversion H; subst rs; clear H.
    destruct (track_record_split _ _ E) as (nl & name & dl & H1 & H2 & H3 & _ & ->).
    apply encode_utf8_inv in H2. destruct H2 as [-> _].
    change (list_sum (map (record_size fs) (t :: ts)))
      with (record_size fs t + list_sum (map (record_size fs) ts)).
    rewrite !length_app, (pack_H_length _ H1), (pack_I_length _ H3), (IH _ eq_refl).
    unfold record_size. lia.
Qed.

(** The size of a container: 8 bytes of magic and metadata length, the
    metadata text, the thumbnail (2 bytes when there is none), 2 bytes of
    track count, and every track with its 6 bytes of length fields. *)
Theorem container_size (fs : filesystem) (writable : string -> bool) (tracks : list string) (play_mode : string)
    (thumb : option string) (output_path : string) (out : list byte) :
  build_moda_file fs writable tracks play_mode thumb output_path = inr out ->
  length out
  = 8 + length (json_dumps (build_meta tracks play_mode thumb))
    + match truthy_path thumb with
      | Some p => record_size fs p
      | None => 2
      end
    + 2 + list_sum (map (record_size fs) tracks).
Proof.
  intros Hb.
  destruct (build_moda_file_layout _ _ _ _ _ _ Hb)
    as (json_len & sec & count & records & Hl & Hs & Hc & Hr & ->).
  rewrite !length_app, (pack_I_length _ Hl), (pack_H_length _ Hc),
    (track_records_length _ _ Hr).
  change (length MODA_MAGIC) with 4.
  assert (Hsec : length sec = match truthy_path thumb with
                              | Some p => record_size fs p
                              | None => 2
                              end).
  { unfold thumbnail_section in Hs. destruct (truthy_path thumb) as [p|].
    - assert (Hrec : track_records fs [p] = inr (sec ++ [])).
      { assert (Hone : track_record fs p = inr sec) by exact Hs.
        cbn [track_records]. rewrite Hone. reflexivity. }
      apply track_records_length in Hrec. rewrite app_nil_r in Hrec.
      rewrite Hrec. cbn [map list_sum fold_right]. lia.
    - now apply pack_H_length in Hs. }
  rewrite Hsec. lia.
Qed.

(** Unpacking any container whose parts are well formed, whatever its
    metadata says and whatever follows its last track. *)
Lemma extract_parts (fs : filesystem) (tracks : list string) (thumb : option string)
    (dir : string) (js jl sec count records junk : list byte) (meta : json) :
  struct_pack_I (len js) = inr jl ->
  json_loads js = inr meta ->
  thumbnail_section fs thumb = inr sec ->
  struct_pack_H (len tracks) = inr count ->
  track_records fs tracks = inr records ->
  extract_moda (MODA_MAGIC ++ jl ++ js ++ sec ++ count ++ records ++ junk) dir
  = (inr meta,
     at_ junk (thumbnail_file fs dir thumb ++ track_files fs dir tracks
               ++ [(os_path_join dir "meta.json", json_dumps meta)])).
Proof.
  intros Hl Hj Hs Hc Hr.
  erewrite extract_after_header by eassumption.
  erewrite run_bind by (apply read_thumbnail_section; eassumption).
  erewrite run_bind by (apply read_track_section; eassumption).
  erewrite run_bind by (apply open_wb_ok, names_directory_meta).
  unfold ret, reraise. simpl. now rewrite <- app_assoc.
Qed.

(** Bytes after the last track are never looked at: a container followed by
    anything at all unpacks as the container alone does, and what follows
    is left unread. *)
Theorem trailing_bytes_are_ignored (fs : filesystem) (writable : string -> bool) (tracks : list string)
    (play_mode : string) (thumb : option string) (output_path dir : string)
    (out junk : list byte) :
  build_moda_file fs writable tracks play_mode thumb output_path = inr out ->
  json_loads (json_dumps (build_meta tracks play_mode thumb))
  = inr (build_meta tracks play_mode thumb) ->
  extract_moda (out ++ junk) dir
  = (inr (build_meta tracks play_mode thumb),
     {| unread := junk;
        written := thumbnail_file fs dir thumb ++ track_files fs dir tracks
                   ++ [(os_path_join dir "meta.json",
                        json_dumps (build_meta tracks play_mode thumb))] |}).
Proof.
  intros Hb Hj.
  destruct (build_moda_file_layout _ _ _ _ _ _ Hb)
    as (json_len & sec & count & records & Hl & Hs & Hc & Hr & ->).
  rewrite <- !app_assoc. eapply extract_parts; eassumption.
Qed.

(** The metadata is not checked against the tracks that follow it.  Put
    any other JSON text, with its length, in front of the thumbnail and
    track blocks of a container: [extract_moda] writes the same thumbnail
    and the same tracks, and returns and saves the other metadata. *)
Theorem metadata_is_not_cross_checked (fs : filesystem) (writable : string -> bool) (tracks : list string)
    (play_mode : string) (thumb : option string) (output_path dir : string)
    (out other other_len : list byte) (other_meta : json) :
  build_moda_file fs writable tracks play_mode thumb output_path = inr out ->
  struct_pack_I (len other) = inr other_len ->
  json_loads other = inr other_meta ->
  let body := skipn (8 + length (json_dumps (build_meta tracks play_mode thumb))) out in
  extract_moda (MODA_MAGIC ++ other_len ++ other ++ body) dir
  = (inr other_meta,
     {| unread := [];
        written := thumbnail_file fs dir thumb ++ track_files fs dir tracks
                   ++ [(os_path_join dir "meta.json", json_dumps other_meta)] |}).
Proof.
  intros Hb Hl Hj body.
  destruct (build_moda_file_layout _ _ _ _ _ _ Hb)
    as (json_len & sec & count & records & Hl0 & Hs & Hc & Hr & ->).
  assert (Hbody : body = sec ++ count ++ records ++ []).
  { unfold body. rewrite app_nil_r.
    rewrite (app_assoc MODA_MAGIC), (app_assoc (MODA_MAGIC ++ json_len)).
    rewrite skipn_app.
    replace (8 + _ - _) with 0
      by (rewrite !length_app, (pack_I_length _ Hl0); change (length MODA_MAGIC) with 4; lia).
    rewrite skipn_all2; [reflexivity|].
    rewrite !length_app, (pack_I_length _ Hl0). change (length MODA_MAGIC) with 4. lia. }
  rewrite Hbody. eapply extract_parts; eassumption.
Qed.

(** Any record: a name and data with their length fields. *)
Lemma read_track_any (name dir : string) (nl nb dl data rest : list byte)
    (w : list (string * list byte)) :
  encode_utf8 name = inr nb ->
  struct_pack_H (len nb) = inr nl ->
  struct_pack_I (len data) = inr dl ->
  names_directory (os_path_join dir name) = false ->
  read_track dir (at_ (nl ++ nb ++ dl ++ data ++ rest) w)
  = (inr tt, at_ rest (w ++ [(os_path_join dir name, data)])).
Proof.
  intros Hn Hnl Hdl Hd. unfold read_track.
  erewrite run_bind by (apply read_H_app; eassumption).
  erewrite run_bind by (apply read_str_app; eassumption).
  erewrite run_bind by (apply read_I_app; eassumption).
  erewrite run_bind by apply f_read_app.
  now apply open_wb_ok.
Qed.

Lemma read_thumbnail_none (dir : string) (rest : list byte) (w : list (string * list byte)) :
  read_thumbnail dir (at_ ([x00; x00] ++ rest) w) = (inr tt, at_ rest w).
Proof. reflexivity. Qed.

Lemma read_H_one (rest : list byte) (w : list (string * list byte)) :
  read_H (at_ ([x00; x01] ++ rest) w) = (inr 1%N, at_ rest w).
Proof. reflexivity. Qed.

(** On a disk that refuses nothing the general reader is the reader. *)
Lemma extract_moda_on_nothing_refused (data : list byte) (dir : string) :
  extract_moda_on (fun _ => false) data dir = extract_moda data dir.
Proof. reflexivity. Qed.

(** The name stored with a track is used as it stands.  For a container
    whose one track carries an absolute path as its name, the one file
    [extract_moda] opens for the track is that path itself, whatever the
    output directory: where the disk lets it, the track's data is written
    there; where it does not, the extraction fails on that path.  Nothing
    of the track goes under the output directory. *)
Theorem absolute_track_name_leaves_output_dir (refused : string -> bool)
    (dir name : string) (js jl nb nl data dl : list byte) (meta : json) :
  struct_pack_I (len js) = inr jl ->
  json_loads js = inr meta ->
  encode_utf8 name = inr nb ->
  struct_pack_H (len nb) = inr nl ->
  struct_pack_I (len data) = inr dl ->
  startswith_slash name = true ->
  names_directory name = false ->
  extract_moda_on refused
    (MODA_MAGIC ++ jl ++ js ++ [x00; x00] ++ [x00; x01] ++ nl ++ nb ++ dl ++ data) dir
  = if refused name
    then (inl (ErrorExtracting OSError), {| unread := []; written := [] |})
    else if refused (os_path_join dir "meta.json")
    then (inl (ErrorExtracting OSError), {| unread := []; written := [(name, data)] |})
    else (inr meta,
          {| unread := [];
             written := [(name, data); (os_path_join dir "meta.json", json_dumps meta)] |}).
Proof.
  intros Hl Hj Hn Hnl Hdl Habs Hd.
  assert (Hjoin : os_path_join dir name = name) by (unfold os_path_join; now rewrite Habs).
  replace (nl ++ nb ++ dl ++ data) with (nl ++ nb ++ dl ++ data ++ [])
    by now rewrite app_nil_r.
  assert (Htrack : read_track_on refused dir (at_ (nl ++ nb ++ dl ++ data ++ []) [])
                   = open_wb_on refused name data (at_ [] [])).
  { unfold read_track_on.
    erewrite run_bind by (apply read_H_app; eassumption).
    erewrite run_bind by (apply read_str_app; eassumption).
    erewrite run_bind by (apply read_I_app; eassumption).
    erewrite run_bind by apply f_read_app.
    now rewrite Hjoin. }
  unfold extract_moda_on, try_except, extract_body_on.
  change {| unread := ?b; written := ?w |} with (at_ b w).
  erewrite run_bind; cycle 1.
  { rewrite read_header_written by eassumption. rewrite Hj. reflexivity. }
  erewrite run_bind with (m := read_thumbnail_on refused dir) by reflexivity.
  unfold read_tracks_on at 1.
  unfold open_wb_on in Htrack. rewrite Hd in Htrack.
  destruct (refused name).
  - erewrite run_bind_raise; [reflexivity|].
    erewrite run_bind by apply read_H_one.
    change (N.to_nat 1) with 1. cbn [for_range].
    erewrite run_bind_raise; [reflexivity | exact Htrack].
  - erewrite run_bind; cycle 1.
    { erewrite run_bind by apply read_H_one.
      change (N.to_nat 1) with 1. cbn [for_range].
      erewrite run_bind; [reflexivity | exact Htrack]. }
    unfold open_wb_on. rewrite names_directory_meta.
    destruct (refused (os_path_join dir "meta.json")); reflexivity.
Qed.

Lemma track_records_split (fs : filesystem) (ts1 ts2 : list string) (rs : list byte) :
  track_records fs (ts1 ++ ts2) = inr rs ->
  exists a b, track_records fs ts1 = inr a /\ track_records fs ts2 = inr b /\ rs = a ++ b.
Proof.
  revert rs. induction ts1 as [|t ts1 IH]; intros rs H.
  - exists [], rs. auto.
  - cbn [app track_records] in H. do 2 step_sum H. inversion H; subst rs; clear H.
    destruct (IH _ eq_refl) as (a & b & Ha & Hb & ->).
    exists (l ++ a), b. cbn [track_records]. rewrite E, Ha. cbn [bind_sum].
    rewrite app_assoc. auto.
Qed.

End CodecFacts.

Section CodecFactsWitnesses.

Import ModaCompiler ModaDecompiler.

Local Open Scope string_scope.
Local Open Scope list_scope.

Lemma container_size_witness :
  length Demo.container
  = 8 + length (json_dumps (JsonModule := py_json)
                  (build_meta Demo.tracks "sequential" (Some "/art/cover.png")))
    + record_size Demo.fs "/art/cover.png" + 2
    + list_sum (map (record_size Demo.fs) Demo.tracks).
Proof.
  exact (@container_size py_json Demo.fs (fun _ => true) Demo.tracks "sequential" (Some "/art/cover.png")
           "/music/album.moda" Demo.container eq_refl).
Defined.

Lemma trailing_bytes_are_ignored_witness :
  extract_moda (J := py_json) (Demo.container ++ list_byte_of_string "padding") "/out"
  = (inr (build_meta Demo.tracks "sequential" (Some "/art/cover.png")),
     {| unread := list_byte_of_string "padding";
        written := thumbnail_file Demo.fs "/out" (Some "/art/cover.png")
                   ++ track_files Demo.fs "/out" Demo.tracks
                   ++ [(os_path_join "/out" "meta.json",
                        json_dumps (build_meta Demo.tracks "sequential"
                                      (Some "/art/cover.png")))] |}).
Proof.
  apply (@trailing_bytes_are_ignored py_json Demo.fs (fun _ => true) Demo.tracks "sequential"
           (Some "/art/cover.png") "/music/album.moda" "/out" Demo.container).
  - reflexivity.
  - reflexivity.
Defined.

Lemma metadata_is_not_cross_checked_witness :
  extract_moda (J := py_json)
    (MODA_MAGIC ++ DemoCodec.empty_meta_len ++ DemoCodec.empty_meta_text
     ++ skipn (8 + length (json_dumps (JsonModule := py_json)
                             (build_meta Demo.tracks "sequential" (Some "/art/cover.png"))))
          Demo.container)
    "/out"
  = (inr (JObj []),
     {| unread := [];
        written := thumbnail_file Demo.fs "/out" (Some "/art/cover.png")
                   ++ track_files Demo.fs "/out" Demo.tracks
                   ++ [(os_path_join "/out" "meta.json", json_dumps (JObj []))] |}).
Proof.
  apply (@metadata_is_not_cross_checked py_json Demo.fs (fun _ => true) Demo.tracks "sequential"
           (Some "/art/cover.png") "/music/album.moda" "/out" Demo.container
           DemoCodec.empty_meta_text DemoCodec.empty_meta_len (JObj [])).
  - reflexivity.
  - reflexivity.
  - reflexivity.
Defined.

Lemma absolute_track_name_leaves_output_dir_witness :
  extract_moda_on (J := py_json) (fun path => String.eqb path "/home/user/music/job")
    (MODA_MAGIC ++ DemoCodec.empty_meta_len ++ DemoCodec.empty_meta_text
     ++ [x00; x00] ++ [x00; x01]
     ++ [x00; x0f] ++ list_byte_of_string DemoCodec.outside
     ++ [x00; x00; x00; x09] ++ DemoCodec.payload)
    "/home/user/music"
  = (inr (JObj []),
     {| unread := [];
        written := [(DemoCodec.outside, DemoCodec.payload);
                    (os_path_join "/home/user/music" "meta.json", json_dumps (JObj []))] |}).
Proof.
  apply (@absolute_track_name_leaves_output_dir py_json
           (fun path => String.eqb path "/home/user/music/job") "/home/user/music"
           DemoCodec.outside DemoCodec.empty_meta_text DemoCodec.empty_meta_len
           (list_byte_of_string DemoCodec.outside) [x00; x0f]
           DemoCodec.payload [x00; x00; x00; x09] (JObj [])); reflexivity.
Defined.

End CodecFactsWitnesses.

(** * The decompiler's window *)

Section DecompilerWindow.
Context {J : JsonModule}.

Import ModaDecompilerApp.

Lemma nonempty_eqb (s : string) : s <> EmptyString -> String.eqb s EmptyString = false.
Proof. intros H. now apply String.eqb_neq. Qed.

Lemma truthy_path_some (s : string) :
  s <> EmptyString -> ModaCompiler.truthy_path (Some s) = Some s.
Proof. intros H. unfold ModaCompiler.truthy_path. now rewrite nonempty_eqb. Qed.

(** The information shown for a file comes from its header alone.  When a
    file starts with the magic, the metadata length and the metadata of a
    container, [open_file] shows that metadata's play mode and number of
    tracks and no message box, whatever follows the metadata: the rest of
    the container, part of it, or nothing. *)
Theorem open_file_reads_the_header_only (fs : filesystem) (file : string) (a : app)
    (tracks : list string) (play_mode : string) (thumb : option string)
    (json_len rest : list byte) :
  let meta := ModaCompiler.build_meta tracks play_mode thumb in
  file <> EmptyString ->
  struct_pack_I (len (json_dumps meta)) = inr json_len ->
  json_loads (json_dumps meta) = inr meta ->
  open_rb fs file = inr (MODA_MAGIC ++ json_len ++ json_dumps meta ++ rest) ->
  open_file fs file a
  = (inr tt,
     set_tracks_label (tracks_are (length tracks))
       (set_mode_label (play_mode_is (JStr play_mode))
          (set_file_label (fixed (basename file)) (set_current_file (Some file) a)))).
Proof.
  intros meta Hf Hl Hj Hopen. unfold open_file. rewrite (nonempty_eqb Hf).
  erewrite run_bind by reflexivity. erewrite run_bind by reflexivity.
  unfold try_except, read_info. rewrite Hopen.
  erewrite run_bind by reflexivity.
  change {| unread := ?b; written := ?w |} with (at_ b w).
  rewrite read_header_written by exact Hl. cbn [fst]. rewrite Hj.
  erewrite run_bind by reflexivity.
  erewrite run_bind by reflexivity.
  erewrite run_bind by reflexivity.
  erewrite run_bind by reflexivity.
  erewrite run_bind; cycle 1.
  { unfold lift, py_len, py_iter. reflexivity. }
  unfold modify. rewrite length_map. unfold ModaCompiler.enumerate.
  now rewrite enumerate_from_length.
Qed.

(** A file that is not a container still becomes the current file: its
    name is shown, a message box reports the bad magic, and the play mode
    and track count on display stay those of whatever was shown before. *)
Theorem open_file_keeps_old_info_on_bad_magic (fs : filesystem) (file : string) (a : app)
    (data : list byte) :
  file <> EmptyString ->
  open_rb fs file = inr data ->
  firstn 4 data <> MODA_MAGIC ->
  exists a',
    open_file fs file a = (inr tt, a') /\
    current_file a' = Some file /\
    file_label a' = fixed (basename file) /\
    messages a' = messages a ++ [failed_to_read_info BadMagic] /\
    mode_label a' = mode_label a /\
    tracks_label a' = tracks_label a.
Proof.
  intros Hf Hopen Hm. unfold open_file. rewrite (nonempty_eqb Hf).
  erewrite run_bind by reflexivity. erewrite run_bind by reflexivity.
  unfold try_except, read_info. rewrite Hopen.
  erewrite run_bind by reflexivity.
  unfold ModaDecompiler.read_header.
  erewrite run_bind_raise; cycle 1.
  { unfold lift. erewrite run_bind by apply short_magic_unread.
    rewrite (bytes_eqb_neq Hm). reflexivity. }
  eexists. split; [reflexivity|]. cbn. auto.
Qed.

Section Extracting.

(** Where the container lies, and where the files packed in it came from. *)
Variables (fs src : filesystem).
Variables (a : app) (file dir : string).
Variables (tracks : list string) (thumb : option string).
Variables (js jl sec count records : list byte) (meta : json).

Hypothesis Hfile : current_file a = Some file.
Hypothesis Hfile_named : file <> EmptyString.
Hypothesis Hdir : output_dir a = Some dir.
Hypothesis Hdir_named : dir <> EmptyString.
Hypothesis Hopen :
  open_rb fs file = inr (MODA_MAGIC ++ jl ++ js ++ sec ++ count ++ records).
Hypothesis Hjl : struct_pack_I (len js) = inr jl.
Hypothesis Hmeta : json_loads js = inr meta.
Hypothesis Hsec : ModaCompiler.thumbnail_section src thumb = inr sec.
Hypothesis Hcount : struct_pack_H (len tracks) = inr count.
Hypothesis Hrecords : ModaCompiler.track_records src tracks = inr records.

Let unpacked : list (string * list byte) :=
  thumbnail_file src dir thumb ++ track_files src dir tracks
  ++ [(os_path_join dir "meta.json", json_dumps meta)].

Lemma extract_moda_at_parts :
  extract_moda_at fs file dir = (inr meta, unpacked).
Proof.
  unfold extract_moda_at. rewrite Hopen.
  replace (sec ++ count ++ records) with (sec ++ count ++ records ++ [])
    by now rewrite app_nil_r.
  erewrite (extract_parts src tracks thumb dir) by eassumption. reflexivity.
Qed.

(** The number of tracks in the success message is the length of the
    metadata's [tracks], whatever number of tracks the container holds and
    [extract_moda] has written. *)
Theorem extract_files_reports_the_metadata_count (v : json) (n : nat) :
  py_get meta "tracks" (JArr []) = inr v ->
  py_len v = inr n ->
  extract_files fs a = (inr tt, show (extracted n dir) (write_out unpacked a)).
Proof.
  intros Hv Hn. unfold extract_files.
  erewrite run_bind by reflexivity. rewrite Hfile, (truthy_path_some Hfile_named).
  erewrite run_bind by reflexivity. rewrite Hdir, (truthy_path_some Hdir_named).
  unfold try_except, extract_and_report. rewrite extract_moda_at_parts.
  erewrite run_bind by reflexivity. erewrite run_bind by reflexivity.
  rewrite Hv. erewrite run_bind by reflexivity.
  rewrite Hn. erewrite run_bind by reflexivity. reflexivity.
Qed.

(** When the number of tracks cannot be taken from the metadata (its
    [tracks] is a number, [true] or [null], which have no length, or the
    metadata is JSON but not an object), [extract_moda] has unpacked the
    whole container by then, [meta.json] included, and the window reports a
    failure all the same. *)
Theorem extract_files_reports_failure_after_unpacking (e : exn) :
  bind_sum (py_get meta "tracks" (JArr [])) py_len = inl e ->
  extract_files fs a
  = (inr tt, show (failed_to_extract e) (write_out unpacked a)).
Proof.
  intros Hno. unfold extract_files.
  erewrite run_bind by reflexivity. rewrite Hfile, (truthy_path_some Hfile_named).
  erewrite run_bind by reflexivity. rewrite Hdir, (truthy_path_some Hdir_named).
  unfold try_except, extract_and_report. rewrite extract_moda_at_parts.
  erewrite run_bind by reflexivity. erewrite run_bind by reflexivity.
  destruct (py_get meta "tracks" (JArr [])) as [e0|v].
  - inversion Hno; subst e0. reflexivity.
  - cbn [bind_sum] in Hno. erewrite run_bind by reflexivity.
    rewrite Hno. reflexivity.
Qed.

End Extracting.

End DecompilerWindow.

Section DecompilerWindowWitnesses.

Import ModaDecompilerApp.

Local Open Scope string_scope.
Local Open Scope list_scope.

Lemma open_file_reads_the_header_only_witness :
  open_file (J := py_json) DemoWindow.fs "/in/header.moda" init
  = (inr tt,
     set_tracks_label (tracks_are 2)
       (set_mode_label (play_mode_is (JStr "sequential"))
          (set_file_label (fixed "header.moda")
             (set_current_file (Some "/in/header.moda") init)))).
Proof.
  apply (@open_file_reads_the_header_only py_json DemoWindow.fs "/in/header.moda" init
           Demo.tracks "sequential" DemoWindow.thumb DemoWindow.header_len []).
  - discriminate.
  - reflexivity.
  - reflexivity.
  - vm_compute. reflexivity.
Defined.

Lemma open_file_keeps_old_info_on_bad_magic_witness :
  exists a',
    open_file (J := py_json) DemoWindow.fs "/in/song.wav" init = (inr tt, a') /\
    current_file a' = Some "/in/song.wav" /\
    file_label a' = fixed "song.wav" /\
    messages a' = [failed_to_read_info BadMagic] /\
    mode_label a' = fixed "Play Mode: -" /\
    tracks_label a' = fixed "Tracks: 0".
Proof.
  apply (@open_file_keeps_old_info_on_bad_magic py_json DemoWindow.fs "/in/song.wav" init
           (list_byte_of_string "RIFF0000WAVE")).
  - discriminate.
  - reflexivity.
  - discriminate.
Defined.

Lemma extract_files_reports_the_metadata_count_witness :
  extract_files (J := py_json) DemoWindow.fs (DemoWindow.ready "/in/untitled.moda")
  = (inr tt,
     show (extracted 0 "/out")
       (write_out (DemoWindow.unpacked (JObj [])) (DemoWindow.ready "/in/untitled.moda"))).
Proof.
  apply extract_files_reports_the_metadata_count
    with (src := Demo.fs) (file := "/in/untitled.moda") (tracks := Demo.tracks)
         (thumb := DemoWindow.thumb) (js := DemoCodec.empty_meta_text)
         (jl := DemoCodec.empty_meta_len) (sec := DemoWindow.sec)
         (count := DemoWindow.count) (records := DemoWindow.records) (v := JArr []);
    try reflexivity; discriminate.
Defined.

Lemma extract_files_reports_failure_after_unpacking_witness :
  extract_files (J := py_json) DemoWindow.fs (DemoWindow.ready "/in/counted.moda")
  = (inr tt,
     show (failed_to_extract TypeError)
       (write_out (DemoWindow.unpacked DemoWindow.counted_meta)
          (DemoWindow.ready "/in/counted.moda"))).
Proof.
  apply extract_files_reports_failure_after_unpacking
    with (src := Demo.fs) (file := "/in/counted.moda") (tracks := Demo.tracks)
         (thumb := DemoWindow.thumb) (js := DemoWindow.counted_meta_text)
         (jl := DemoWindow.counted_meta_len) (sec := DemoWindow.sec)
         (count := DemoWindow.count) (records := DemoWindow.records);
    try reflexivity; discriminate.
Defined.

End DecompilerWindowWitnesses.

(** * Loading a container into the player *)

Section Loading.
Context {J : JsonModule}.
Variables gettempdir mkdtemp : string.

Import ModaPlayer.

Lemma run_on_file (A : Type) (m : M io A) (p : player) (f f' : io) (r : exn + A) :
  m f = (r, f') -> on_file m (p, f) = (r, (p, f')).
Proof. intros E. unfold on_file. cbn [fst snd]. now rewrite E. Qed.

Lemma session_on_file (A : Type) (m : M io A) : keeps_session (on_file m).
Proof. intros [p f]. unfold on_file. cbn [fst snd]. now destruct (m f). Qed.

Lemma session_ret (A : Type) (a : A) : keeps_session (ret a).
Proof. intros s. reflexivity. Qed.

Lemma session_lift (A : Type) (r : exn + A) : keeps_session (lift r).
Proof. intros s. reflexivity. Qed.

Lemma session_raise (A : Type) (e : exn) : keeps_session (raise (A := A) e).
Proof. intros s. reflexivity. Qed.

Lemma session_gets (A : Type) (g : player * io -> A) : keeps_session (gets g).
Proof. intros s. reflexivity. Qed.

Lemma session_on_self (g : player -> player) :
  (forall p, session (g p) = session p) -> keeps_session (on_self g).
Proof. intros H [p f]. apply H. Qed.

Lemma session_bind (A B : Type) (m : M (player * io) A) (k : A -> M (player * io) B) :
  keeps_session m -> (forall a, keeps_session (k a)) -> keeps_session (bind m k).
Proof.
  intros Hm Hk s. unfold bind. specialize (Hm s).
  destruct (m s) as [[e|a] s']; [exact Hm|].
  rewrite (Hk a s'). exact Hm.
Qed.

Lemma session_for_range (n : nat) (body : M (player * io) unit) :
  keeps_session body -> keeps_session (for_range n body).
Proof.
  intros H. induction n as [|n IH]; simpl; [apply session_ret|].
  apply session_bind; auto.
Qed.

Lemma session_try_except (A : Type) (m : M (player * io) A)
    (handler : exn -> M (player * io) A) :
  keeps_session m -> (forall e, keeps_session (handler e)) ->
  keeps_session (try_except m handler).
Proof.
  intros Hm Hh s. unfold try_except. specialize (Hm s).
  destruct (m s) as [[e|a] s']; [|exact Hm].
  rewrite (Hh e s'). exact Hm.
Qed.

Ltac session :=
  repeat first
    [ apply session_on_file | apply session_ret | apply session_lift | apply session_gets
    | apply session_raise
    | apply session_on_self; intros; reflexivity
    | apply session_for_range
    | apply session_bind; [|intros] ].

Lemma session_load_body : keeps_session (load_body gettempdir mkdtemp).
Proof.
  unfold load_body, load_metadata, load_thumbnail, load_tracks, load_track.
  apply session_bind.
  - apply session_bind; [session|]. intros magic.
    destruct (negb (bytes_eqb magic MODA_MAGIC)); session.
  - intros meta. apply session_bind.
    + apply session_bind; [session|]. intros n. destruct (0 <? n)%N; session.
    + intros _. session.
Qed.

Lemma load_moda_session (data : list byte) (self : player) :
  session (fst (snd (load_moda gettempdir mkdtemp data self))) = session self.
Proof.
  unfold load_moda. apply session_try_except.
  - apply session_load_body.
  - intros e. apply session_raise.
Qed.

(** Loading never touches the session.  Whatever the file holds, and
    whether [load_moda] returns or raises, the cursor, the playing flag, the
    sounds, the threads and the channels of the mixer are what they were:
    a player that was playing goes on playing. *)
Theorem load_moda_leaves_the_session (data : list byte) (self : player) :
  session (fst (snd (load_moda gettempdir mkdtemp data self))) = session self.
Proof. apply load_moda_session. Qed.

End Loading.

Section LoadingBuilt.
Context {J : JsonModule}.
Variables gettempdir mkdtemp : string.

Import ModaCompiler ModaPlayer.

Lemma load_track_record (fs : filesystem) (t : string) (r rest : list byte)
    (w : list (string * list byte)) (p : player) :
  track_record fs t = inr r ->
  temp_dir p = Some mkdtemp ->
  load_track (p, at_ (r ++ rest) w)
  = (inr tt, (p, at_ rest (w ++ [(os_path_join mkdtemp (basename t), content fs t)]))).
Proof.
  unfold track_record, load_track. intros H Hd.
  do 4 step_sum H. inversion H; subst r; clear H.
  apply open_rb_inv in E. destruct E as [Hn Hfs].
  rewrite <- !app_assoc.
  erewrite run_bind by (apply run_on_file, read_H_app; eassumption).
  erewrite run_bind by (apply run_on_file, read_str_app; eassumption).
  erewrite run_bind by (apply run_on_file, read_I_app; eassumption).
  erewrite run_bind by apply run_on_file, f_read_app.
  erewrite run_bind by reflexivity. cbn [fst]. rewrite Hd.
  erewrite run_bind by reflexivity.
  apply run_on_file. rewrite open_wb_ok by (rewrite names_directory_join; assumption).
  unfold content. now rewrite Hfs.
Qed.

Lemma load_track_records (fs : filesystem) (ts : list string) (p : player) :
  temp_dir p = Some mkdtemp ->
  forall (rs rest : list byte) (w : list (string * list byte)),
  track_records fs ts = inr rs ->
  for_range (length ts) load_track (p, at_ (rs ++ rest) w)
  = (inr tt, (p, at_ rest (w ++ track_files fs mkdtemp ts))).
Proof.
  intros Hd. induction ts as [|t ts IH]; simpl; intros rs rest w H.
  - inversion H. unfold ret. simpl. now rewrite app_nil_r.
  - do 2 step_sum H. inversion H; subst rs; clear H.
    rewrite <- app_assoc.
    erewrite run_bind by (apply load_track_record; eassumption).
    rewrite (IH _ _ _ eq_refl). now rewrite <- app_assoc.
Qed.

Lemma load_thumbnail_section (fs : filesystem) (thumb : option string)
    (sec rest : list byte) (w : list (string * list byte)) (p : player) :
  thumbnail_section fs thumb = inr sec ->
  load_thumbnail gettempdir (p, at_ (sec ++ rest) w)
  = (inr tt,
     (match truthy_path thumb with
      | Some t => set_thumbnail_path (Some (os_path_join gettempdir (basename t))) p
      | None => p
      end,
      at_ rest (w ++ thumbnail_file fs gettempdir thumb))).
Proof.
  unfold thumbnail_section, thumbnail_file, load_thumbnail.
  destruct (truthy_path thumb) as [t|]; intros H.
  - do 4 step_sum H. inversion H; subst sec; clear H.
    apply open_rb_inv in E. destruct E as [Hn Hfs].
    rewrite <- !app_assoc.
    erewrite run_bind by (apply run_on_file, read_H_app; eassumption).
    rewrite (named_file_has_name _ Hn E0).
    erewrite run_bind by (apply run_on_file, read_str_app; eassumption).
    erewrite run_bind by (apply run_on_file, read_I_app; eassumption).
    erewrite run_bind by apply run_on_file, f_read_app.
    erewrite run_bind by reflexivity. cbn [fst snd].
    apply run_on_file. rewrite open_wb_ok by (rewrite names_directory_join; assumption).
    unfold content. now rewrite Hfs.
  - erewrite run_bind by (apply run_on_file, read_H_app; eassumption).
    simpl. unfold ret. now rewrite app_nil_r.
Qed.

(** Loading any container whose parts are well formed and whose metadata
    is an object. *)
Lemma load_parts (fs : filesystem) (tracks : list string) (thumb : option string)
    (js jl sec count records junk : list byte) (meta mode listed : json) (self : player) :
  struct_pack_I (len js) = inr jl ->
  json_loads js = inr meta ->
  py_get meta "play_mode" (JStr "sequential") = inr mode ->
  py_get meta "tracks" (JArr []) = inr listed ->
  thumbnail_section fs thumb = inr sec ->
  struct_pack_H (len tracks) = inr count ->
  track_records fs tracks = inr records ->
  load_moda gettempdir mkdtemp (MODA_MAGIC ++ jl ++ js ++ sec ++ count ++ records ++ junk) self
  = (inr meta,
     (set_temp_dir (Some mkdtemp)
        (match truthy_path thumb with
         | Some t => set_thumbnail_path (Some (os_path_join gettempdir (basename t)))
                       (set_tracks_meta listed (set_play_mode mode self))
         | None => set_tracks_meta listed (set_play_mode mode self)
         end),
      at_ junk (thumbnail_file fs gettempdir thumb ++ track_files fs mkdtemp tracks))).
Proof.
  intros Hl Hj Hm Ht Hs Hc Hr.
  unfold load_moda, try_except, load_body.
  change {| unread := ?b; written := ?w |} with (at_ b w).
  erewrite run_bind; cycle 1.
  { unfold load_metadata.
    erewrite run_bind by (apply run_on_file, (@f_read_exact 4); reflexivity).
    rewrite bytes_eqb_refl. cbn [negb].
    erewrite run_bind by (apply run_on_file, read_I_app; eassumption).
    erewrite run_bind by apply run_on_file, f_read_app.
    erewrite run_bind by (unfold lift; rewrite Hj; reflexivity).
    erewrite run_bind by (unfold lift; rewrite Hm; reflexivity).
    erewrite run_bind by reflexivity.
    erewrite run_bind by (unfold lift; rewrite Ht; reflexivity).
    erewrite run_bind by reflexivity.
    reflexivity. }
  cbn [fst snd].
  erewrite run_bind by (apply load_thumbnail_section; eassumption).
  erewrite run_bind; cycle 1.
  { unfold load_tracks.
    erewrite run_bind by reflexivity. cbn [fst snd].
    erewrite run_bind by (apply run_on_file, read_H_app; eassumption).
    unfold len. rewrite Nat2N.id.
    apply load_track_records; [reflexivity | eassumption]. }
  reflexivity.
Qed.

(** [load_moda] on what [build_moda_file] wrote. *)
Lemma load_built (fs : filesystem) (writable : string -> bool) (tracks : list string)
    (mode : string) (thumb : option string) (output_path : string)
    (out : list byte) (self : player) :
  build_moda_file fs writable tracks mode thumb output_path = inr out ->
  json_loads (json_dumps (build_meta tracks mode thumb)) = inr (build_meta tracks mode thumb) ->
  load_moda gettempdir mkdtemp out self
  = (inr (build_meta tracks mode thumb),
     (after_loading self gettempdir mkdtemp tracks mode thumb,
      {| unread := [];
         written := thumbnail_file fs gettempdir thumb ++ track_files fs mkdtemp tracks |})).
Proof.
  intros Hb Hj.
  destruct (build_moda_file_layout _ _ _ _ _ _ Hb)
    as (json_len & sec & count & records & Hl & Hs & Hc & Hr & ->).
  replace (MODA_MAGIC ++ json_len ++ json_dumps (build_meta tracks mode thumb)
           ++ sec ++ count ++ records)
    with (MODA_MAGIC ++ json_len ++ json_dumps (build_meta tracks mode thumb)
          ++ sec ++ count ++ records ++ []) by now rewrite app_nil_r.
  erewrite load_parts with (mode := JStr mode)
    (listed := JArr (map track_entry (enumerate tracks))); try eassumption; try reflexivity.
  unfold after_loading. destruct (truthy_path thumb); reflexivity.
Qed.

(** Compile, then load.  [load_moda] on a container [build_moda_file] built
    returns the metadata, writes the thumbnail into the system's temporary
    directory and every track, in order and with its bytes, into the fresh
    directory; the player then holds the play mode and the track list of the
    container.  Its thumbnail path is the new thumbnail when the container
    has one and is otherwise left as it was, so after a container without a
    thumbnail the player still points at the thumbnail loaded before. *)
Theorem load_moda_of_built_container (fs : filesystem) (writable : string -> bool) (tracks : list string)
    (mode : string) (thumb : option string) (output_path : string)
    (out : list byte) (self : player) :
  build_moda_file fs writable tracks mode thumb output_path = inr out ->
  json_loads (json_dumps (build_meta tracks mode thumb)) = inr (build_meta tracks mode thumb) ->
  load_moda gettempdir mkdtemp out self
  = (inr (build_meta tracks mode thumb),
     (after_loading self gettempdir mkdtemp tracks mode thumb,
      {| unread := [];
         written := thumbnail_file fs gettempdir thumb ++ track_files fs mkdtemp tracks |})).
Proof. apply load_built. Qed.

End LoadingBuilt.

(** * From the compiler to the mixer *)

Section Session.
Context {J : JsonModule}.
Variables gettempdir mkdtemp : string.
Variable Sound_loads : string -> bool.
Variable Thread_starts : nat -> bool.
Variable frames : nat.

Import ModaCompiler ModaPlayer.

Lemma track_entries_named (tracks : list string) (i : nat) :
  Forall2 track_named (map track_entry (enumerate_from i tracks)) (map basename tracks).
Proof.
  revert i. induction tracks as [|t tracks IH]; intros i; simpl; constructor.
  - reflexivity.
  - apply IH.
Qed.

Lemma after_loading_lists_files (self : player) (tracks : list string) (mode : string)
    (thumb : option string) :
  lists_files (after_loading self gettempdir mkdtemp tracks mode thumb) mkdtemp
    (map basename tracks).
Proof.
  split; [reflexivity|]. eexists. split; [reflexivity|]. apply track_entries_named.
Qed.

(** Compile, load, play, in any mode but Parallel.  A container built from
    [skipped ++ first :: rest] is loaded into a player whose cursor is at 0;
    the extracted files of [skipped] do not load as sounds and that of
    [first] does.  With room for a call of [play_sequential] for each track
    of [skipped] and one more, inside one another, [play] leaves the cursor
    on [first], holds the one sound loaded from its extracted file, and
    starts it on the first free channel, marking the player as playing; when
    no channel is free it starts nothing and the player is not marked.  With
    room for [frames] calls and that many tracks or more in [skipped],
    [play] raises [RecursionError] with the cursor moved past [frames]
    tracks and nothing started. *)
Theorem compile_load_play_sequential (fs : filesystem) (writable : string -> bool) (skipped rest : list string)
    (first mode : string) (thumb : option string) (output_path : string)
    (out : list byte) (self : player) :
  build_moda_file fs writable (skipped ++ first :: rest) mode thumb output_path = inr out ->
  json_loads (json_dumps (build_meta (skipped ++ first :: rest) mode thumb))
  = inr (build_meta (skipped ++ first :: rest) mode thumb) ->
  mode <> "parallel"%string ->
  current_track self = 0 ->
  (forall t, In t skipped -> Sound_loads (os_path_join mkdtemp (basename t)) = false) ->
  Sound_loads (os_path_join mkdtemp (basename first)) = true ->
  exists (p : player) (f : io),
    load_moda gettempdir mkdtemp out self
    = (inr (build_meta (skipped ++ first :: rest) mode thumb), (p, f)) /\
    (length skipped < frames ->
     play Sound_loads Thread_starts frames p =
     let sound := sound_of mkdtemp (basename first) in
     let q := set_sound_objects [sound] (set_current_track (length skipped) p) in
     match find_channel (channels self) with
     | Some i =>
         (inr tt, set_is_playing true (set_channels (channel_play i sound (channels self)) q))
     | None => (inr tt, q)
     end) /\
    (frames <= length skipped ->
     play Sound_loads Thread_starts frames p
     = (inl RecursionError, set_current_track frames p)).
Proof.
  intros Hb Hj Hmode Hcur Hfail Hfirst.
  eexists. eexists. split.
  { eapply load_built; eassumption. }
  set (p := after_loading self gettempdir mkdtemp (skipped ++ first :: rest) mode thumb).
  assert (Hl : lists_files p mkdtemp (map basename (skipped ++ first :: rest)))
    by apply after_loading_lists_files.
  assert (Hp : current_track p = 0) by exact Hcur.
  assert (Hplay : play Sound_loads Thread_starts frames p
                  = play_sequential Sound_loads frames p).
  { unfold play. erewrite run_bind by reflexivity.
    assert (Ht : py_truthy (tracks_meta p) = true).
    { unfold p. cbn [tracks_meta after_loading py_truthy]. unfold enumerate.
      destruct skipped; reflexivity. }
    rewrite Ht. cbn [negb]. erewrite run_bind by reflexivity.
    assert (Hm : py_eq_str (play_mode p) "parallel" = false).
    { unfold p. cbn [play_mode after_loading py_eq_str].
      apply String.eqb_neq. exact Hmode. }
    now rewrite Hm. }
  assert (Hskip : forall i g, i < length skipped ->
            nth_error (map basename (skipped ++ first :: rest)) i = Some g ->
            Sound_loads (os_path_join mkdtemp g) = false).
  { intros i g Hi Hg. rewrite nth_error_map in Hg.
    destruct (nth_error (skipped ++ first :: rest) i) as [t|] eqn:E; [|discriminate].
    inversion Hg; subst g. apply Hfail.
    rewrite nth_error_app1 in E by lia. eapply nth_error_In, E. }
  rewrite Hplay. split.
  - intros Hroom.
    rewrite play_sequential_starts
      with (dir := mkdtemp) (files := map basename (skipped ++ first :: rest))
           (j := length skipped) (f := basename first).
    + rewrite Hp. reflexivity.
    + exact Hl.
    + rewrite Hp. intros i g Hi. apply Hskip. lia.
    + rewrite Hp. cbn [Nat.add]. rewrite nth_error_map, nth_error_app2 by lia.
      now rewrite Nat.sub_diag.
    + exact Hfirst.
    + exact Hroom.
  - intros Hroom.
    rewrite play_sequential_overflows
      with (dir := mkdtemp) (files := map basename (skipped ++ first :: rest)).
    + rewrite Hp. reflexivity.
    + exact Hl.
    + rewrite Hp, length_map, length_app. simpl. lia.
    + rewrite Hp. intros i g Hi. apply Hskip. lia.
Qed.


End Session.

Section SessionWitnesses.

Import ModaPlayer.

Local Open Scope string_scope.
Local Open Scope list_scope.

Lemma load_moda_of_built_container_witness :
  ModaPlayer.load_moda (J := py_json) "/tmp" "/tmp/moda_x" Demo.container ModaPlayer.init
  = (inr (ModaCompiler.build_meta Demo.tracks "sequential" (Some "/art/cover.png")),
     (after_loading ModaPlayer.init "/tmp" "/tmp/moda_x" Demo.tracks "sequential"
        (Some "/art/cover.png"),
      {| unread := [];
         written := thumbnail_file Demo.fs "/tmp" (Some "/art/cover.png")
                    ++ track_files Demo.fs "/tmp/moda_x" Demo.tracks |})).
Proof.
  apply load_moda_of_built_container with (writable := fun _ => true) (output_path := "/music/album.moda");
    vm_compute; reflexivity.
Defined.

Lemma compile_load_play_sequential_witness :
  exists (p : player) (f : io),
    ModaPlayer.load_moda (J := py_json) "/tmp" "/tmp/moda_x" Demo.container ModaPlayer.init
    = (inr (ModaCompiler.build_meta Demo.tracks "sequential" (Some "/art/cover.png")), (p, f)) /\
    ModaPlayer.play DemoSession.loads DemoPlayer.every_thread_starts 1000 p
    = (inr tt,
       set_is_playing true
         (set_channels (Some DemoSession.theme :: repeat None 7)
            (set_sound_objects [DemoSession.theme] (set_current_track 1 p)))) /\
    ModaPlayer.play DemoSession.loads DemoPlayer.every_thread_starts 1 p
    = (inl RecursionError, set_current_track 1 p).
Proof.
  destruct (@compile_load_play_sequential py_json "/tmp" "/tmp/moda_x" DemoSession.loads
              DemoPlayer.every_thread_starts 1000 Demo.fs (fun _ => true)
              ["/music/intro.wav"] [] "/music/theme.ogg" "sequential"
              (Some "/art/cover.png") "/music/album.moda" Demo.container ModaPlayer.init)
    as (p & f & Hload & Hplay & _).
  - vm_compute; reflexivity.
  - vm_compute; reflexivity.
  - discriminate.
  - reflexivity.
  - intros t [<-|[]]. reflexivity.
  - reflexivity.
  - exists p, f. split; [exact Hload|]. split; [apply Hplay; simpl; lia|].
    destruct (@compile_load_play_sequential py_json "/tmp" "/tmp/moda_x" DemoSession.loads
                DemoPlayer.every_thread_starts 1 Demo.fs (fun _ => true)
                ["/music/intro.wav"] [] "/music/theme.ogg" "sequential"
                (Some "/art/cover.png") "/music/album.moda" Demo.container ModaPlayer.init)
      as (p1 & f1 & Hload1 & _ & Hover).
    + vm_compute; reflexivity.
    + vm_compute; reflexivity.
    + discriminate.
    + reflexivity.
    + intros t [<-|[]]. reflexivity.
    + reflexivity.
    + rewrite Hload in Hload1. inversion Hload1; subst p1 f1. apply Hover. simpl. lia.
Defined.


End SessionWitnesses.

(** * A sequential session from Play to the end of the list *)

Section Listening.

Import ModaPlayer.

Variable Sound_loads : string -> bool.
Variable Thread_starts : nat -> bool.
Variable frames : nat.

Lemma fall_silent_play (c : list (option Sound)) (i : nat) (s : Sound) :
  find_channel c = Some i -> fall_silent i (channel_play i s c) = c.
Proof.
  revert i. induction c as [|[x|] c IH]; simpl; intros i H; try discriminate.
  - destruct (find_channel c) as [j|] eqn:E; [|discriminate]. inversion H; subst i.
    simpl. now rewrite IH.
  - inversion H; subst i. reflexivity.
Qed.

Lemma fall_silent_free (c : list (option Sound)) (i : nat) :
  find_channel c = Some i -> fall_silent i c = c.
Proof.
  revert i. induction c as [|[x|] c IH]; simpl; intros i H; try discriminate.
  - destruct (find_channel c) as [j|] eqn:E; [|discriminate]. inversion H; subst i.
    simpl. now rewrite IH.
  - inversion H; subst i. reflexivity.
Qed.

Section OneList.

Variables (p : player) (dir : string) (files : list string) (i : nat).
Hypothesis Hlists : lists_files p dir files.
Hypothesis Hfree : find_channel (channels p) = Some i.
Hypothesis Hloads : forall f, In f files -> Sound_loads (os_path_join dir f) = true.

Lemma lists_files_len : py_len (tracks_meta p) = inr (length files).
Proof.
  destruct Hlists as (_ & entries & Ht & Hn). rewrite Ht. cbn [py_len py_iter].
  now rewrite (named_length Hn).
Qed.

(** The end event of track [k] when another track follows. *)
Lemma end_event_advances (k : nat) (f g : string) :
  nth_error files (S k) = Some g ->
  check_events Sound_loads (S frames) [USEREVENT] (sound_ends i (playing p dir i k f))
  = (inr true, playing p dir i (S k) g).
Proof.
  intros Hg.
  assert (Hlt : S k < length files) by (apply nth_error_Some; congruence).
  set (q := sound_ends i (playing p dir i k f)).
  assert (Hq : play_sequential Sound_loads (S frames) (set_current_track (k + 1) q)
               = (inr tt, playing p dir i (S k) g)).
  { rewrite play_sequential_starts with (dir := dir) (files := files) (j := 0) (f := g).
    - cbn [channels current_track sound_ends set_channels set_current_track playing q].
      rewrite fall_silent_play by exact Hfree. rewrite Hfree.
      unfold playing. cbn. now rewrite Nat.add_0_r, Nat.add_1_r.
    - exact Hlists.
    - cbn [current_track set_current_track]. intros; lia.
    - cbn [current_track set_current_track]. now rewrite Nat.add_0_r, Nat.add_1_r.
    - apply Hloads. eapply nth_error_In, Hg.
    - lia. }
  unfold check_events. cbn [on_events on_event].
  erewrite run_bind; cycle 1.
  { erewrite run_bind; cycle 1.
    { erewrite run_bind by reflexivity.
      change (current_track q) with k.
      erewrite run_bind by reflexivity.
      erewrite run_bind by reflexivity.
      change (tracks_meta (set_current_track (k + 1) q)) with (tracks_meta p).
      erewrite run_bind by (unfold lift; rewrite lists_files_len; reflexivity).
      change (current_track (set_current_track (k + 1) q)) with (k + 1).
      replace (k + 1 <? length files) with true by (symmetry; apply Nat.ltb_lt; lia).
      exact Hq. }
    reflexivity. }
  reflexivity.
Qed.

(** The end event of the last track. *)
Lemma end_event_of_the_last (k : nat) (f : string) :
  S k = length files ->
  check_events Sound_loads (S frames) [USEREVENT] (sound_ends i (playing p dir i k f))
  = (inr false, played_out p dir f).
Proof.
  intros Hk.
  set (q := sound_ends i (playing p dir i k f)).
  unfold check_events. cbn [on_events on_event].
  erewrite run_bind; cycle 1.
  { erewrite run_bind; cycle 1.
    { erewrite run_bind by reflexivity.
      change (current_track q) with k.
      erewrite run_bind by reflexivity.
      erewrite run_bind by reflexivity.
      change (tracks_meta (set_current_track (k + 1) q)) with (tracks_meta p).
      erewrite run_bind by (unfold lift; rewrite lists_files_len; reflexivity).
      change (current_track (set_current_track (k + 1) q)) with (k + 1).
      replace (k + 1 <? length files) with false by (symmetry; apply Nat.ltb_ge; lia).
      reflexivity. }
    reflexivity. }
  unfold gets, played_out, q, set_current_track, set_is_playing, sound_ends, set_channels,
    playing.
  cbn [temp_dir current_track is_playing tracks_meta play_mode thumbnail_path audio_threads
       sound_objects channels threads fst snd].
  now rewrite fall_silent_play by exact Hfree.
Qed.

Variable a : ModaPlayerApp.app.
Hypothesis Hplayer : ModaPlayerApp.the_player a = p.
Hypothesis Hfile : ModaCompiler.truthy_path (ModaPlayerApp.current_file a) <> None.
Hypothesis Hmode : play_mode p <> JStr "parallel".
Hypothesis Hcursor : current_track p = 0.

Lemma listen_first (f : string) :
  nth_error files 0 = Some f ->
  ModaPlayerApp.play Sound_loads Thread_starts (S frames) a = (inr tt, pressed a (playing p dir i 0 f)).
Proof.
  intros Hf. unfold ModaPlayerApp.play.
  erewrite run_bind by reflexivity.
  destruct (ModaCompiler.truthy_path (ModaPlayerApp.current_file a)); [|congruence].
  assert (Hplay : play Sound_loads Thread_starts (S frames) p = (inr tt, playing p dir i 0 f)).
  { unfold play. erewrite run_bind by reflexivity.
    assert (Ht : py_truthy (tracks_meta p) = true).
    { destruct Hlists as (_ & entries & Ht & Hn). rewrite Ht.
      destruct Hn; [destruct f; discriminate | reflexivity]. }
    rewrite Ht. cbn [negb]. erewrite run_bind by reflexivity.
    assert (Hb : py_eq_str (play_mode p) "parallel" = false).
    { destruct (py_eq_str (play_mode p) "parallel") eqn:E; [|reflexivity].
      apply py_eq_str_spec in E. contradiction. }
    rewrite Hb.
    rewrite play_sequential_starts with (dir := dir) (files := files) (j := 0) (f := f).
    - rewrite Hfree. unfold playing. cbn. rewrite Hcursor. reflexivity.
    - exact Hlists.
    - intros; lia.
    - now rewrite Hcursor.
    - apply Hloads. eapply nth_error_In, Hf.
    - lia. }
  erewrite run_bind; cycle 1.
  { unfold ModaPlayerApp.on_player. rewrite Hplayer, Hplay. reflexivity. }
  reflexivity.
Qed.

Lemma update_while_playing (q q' : player) (b : bool) :
  is_playing q = true ->
  check_events Sound_loads (S frames) [USEREVENT] q = (inr b, q') ->
  ModaPlayerApp.update_player Sound_loads (S frames) [USEREVENT] (pressed a q) = (inr tt, pressed a q').
Proof.
  intros Hq Hc. unfold ModaPlayerApp.update_player.
  erewrite run_bind by reflexivity. cbn [ModaPlayerApp.the_player pressed ModaPlayerApp.set_stop_btn
         ModaPlayerApp.set_play_btn ModaPlayerApp.set_player]. rewrite Hq.
  erewrite run_bind; cycle 1.
  { unfold ModaPlayerApp.on_player. cbn [ModaPlayerApp.the_player pressed ModaPlayerApp.set_stop_btn
         ModaPlayerApp.set_play_btn ModaPlayerApp.set_player].
    rewrite Hc. reflexivity. }
  reflexivity.
Qed.

Lemma listen_playing (n : nat) :
  forall f, nth_error files n = Some f ->
  listen Sound_loads Thread_starts (S frames) i n a = (inr tt, pressed a (playing p dir i n f)).
Proof.
  induction n as [|n IH]; intros f Hf.
  - now apply listen_first.
  - assert (Hlt : n < length files)
      by (assert (S n < length files) by (apply nth_error_Some; congruence); lia).
    destruct (nth_error files n) as [g|] eqn:Eg;
      [|apply nth_error_None in Eg; lia].
    cbn [listen]. erewrite run_bind by (apply IH; reflexivity).
    erewrite run_bind by reflexivity.
    apply update_while_playing with (b := true); [reflexivity|].
    now apply end_event_advances.
Qed.

Lemma listen_played_out (f : string) (extra : nat) :
  nth_error files (length files - 1) = Some f ->
  listen Sound_loads Thread_starts (S frames) i (length files + extra) a
  = (inr tt, pressed a (played_out p dir f)).
Proof.
  intros Hf.
  assert (Hlen : 0 < length files).
  { destruct files; [destruct (length (@nil string) - 1); discriminate | simpl; lia]. }
  induction extra as [|extra IH].
  - rewrite Nat.add_0_r.
    replace (length files) with (S (length files - 1)) at 1 by lia.
    cbn [listen]. erewrite run_bind by (apply listen_playing; exact Hf).
    erewrite run_bind by reflexivity.
    apply update_while_playing with (b := false); [reflexivity|].
    apply end_event_of_the_last. lia.
  - rewrite Nat.add_succ_r. cbn [listen]. erewrite run_bind by exact IH.
    erewrite run_bind by reflexivity.
    unfold ModaPlayerApp.update_player.
    erewrite run_bind by reflexivity.
    cbn. unfold ret, sound_ends, played_out, pressed. cbn.
    now rewrite fall_silent_free by exact Hfree.
Qed.

End OneList.

(** A sequential session, from Play to the end.  The window has a file
    open; its player lists [files], all of which load, is not in Parallel
    mode, has its cursor at 0 and channel [i] as its first free channel.
    After Play and [n] end events, polled one by one, track [n] is playing
    alone on channel [i] with the cursor on it.  After as many end events as
    there are tracks the player is no longer playing and its cursor is back
    at 0, and polling further changes nothing.  All along the Play button
    stays disabled and the Stop button enabled: when the list has played
    out, Play can only be pressed again after Stop.  Every track loading,
    no call of [play_sequential] is made inside another: there need be room
    for one. *)
Theorem sequential_session_plays_the_list_through (a : ModaPlayerApp.app)
    (dir : string) (files : list string) (i : nat) :
  let p := ModaPlayerApp.the_player a in
  lists_files p dir files ->
  find_channel (channels p) = Some i ->
  (forall f, In f files -> Sound_loads (os_path_join dir f) = true) ->
  ModaCompiler.truthy_path (ModaPlayerApp.current_file a) <> None ->
  play_mode p <> JStr "parallel" ->
  current_track p = 0 ->
  (forall n f, nth_error files n = Some f ->
     listen Sound_loads Thread_starts (S frames) i n a = (inr tt, pressed a (playing p dir i n f))) /\
  (forall f extra, nth_error files (length files - 1) = Some f ->
     listen Sound_loads Thread_starts (S frames) i (length files + extra) a
     = (inr tt, pressed a (played_out p dir f))).
Proof.
  intros p Hl Hfree Hloads Hfile Hmode Hcur. split.
  - intros n f Hf. eapply listen_playing; eauto.
  - intros f extra Hf. eapply listen_played_out; eauto.
Qed.

End Listening.

Section ListeningWitnesses.

Local Open Scope string_scope.
Local Open Scope list_scope.

Lemma sequential_session_plays_the_list_through_witness :
  let p := DemoPlayer.loaded "sequential" DemoPlayer.two in
  listen DemoPlayer.everything_loads DemoPlayer.every_thread_starts 1000 0 1
    DemoWindowPlayer.window
  = (inr tt, pressed DemoWindowPlayer.window (playing p DemoPlayer.dir 0 1 "b.wav")) /\
  listen DemoPlayer.everything_loads DemoPlayer.every_thread_starts 1000 0 2
    DemoWindowPlayer.window
  = (inr tt, pressed DemoWindowPlayer.window (played_out p DemoPlayer.dir "b.wav")).
Proof.
  destruct (@sequential_session_plays_the_list_through DemoPlayer.everything_loads
              DemoPlayer.every_thread_starts 999 DemoWindowPlayer.window DemoPlayer.dir
              DemoWindowPlayer.files 0) as [Hplaying Hout].
  - split; [reflexivity|]. eexists. split; [reflexivity|].
    repeat constructor.
  - reflexivity.
  - reflexivity.
  - discriminate.
  - discriminate.
  - reflexivity.
  - split.
    + apply (Hplaying 1 "b.wav"). reflexivity.
    + apply (Hout "b.wav" 0). reflexivity.
Defined.

End ListeningWitnesses.

(** * The window and the mixer *)

Section WindowInvariant.
Context {J : JsonModule}.

Import ModaPlayer.

Lemma at_rest_session (p q : player) : session p = session q -> at_rest q -> at_rest p.
Proof. unfold session, at_rest. intros E. inversion E. congruence. Qed.

Lemma stop_at_rest (p : player) : at_rest (snd (stop p)).
Proof. split; [reflexivity|]. apply mixer_stop_busy. Qed.

Lemma fall_silent_busy (i : nat) (c : list (option Sound)) :
  busy c = 0 -> busy (fall_silent i c) = 0.
Proof.
  unfold busy. revert i. induction c as [|[x|] c IH]; intros [|i]; simpl; intros H;
    try discriminate; auto.
Qed.

(** ** A call of [play] that raises *)

Lemma play_sequential_rec_raises (Sound_loads : string -> bool) (fuel : nat) :
  forall (p p' : player) (e : exn),
  play_sequential_rec Sound_loads fuel p = (inl e, p') ->
  is_playing p' = is_playing p /\ channels p' = channels p.
Proof.
  induction fuel as [|fuel IH]; intros p p' e; cbn [play_sequential_rec].
  - unfold raise. intros H. inversion H. auto.
  - unfold bind at 1. unfold gets at 1. unfold bind at 1. unfold gets at 1.
    unfold bind at 1. unfold lift at 1.
    destruct (py_len (tracks_meta p)) as [e0|n]; [intros H; inversion H; auto|].
    destruct (current_track p <? n); [|unfold ret; discriminate].
    unfold bind at 1. unfold lift at 1.
    destruct (py_index (tracks_meta p) (current_track p)) as [e0|track];
      [intros H; inversion H; auto|].
    unfold bind at 1. unfold lift at 1.
    destruct (py_item track "file") as [e0|file]; [intros H; inversion H; auto|].
    unfold bind at 1. unfold gets at 1. unfold bind at 1. unfold lift at 1.
    destruct (py_path_join (temp_dir p) file) as [e0|path]; [intros H; inversion H; auto|].
    unfold try_except, mixer_Sound.
    destruct (Sound_loads path).
    + unfold bind at 1. unfold ret at 1. unfold bind at 1. unfold modify at 1.
      unfold bind at 1. unfold gets at 1.
      destruct (find_channel (channels (set_sound_objects [{| source := path |}] p)));
        discriminate.
    + unfold bind at 1. unfold raise at 1. unfold bind at 1. unfold modify at 1.
      intros H. apply IH in H. exact H.
Qed.

Lemma load_sounds_frame (Sound_loads : string -> bool) (items : list json) :
  forall (p p' : player) (r : exn + unit),
  load_sounds Sound_loads items p = (r, p') ->
  is_playing p' = is_playing p /\ channels p' = channels p.
Proof.
  induction items as [|track items IH]; intros p p' r.
  - intros H. inversion H. auto.
  - cbn [load_sounds]. unfold bind at 1. unfold lift at 1.
    destruct (py_item track "file") as [e|file]; [intros H; inversion H; auto|].
    unfold bind at 1. unfold gets at 1. unfold bind at 1. unfold lift at 1.
    destruct (py_path_join (temp_dir p) file) as [e|path]; [intros H; inversion H; auto|].
    unfold bind at 1. unfold try_except, mixer_Sound.
    destruct (Sound_loads path).
    + unfold bind at 1. unfold ret at 1. unfold modify at 1.
      intros H. apply IH in H. exact H.
    + unfold bind at 1. unfold raise at 1. unfold ret at 1.
      intros H. apply IH in H. exact H.
Qed.

Lemma play_parallel_raises (Sound_loads : string -> bool)
    (Thread_starts : nat -> bool) (p p' : player) (e : exn) :
  play_parallel Sound_loads Thread_starts p = (inl e, p') -> is_playing p' = false.
Proof.
  unfold play_parallel.
  erewrite run_bind by reflexivity.
  erewrite run_bind by reflexivity.
  erewrite run_bind by reflexivity.
  match goal with
  | |- bind (lift ?r) _ ?q = _ -> _ =>
      set (stopped := q);
      assert (Hrest : is_playing stopped = false) by reflexivity;
      clearbody stopped
  end.
  destruct (py_iter (tracks_meta stopped)) as [e0|items].
  - intros H. inversion H. subst. exact Hrest.
  - erewrite run_bind by reflexivity.
    destruct (load_sounds Sound_loads items stopped) as [[e0|[]] q] eqn:El.
    + erewrite run_bind_raise by exact El. intros H. inversion H; subst.
      apply load_sounds_frame in El. destruct El as [Hp _]. congruence.
    + erewrite run_bind by exact El.
      erewrite run_bind by reflexivity.
      erewrite run_bind by reflexivity.
      erewrite run_bind by reflexivity.
      erewrite run_bind by reflexivity.
      apply load_sounds_frame in El. destruct El as [Hp _].
      match goal with
      | |- bind (start_threads ?t ?i ?l) _ ?s = _ -> _ =>
          destruct (start_threads t i l s) as [[e0|[]] q1] eqn:Es
      end.
      * erewrite run_bind_raise by exact Es. intros H. inversion H; subst.
        apply start_threads_frame in Es. destruct Es as [Hq _].
        cbn [is_playing set_audio_threads] in Hq. congruence.
      * erewrite run_bind by exact Es. discriminate.
Qed.

Lemma play_raises (Sound_loads : string -> bool) (Thread_starts : nat -> bool)
    (frames : nat) (p p' : player) (e : exn) :
  play Sound_loads Thread_starts frames p = (inl e, p') ->
  is_playing p = false -> is_playing p' = false.
Proof.
  unfold play. erewrite run_bind by reflexivity.
  destruct (negb (py_truthy (tracks_meta p))); [discriminate|].
  erewrite run_bind by reflexivity.
  destruct (py_eq_str (play_mode p) "parallel").
  - intros H _. eapply play_parallel_raises, H.
  - unfold play_sequential. intros H R.
    apply play_sequential_rec_raises in H. destruct H as [H1 H2]. congruence.
Qed.

(** ** The steps of [open_file] *)

Lemma quiet_ret (A : Type) (x : A) : quiet (ret x).
Proof. intros a. reflexivity. Qed.

Lemma quiet_lift (A : Type) (r : exn + A) : quiet (lift r).
Proof. intros a. reflexivity. Qed.

Lemma quiet_gets (A : Type) (g : ModaPlayerApp.app -> A) : quiet (gets g).
Proof. intros a. reflexivity. Qed.

Lemma quiet_modify (g : ModaPlayerApp.app -> ModaPlayerApp.app) :
  (forall a, ModaPlayerApp.the_player (g a) = ModaPlayerApp.the_player a) ->
  quiet (modify g).
Proof. intros H a. unfold modify. cbn [snd]. now rewrite H. Qed.

Lemma quiet_bind (A B : Type) (m : M ModaPlayerApp.app A)
    (k : A -> M ModaPlayerApp.app B) :
  quiet m -> (forall x, quiet (k x)) -> quiet (bind m k).
Proof.
  intros Hm Hk a. unfold bind. specialize (Hm a).
  destruct (m a) as [[e|x] a1]; [exact Hm|].
  rewrite (Hk x a1). exact Hm.
Qed.

Lemma quiet_try_except (A : Type) (m : M ModaPlayerApp.app A)
    (handler : exn -> M ModaPlayerApp.app A) :
  quiet m -> (forall e, quiet (handler e)) -> quiet (try_except m handler).
Proof.
  intros Hm Hh a. unfold try_except. specialize (Hm a).
  destruct (m a) as [[e|x] a1]; [|exact Hm].
  rewrite (Hh e a1). exact Hm.
Qed.

Ltac quiet :=
  repeat first
    [ apply quiet_ret | apply quiet_lift | apply quiet_gets
    | apply quiet_modify; intros; reflexivity
    | apply quiet_bind; [|intros] ].

Section Opening.

Variables (fs : filesystem) (gettempdir mkdtemp : string) (removal : option exn)
  (Image_opens : string -> bool).

Lemma quiet_load (file : string) :
  quiet (ModaPlayerApp.load fs gettempdir mkdtemp file).
Proof.
  intros a. unfold ModaPlayerApp.load, load_moda_at.
  destruct (open_rb fs file) as [e|data]; [reflexivity|].
  pose proof (load_moda_session gettempdir mkdtemp data (ModaPlayerApp.the_player a)) as H.
  destruct (load_moda gettempdir mkdtemp data (ModaPlayerApp.the_player a)) as [r s].
  exact H.
Qed.

Lemma quiet_add_rows (items : list json) : quiet (ModaPlayerApp.add_rows items).
Proof. induction items as [|track items IH]; cbn [ModaPlayerApp.add_rows]; quiet. exact IH. Qed.

Lemma quiet_show_thumbnail : quiet (ModaPlayerApp.show_thumbnail Image_opens).
Proof.
  unfold ModaPlayerApp.show_thumbnail. apply quiet_bind; [quiet|]. intros thumb.
  destruct (ModaCompiler.truthy_path thumb) as [path|]; [destruct (Image_opens path)|];
    quiet.
Qed.

Lemma cleanup_at_rest (p : player) : at_rest (snd (cleanup removal p)).
Proof.
  unfold cleanup. erewrite run_bind by reflexivity.
  destruct removal; apply stop_at_rest.
Qed.

Lemma show_file_at_rest (file : string) (a : ModaPlayerApp.app) :
  at_rest (ModaPlayerApp.the_player
             (snd (ModaPlayerApp.show_file fs gettempdir mkdtemp removal Image_opens file a))).
Proof.
  unfold ModaPlayerApp.show_file.
  unfold bind at 1. unfold ModaPlayerApp.on_player at 1.
  pose proof (cleanup_at_rest (ModaPlayerApp.the_player a)) as Hrest.
  destruct (cleanup removal (ModaPlayerApp.the_player a)) as [[e|[]] p1];
    [exact Hrest|].
  cbn [snd] in Hrest.
  match goal with
  | |- at_rest (ModaPlayerApp.the_player (snd (?m ?a1))) =>
      assert (Hq : quiet m)
  end.
  { repeat first
      [ apply quiet_load | apply quiet_show_thumbnail | apply quiet_add_rows
      | apply quiet_ret | apply quiet_lift | apply quiet_gets
      | apply quiet_modify; intros; reflexivity
      | apply quiet_bind; [|intros] ]. }
  eapply at_rest_session; [apply Hq|]. exact Hrest.
Qed.

Lemma open_file_at_rest (file : string) (a : ModaPlayerApp.app) :
  file <> EmptyString ->
  at_rest (ModaPlayerApp.the_player
             (snd (ModaPlayerApp.open_file fs gettempdir mkdtemp removal Image_opens file a))).
Proof.
  intros Hfile. unfold ModaPlayerApp.open_file.
  apply String.eqb_neq in Hfile. rewrite Hfile. unfold try_except.
  pose proof (show_file_at_rest file a) as Hrest.
  destruct (ModaPlayerApp.show_file _ _ _ _ _ _ a) as [[e|[]] a1]; exact Hrest.
Qed.

End Opening.

(** The Play button is enabled only while the player does not say it is
    playing.  In every state the window can come to, from its start, by
    files being opened, buttons pressed, the timer polling, sounds ending
    and the threads of [play_parallel] making their calls, in any order,
    with any files on disk and whatever fails on the way, a thread that
    cannot be started and a call that does not fit included: if the Play
    button is enabled, [is_playing] is false, so that the timer leaves the
    player alone.  The channels need not be silent then: a thread started
    before Stop was pressed plays its sound after it. *)
Theorem play_button_is_enabled_only_when_idle (a : ModaPlayerApp.app) :
  reachable a ->
  ModaPlayerApp.play_btn a = true ->
  is_playing (ModaPlayerApp.the_player a) = false.
Proof.
  induction 1 as [|a a' Hreach IH Hstep].
  - discriminate.
  - destruct Hstep.
    + (* a file is opened *)
      destruct (String.eqb file EmptyString) eqn:E.
      * unfold ModaPlayerApp.open_file. rewrite E. exact IH.
      * intros _. apply open_file_at_rest. now apply String.eqb_neq.
    + (* Play *)
      destruct (ModaPlayerApp.play Sound_loads Thread_starts frames a) as [r a1] eqn:E.
      cbn [snd].
      unfold ModaPlayerApp.play in E. erewrite run_bind in E by reflexivity.
      destruct (ModaCompiler.truthy_path (ModaPlayerApp.current_file a));
        [|inversion E; subst; exact IH].
      unfold bind at 1 in E. unfold ModaPlayerApp.on_player at 1 in E.
      destruct (play Sound_loads Thread_starts frames (ModaPlayerApp.the_player a))
        as [[e|[]] p'] eqn:Ep.
      * inversion E; subst. intros Hb. eapply play_raises; [exact Ep | exact (IH Hb)].
      * inversion E; subst. discriminate.
    + (* Stop *)
      intros _. reflexivity.
    + (* the timer *)
      destruct (ModaPlayerApp.update_player Sound_loads frames evs a) as [r a1] eqn:E.
      cbn [snd].
      unfold ModaPlayerApp.update_player in E. erewrite run_bind in E by reflexivity.
      destruct (is_playing (ModaPlayerApp.the_player a)) eqn:Ei;
        [|inversion E; subst; intros _; exact Ei].
      unfold bind at 1 in E. unfold ModaPlayerApp.on_player at 1 in E.
      destruct (check_events Sound_loads frames evs (ModaPlayerApp.the_player a))
        as [[e|b] p'];
        inversion E; subst; intros Hb; specialize (IH Hb); discriminate.
    + (* a sound ends *)
      exact IH.
    + (* a thread runs *)
      cbn [ModaPlayerApp.play_btn ModaPlayerApp.the_player ModaPlayerApp.set_player].
      intros Hb. rewrite <- (IH Hb).
      destruct (threads_run_bound [k] (ModaPlayerApp.the_player a)) as (Hf & _).
      cbn [threads_run fold_left] in Hf. now inversion Hf.
Qed.

End WindowInvariant.

(** * Opening a container in the player's window *)

Section OpeningBuilt.
Context {J : JsonModule}.

Import ModaCompiler.

Variables (fs : filesystem) (gettempdir mkdtemp : string) (Image_opens : string -> bool).

Lemma show_thumbnail_sets (a : ModaPlayerApp.app) :
  ModaPlayerApp.show_thumbnail Image_opens a
  = (inr tt,
     ModaPlayerApp.set_thumb_label (picture_of Image_opens (ModaPlayerApp.the_player a)) a).
Proof.
  unfold ModaPlayerApp.show_thumbnail, picture_of. erewrite run_bind by reflexivity.
  destruct (truthy_path (thumbnail_path (ModaPlayerApp.the_player a))) as [path|];
    [destruct (Image_opens path)|]; reflexivity.
Qed.

Lemma add_rows_entries (tracks : list string) :
  forall (i : nat) (a : ModaPlayerApp.app),
  ModaPlayerApp.add_rows (map track_entry (enumerate_from i tracks)) a
  = (inr tt,
     ModaPlayerApp.set_track_list
       (ModaPlayerApp.track_list a ++ map track_row (enumerate_from i tracks)) a).
Proof.
  induction tracks as [|t tracks IH]; intros i a.
  - cbn. rewrite app_nil_r. now destruct a.
  - cbn [enumerate_from map ModaPlayerApp.add_rows].
    erewrite run_bind by reflexivity.
    erewrite run_bind by reflexivity.
    erewrite run_bind by reflexivity.
    rewrite IH. unfold ModaPlayerApp.set_track_list.
    cbn [ModaPlayerApp.track_list ModaPlayerApp.the_player ModaPlayerApp.current_file
         ModaPlayerApp.file_label ModaPlayerApp.mode_label ModaPlayerApp.tracks_label
         ModaPlayerApp.thumb_label ModaPlayerApp.play_btn ModaPlayerApp.stop_btn
         ModaPlayerApp.messages].
    rewrite <- app_assoc. reflexivity.
Qed.

(** Compile, then open in the player.  When the dialog returns a file that
    holds a container [build_moda_file] built, and the removals of
    [cleanup] go through, [open_file] stops the player and loads the
    container into it, shows the file's name, the play mode and the number
    of tracks, lists one row per track with its order and name, enables
    both buttons and shows no error.  The picture is the one at the
    player's thumbnail path, if PIL opens it. *)
Theorem open_file_shows_the_container (src : filesystem) (writable : string -> bool) (tracks : list string)
    (mode : string) (thumb : option string) (output_path file : string)
    (out : list byte) (a : ModaPlayerApp.app) :
  build_moda_file src writable tracks mode thumb output_path = inr out ->
  json_loads (json_dumps (build_meta tracks mode thumb)) = inr (build_meta tracks mode thumb) ->
  file <> EmptyString ->
  open_rb fs file = inr out ->
  let p := after_loading (snd (ModaPlayer.stop (ModaPlayerApp.the_player a)))
             gettempdir mkdtemp tracks mode thumb in
  ModaPlayerApp.open_file fs gettempdir mkdtemp None Image_opens file a
  = (inr tt,
     {| ModaPlayerApp.the_player := p;
        ModaPlayerApp.current_file := Some file;
        ModaPlayerApp.file_label := ModaPlayerApp.fixed (basename file);
        ModaPlayerApp.mode_label := ModaPlayerApp.play_mode_is (JStr mode);
        ModaPlayerApp.tracks_label := ModaPlayerApp.tracks_are (length tracks);
        ModaPlayerApp.thumb_label := picture_of Image_opens p;
        ModaPlayerApp.track_list := map track_row (enumerate tracks);
        ModaPlayerApp.play_btn := true;
        ModaPlayerApp.stop_btn := true;
        ModaPlayerApp.messages := ModaPlayerApp.messages a |}).
Proof.
  intros Hb Hj Hfile Hopen p.
  unfold ModaPlayerApp.open_file. apply String.eqb_neq in Hfile. rewrite Hfile.
  unfold try_except, ModaPlayerApp.show_file.
  erewrite run_bind by reflexivity.
  erewrite run_bind; cycle 1.
  { unfold ModaPlayerApp.load, ModaPlayer.load_moda_at. rewrite Hopen.
    erewrite load_built by eassumption. reflexivity. }
  do 2 erewrite run_bind by reflexivity.
  do 2 erewrite run_bind by reflexivity.
  do 3 erewrite run_bind by reflexivity.
  erewrite run_bind by apply show_thumbnail_sets.
  do 3 erewrite run_bind by reflexivity.
  erewrite run_bind by apply add_rows_entries.
  erewrite run_bind by reflexivity.
  unfold modify. cbn. unfold enumerate. rewrite length_map, enumerate_from_length.
  reflexivity.
Qed.

End OpeningBuilt.

Section OpeningFails.
Context {J : JsonModule}.

Variables (fs : filesystem) (gettempdir mkdtemp : string) (Image_opens : string -> bool).

(** A file that does not load.  [open_file] has stopped the player before
    it tries to load, and the session stays stopped; what [load_moda] had
    stored in the player before it failed stays there.  The window reports
    the error and changes nothing else: it goes on showing the file it
    showed, with the buttons as they were. *)
Theorem open_file_that_fails_to_load (file : string) (a : ModaPlayerApp.app)
    (e : exn) (p' : player) (f : io) :
  file <> EmptyString ->
  ModaPlayer.load_moda_at fs gettempdir mkdtemp file
    (snd (ModaPlayer.stop (ModaPlayerApp.the_player a))) = (inl e, (p', f)) ->
  ModaPlayerApp.open_file fs gettempdir mkdtemp None Image_opens file a
  = (inr tt, ModaPlayerApp.show (ModaPlayerApp.failed_to_load e) (ModaPlayerApp.set_player p' a))
  /\ session p' = session (snd (ModaPlayer.stop (ModaPlayerApp.the_player a))).
Proof.
  intros Hfile Hload. split.
  - unfold ModaPlayerApp.open_file. apply String.eqb_neq in Hfile. rewrite Hfile.
    unfold try_except, ModaPlayerApp.show_file.
    rewrite run_bind
      with (s' := ModaPlayerApp.set_player
                    (snd (ModaPlayer.stop (ModaPlayerApp.the_player a))) a) (a := tt)
      by reflexivity.
    erewrite run_bind_raise; cycle 1.
    { unfold ModaPlayerApp.load.
      cbn [ModaPlayerApp.the_player ModaPlayerApp.set_player].
      rewrite Hload. reflexivity. }
    unfold modify. cbn [fst snd]. now destruct a.
  - unfold ModaPlayer.load_moda_at in Hload.
    destruct (open_rb fs file) as [e0|data].
    + inversion Hload. reflexivity.
    + pose proof (load_moda_session gettempdir mkdtemp data
                    (snd (ModaPlayer.stop (ModaPlayerApp.the_player a)))) as H.
      rewrite Hload in H. exact H.
Qed.

End OpeningFails.

Section WindowWitnesses.

Local Open Scope string_scope.
Local Open Scope list_scope.

Lemma open_file_shows_the_container_witness :
  let p := after_loading ModaPlayer.init "/tmp" "/tmp/moda_x" Demo.tracks "sequential"
             (Some "/art/cover.png") in
  ModaPlayerApp.open_file (J := py_json) DemoWindow.fs "/tmp" "/tmp/moda_x" None
    (fun _ => true) "/in/album.moda" ModaPlayerApp.init
  = (inr tt,
     {| ModaPlayerApp.the_player := p;
        ModaPlayerApp.current_file := Some "/in/album.moda";
        ModaPlayerApp.file_label := ModaPlayerApp.fixed "album.moda";
        ModaPlayerApp.mode_label := ModaPlayerApp.play_mode_is (JStr "sequential");
        ModaPlayerApp.tracks_label := ModaPlayerApp.tracks_are 2;
        ModaPlayerApp.thumb_label := ModaPlayerApp.image_of "/tmp/cover.png";
        ModaPlayerApp.track_list :=
          [(JNum 1, JStr "intro.wav"); (JNum 2, JStr "theme.ogg")];
        ModaPlayerApp.play_btn := true;
        ModaPlayerApp.stop_btn := true;
        ModaPlayerApp.messages := [] |}).
Proof.
  apply open_file_shows_the_container
    with (src := Demo.fs) (tracks := Demo.tracks) (mode := "sequential")
         (thumb := Some "/art/cover.png") (writable := fun _ => true) (output_path := "/music/album.moda")
         (out := Demo.container);
    try (vm_compute; reflexivity); discriminate.
Defined.

Lemma open_file_that_fails_to_load_witness :
  ModaPlayerApp.open_file (J := py_json) Demo.fs "/tmp" "/tmp/moda_x" None
    (fun _ => true) "/music/intro.wav" DemoWindowPlayer.window
  = (inr tt,
     ModaPlayerApp.show
       (ModaPlayerApp.failed_to_load (ErrorLoading NotAValidModaFile))
       (ModaPlayerApp.set_player
          (snd (ModaPlayer.stop (DemoPlayer.loaded "sequential" DemoPlayer.two)))
          DemoWindowPlayer.window))
  /\ session (snd (ModaPlayer.stop (DemoPlayer.loaded "sequential" DemoPlayer.two)))
     = session (snd (ModaPlayer.stop (DemoPlayer.loaded "sequential" DemoPlayer.two))).
Proof.
  apply open_file_that_fails_to_load with (f := {| unread := [x77; x61; x76; x65]; written := [] |}).
  - discriminate.
  - vm_compute. reflexivity.
Defined.

Lemma play_button_is_enabled_only_when_idle_witness :
  let opened :=
    snd (ModaPlayerApp.open_file (J := py_json) (fun _ => Some Demo.plain_container)
           "/tmp" "/tmp/moda_x" None (fun _ => true) "/in/plain.moda" ModaPlayerApp.init) in
  let playing :=
    snd (ModaPlayerApp.play DemoPlayer.everything_loads DemoPlayer.every_thread_starts 1000
           opened) in
  let stopped := snd (ModaPlayerApp.stop playing) in
  let looked :=
    ModaPlayerApp.set_player
      (ModaPlayer.thread_runs 0 (ModaPlayerApp.the_player stopped)) stopped in
  let played :=
    ModaPlayerApp.set_player
      (ModaPlayer.thread_runs 0 (ModaPlayerApp.the_player looked)) looked in
  ModaPlayerApp.play_btn played = true /\
  is_playing (ModaPlayerApp.the_player played) = false /\
  length (threads (ModaPlayerApp.the_player stopped)) = 2 /\
  ModaPlayer.busy (channels (ModaPlayerApp.the_player stopped)) = 0 /\
  ModaPlayer.busy (channels (ModaPlayerApp.the_player played)) = 1.
Proof.
  intros opened playing stopped looked played.
  split; [reflexivity|]. split; [|vm_compute; repeat split].
  apply (play_button_is_enabled_only_when_idle (J := py_json)).
  - eapply later; [|apply a_thread_runs].
    eapply later; [|apply a_thread_runs].
    eapply later; [|apply presses_stop].
    eapply later; [|apply presses_play].
    eapply later; [|apply opens].
    apply at_start.
  - reflexivity.
Defined.

End WindowWitnesses.

(** * The compiler's window *)

Section CompilerWindow.
Context {J : JsonModule}.

Import ModaCompilerApp.

Lemma del_map (A B : Type) (g : A -> B) (index : nat) (l : list A) :
  del index (map g l) = map g (del index l).
Proof. unfold del. now rewrite map_app, firstn_map, skipn_map. Qed.

Lemma add_tracks_mirrors (files : list string) (a : app) :
  mirrors a -> mirrors (snd (add_tracks files a)).
Proof.
  unfold mirrors. intros H. destruct files as [|f files]; [exact H|].
  cbn. rewrite H, map_app. reflexivity.
Qed.

Lemma remove_track_mirrors (index : nat) (others : list nat) (a : app) :
  mirrors a -> index < length (track_list a) ->
  remove_track (index :: others) a
  = (inr tt, set_tracks (del index (tracks a)) (set_track_list (del index (track_list a)) a))
  /\ mirrors (snd (remove_track (index :: others) a)).
Proof.
  unfold mirrors. intros H Hi.
  assert (Hlt : (index <? length (tracks a)) = true).
  { apply Nat.ltb_lt. rewrite H, length_map in Hi. exact Hi. }
  assert (E : remove_track (index :: others) a
              = (inr tt, set_tracks (del index (tracks a))
                           (set_track_list (del index (track_list a)) a))).
  { unfold remove_track. erewrite run_bind by reflexivity.
    erewrite run_bind by reflexivity. cbn [tracks set_track_list]. rewrite Hlt.
    reflexivity. }
  split; [exact E|]. rewrite E. cbn. rewrite H. apply del_map.
Qed.

Lemma del_beyond (A : Type) (index : nat) (l : list A) :
  length l <= index -> del index l = l.
Proof.
  intros H. unfold del. rewrite firstn_all2 by exact H.
  rewrite skipn_all2 by lia. apply app_nil_r.
Qed.

Lemma remove_track_any_mirrors (selection : list nat) (a : app) :
  mirrors a -> mirrors (snd (remove_track selection a)).
Proof.
  intros H. destruct selection as [|index others]; [exact H|].
  destruct (Nat.lt_ge_cases index (length (track_list a))) as [Hi|Hi].
  - now apply remove_track_mirrors.
  - unfold mirrors in *. unfold remove_track.
    erewrite run_bind by reflexivity. erewrite run_bind by reflexivity.
    cbn [tracks set_track_list].
    assert (Hge : (index <? length (tracks a)) = false).
    { apply Nat.ltb_ge. rewrite H, length_map in Hi. exact Hi. }
    rewrite Hge. cbn. rewrite del_beyond by exact Hi. exact H.
Qed.

Lemma choose_thumbnail_mirrors (Image_open : string -> exn + unit) (file : string)
    (a : app) :
  mirrors a -> mirrors (snd (choose_thumbnail Image_open file a)).
Proof.
  unfold mirrors, choose_thumbnail. intros H.
  destruct (String.eqb file EmptyString); [exact H|].
  erewrite run_bind by reflexivity. unfold try_except.
  unfold bind. unfold lift at 1. destruct (Image_open file); exact H.
Qed.

Lemma save_moda_mirrors (fs : filesystem) (writable : string -> bool) (file : string) (a : app) :
  mirrors a -> mirrors (snd (save_moda fs writable file a)).
Proof.
  unfold mirrors, save_moda. intros H.
  erewrite run_bind by reflexivity.
  destruct (tracks a) as [|t l] eqn:Et; [cbn; rewrite Et; exact H|].
  destruct (String.eqb file EmptyString); [cbn; rewrite Et; exact H|].
  unfold try_except.
  erewrite run_bind by reflexivity. erewrite run_bind by reflexivity.
  unfold bind. unfold lift at 1.
  destruct (ModaCompiler.build_moda_file fs writable (t :: l) (play_mode a) (thumbnail a) file);
    cbn; rewrite Et; exact H.
Qed.

Lemma edited_mirrors (a : app) : edited a -> mirrors a.
Proof.
  induction 1 as [|a a' _ IH Hstep]; [reflexivity|].
  destruct Hstep.
  - now apply add_tracks_mirrors.
  - now apply remove_track_any_mirrors.
  - now apply choose_thumbnail_mirrors.
  - exact IH.
  - now apply save_moda_mirrors.
Qed.

(** The list on the screen is always the list that will be packed.  In
    every state the compiler's window can come to, the rows of the list box
    are the base names of [self.tracks], in order; so removing a row that
    is there removes the track at the same position and never raises. *)
Theorem list_box_mirrors_the_tracks (a : app) (index : nat) (others : list nat) :
  edited a ->
  index < length (track_list a) ->
  track_list a = map basename (tracks a) /\
  remove_track (index :: others) a
  = (inr tt, set_tracks (del index (tracks a)) (set_track_list (del index (track_list a)) a)).
Proof.
  intros He Hi. pose proof (edited_mirrors He) as Hm. split; [exact Hm|].
  now apply remove_track_mirrors.
Qed.

(** What is saved is what the list shows.  From any state the window can
    come to, with at least one track and a file name chosen, when
    [build_moda_file] succeeds [save_moda] writes its container to that
    file and reports success; unpacking the container writes, after the
    thumbnail, one file per row of the list box, named by that row, in the
    order of the rows. *)
Theorem saved_container_unpacks_to_the_rows (fs : filesystem) (writable : string -> bool) (file dir : string)
    (out : list byte) (a : app) :
  edited a ->
  tracks a <> [] ->
  file <> EmptyString ->
  ModaCompiler.build_moda_file fs writable (tracks a) (play_mode a) (thumbnail a) file = inr out ->
  json_loads (json_dumps (ModaCompiler.build_meta (tracks a) (play_mode a) (thumbnail a)))
  = inr (ModaCompiler.build_meta (tracks a) (play_mode a) (thumbnail a)) ->
  save_moda fs writable file a = (inr tt, show (saved file) (write_out [(file, out)] a)) /\
  exists (meta : json) (files : list (string * list byte)),
    ModaDecompiler.extract_moda out dir
    = (inr meta,
       {| unread := [];
          written := thumbnail_file fs dir (thumbnail a) ++ files
                     ++ [(os_path_join dir "meta.json", json_dumps meta)] |}) /\
    map fst files = map (os_path_join dir) (track_list a).
Proof.
  intros He Ht Hfile Hb Hj. split.
  - unfold save_moda. erewrite run_bind by reflexivity.
    destruct (tracks a) as [|t l] eqn:Et; [contradiction|].
    apply String.eqb_neq in Hfile. rewrite Hfile. unfold try_except.
    erewrite run_bind by reflexivity. erewrite run_bind by reflexivity.
    erewrite run_bind by (unfold lift; rewrite Hb; reflexivity).
    reflexivity.
  - eexists. exists (track_files fs dir (tracks a)). split.
    + eapply extract_build; eassumption.
    + rewrite (edited_mirrors He). unfold track_files. rewrite !map_map. reflexivity.
Qed.

End CompilerWindow.

Section CompilerWindowWitnesses.

Local Open Scope string_scope.
Local Open Scope list_scope.

Lemma list_box_mirrors_the_tracks_witness :
  ModaCompilerApp.track_list DemoCompilerWindow.two_left
  = map basename (ModaCompilerApp.tracks DemoCompilerWindow.two_left) /\
  ModaCompilerApp.remove_track [1] DemoCompilerWindow.two_left
  = (inr tt,
     ModaCompilerApp.set_tracks ["/music/intro.wav"]
       (ModaCompilerApp.set_track_list ["intro.wav"] DemoCompilerWindow.two_left)).
Proof.
  apply (list_box_mirrors_the_tracks (J := py_json)) with (others := []).
  - eapply then_; [|apply removes with (selection := [1])].
    eapply then_; [|apply adds].
    eapply then_; [|apply chooses_mode]. apply fresh.
  - vm_compute; lia.
Defined.

Lemma saved_container_unpacks_to_the_rows_witness :
  ModaCompilerApp.save_moda (J := py_json) Demo.fs (fun _ => true) "/music/album.moda"
    DemoCompilerWindow.two_left
  = (inr tt,
     ModaCompilerApp.show (ModaCompilerApp.saved "/music/album.moda")
       (ModaCompilerApp.write_out [("/music/album.moda", Demo.plain_container)]
          DemoCompilerWindow.two_left)) /\
  exists (meta : json) (files : list (string * list byte)),
    ModaDecompiler.extract_moda (J := py_json) Demo.plain_container "/out"
    = (inr meta,
       {| unread := [];
          written := thumbnail_file Demo.fs "/out" None ++ files
                     ++ [(os_path_join "/out" "meta.json", json_dumps meta)] |}) /\
    map fst files = ["/out/intro.wav"; "/out/theme.ogg"].
Proof.
  apply (saved_container_unpacks_to_the_rows (J := py_json)).
  - eapply then_; [|apply removes with (selection := [1])].
    eapply then_; [|apply adds].
    eapply then_; [|apply chooses_mode]. apply fresh.
  - discriminate.
  - discriminate.
  - vm_compute; reflexivity.
  - vm_compute; reflexivity.
Defined.

End CompilerWindowWitnesses.

(** * Playing in parallel, again *)

Section ParallelAgain.

Import ModaPlayer.

Variable Sound_loads : string -> bool.
Variable Thread_starts : nat -> bool.



End ParallelAgain.

Section ParallelAgainWitnesses.

Import ModaPlayer.

Local Open Scope string_scope.
Local Open Scope list_scope.


End ParallelAgainWitnesses.

(** * The player and the decompiler read the same format *)

Section TwoReaders.
Context {J : JsonModule}.
Variables gettempdir mkdtemp : string.

Import ModaDecompiler ModaPlayer.

Lemma basename_join_any (d b : string) : basename (os_path_join d b) = basename b.
Proof.
  unfold os_path_join. destruct (startswith_slash b); [reflexivity|].
  destruct (String.eqb_spec d EmptyString) as [-> | Hne]; simpl; [reflexivity|].
  destruct (endswith_slash d) eqn:E.
  - destruct (endswith_slash_split _ E) as [a ->].
    rewrite append_assoc. simpl. unfold basename at 1. apply basename_from_slash.
  - unfold basename at 1. apply basename_from_slash.
Qed.

Lemma names_directory_join_any (d b : string) :
  names_directory (os_path_join d b) = names_directory b.
Proof. unfold names_directory. now rewrite basename_join_any. Qed.

(** ** Readers *)

Lemma reads_f_read (n : N) : reads (f_read n).
Proof.
  intros u. exists (inr (firstn (N.to_nat n) u)), (skipn (N.to_nat n) u).
  intros w. reflexivity.
Qed.

Lemma reads_lift (A : Type) (r : exn + A) : reads (lift r).
Proof. intros u. exists r, u. intros w. reflexivity. Qed.

Lemma reads_raise (A : Type) (e : exn) : reads (raise (A := A) e).
Proof. intros u. exists (inl e), u. intros w. reflexivity. Qed.

Lemma reads_bind (A B : Type) (m : M io A) (k : A -> M io B) :
  reads m -> (forall a, reads (k a)) -> reads (bind m k).
Proof.
  intros Hm Hk u. destruct (Hm u) as ([e|a] & u1 & H).
  - exists (inl e), u1. intros w. unfold bind. now rewrite H.
  - destruct (Hk a u1) as (r2 & u2 & H2). exists r2, u2. intros w.
    unfold bind. rewrite H. apply H2.
Qed.

Lemma reads_read_H : reads read_H.
Proof. apply reads_bind; [apply reads_f_read | intros; apply reads_lift]. Qed.

Lemma reads_read_I : reads read_I.
Proof. apply reads_bind; [apply reads_f_read | intros; apply reads_lift]. Qed.

Lemma reads_read_str (n : N) : reads (read_str n).
Proof. apply reads_bind; [apply reads_f_read | intros; apply reads_lift]. Qed.

Lemma reads_read_header : reads read_header.
Proof.
  unfold read_header. apply reads_bind; [apply reads_f_read|]. intros magic.
  destruct (negb (bytes_eqb magic MODA_MAGIC)); [apply reads_raise|].
  apply reads_bind; [apply reads_read_I|]. intros n.
  apply reads_bind; [apply reads_f_read|]. intros b. apply reads_lift.
Qed.

Lemma unpacks_reads (A : Type) (m : M io A) : reads m -> unpacks (fun _ => m).
Proof.
  intros Hm u. destruct (Hm u) as (r & u1 & H). exists r, u1, []. intros dir w.
  rewrite H. cbn. now rewrite app_nil_r.
Qed.

Lemma unpacked_app (dir : string) (l1 l2 : list (string * list byte)) :
  unpacked dir (l1 ++ l2) = unpacked dir l1 ++ unpacked dir l2.
Proof. apply map_app. Qed.

Lemma unpacks_bind (A B : Type) (m : string -> M io A) (k : A -> string -> M io B) :
  unpacks m -> (forall a, unpacks (k a)) -> unpacks (fun dir => bind (m dir) (fun a => k a dir)).
Proof.
  intros Hm Hk u. destruct (Hm u) as ([e|a] & u1 & log1 & H).
  - exists (inl e), u1, log1. intros dir w. unfold bind. now rewrite H.
  - destruct (Hk a u1) as (r2 & u2 & log2 & H2). exists r2, u2, (log1 ++ log2).
    intros dir w. unfold bind. rewrite H, H2, unpacked_app. now rewrite app_assoc.
Qed.

Lemma unpacks_open_wb (name : string) (data : list byte) :
  unpacks (fun dir => open_wb (os_path_join dir name) data).
Proof.
  intros u. destruct (names_directory name) eqn:E.
  - exists (inl OSError), u, []. intros dir w. unfold open_wb.
    rewrite names_directory_join_any, E. cbn. now rewrite app_nil_r.
  - exists (inr tt), u, [(name, data)]. intros dir w. unfold open_wb.
    now rewrite names_directory_join_any, E.
Qed.

Lemma unpacks_for_range (n : nat) (body : string -> M io unit) :
  unpacks body -> unpacks (fun dir => for_range n (body dir)).
Proof.
  intros H. induction n as [|n IH].
  - apply (unpacks_reads (m := ret tt)). intros u. exists (inr tt), u. reflexivity.
  - cbn [for_range].
    apply (@unpacks_bind _ _ body (fun _ dir => for_range n (body dir)));
      [exact H | intros _; exact IH].
Qed.

Lemma unpacks_read_track : unpacks read_track.
Proof.
  unfold read_track.
  apply (unpacks_bind (m := fun _ => read_H)); [apply unpacks_reads, reads_read_H|].
  intros nl.
  apply (unpacks_bind (m := fun _ => read_str nl));
    [apply unpacks_reads, reads_read_str|].
  intros name.
  apply (unpacks_bind (m := fun _ => read_I)); [apply unpacks_reads, reads_read_I|].
  intros size.
  apply (unpacks_bind (m := fun _ => f_read size)); [apply unpacks_reads, reads_f_read|].
  intros data. apply unpacks_open_wb.
Qed.

Lemma unpacks_read_tracks : unpacks read_tracks.
Proof.
  unfold read_tracks.
  apply (unpacks_bind (m := fun _ => read_H)); [apply unpacks_reads, reads_read_H|].
  intros count. apply unpacks_for_range, unpacks_read_track.
Qed.

Lemma unpacks_read_thumbnail : unpacks read_thumbnail.
Proof.
  unfold read_thumbnail.
  apply (unpacks_bind (m := fun _ => read_H)); [apply unpacks_reads, reads_read_H|].
  intros nl. destruct (0 <? nl)%N.
  - apply (unpacks_bind (m := fun _ => read_str nl));
      [apply unpacks_reads, reads_read_str|].
    intros name.
    apply (unpacks_bind (m := fun _ => read_I)); [apply unpacks_reads, reads_read_I|].
    intros size.
    apply (unpacks_bind (m := fun _ => f_read size)); [apply unpacks_reads, reads_f_read|].
    intros data. apply unpacks_open_wb.
  - apply (unpacks_reads (m := ret tt)). intros u. exists (inr tt), u. reflexivity.
Qed.

(** ** The player's reader is the decompiler's *)

Lemma load_track_is_read_track (p : player) (f : io) :
  temp_dir p = Some mkdtemp ->
  load_track (p, f) = (fst (read_track mkdtemp f), (p, snd (read_track mkdtemp f))).
Proof.
  intros Hd. unfold load_track, read_track, on_file, bind, gets, lift. cbn [fst snd].
  destruct (read_H f) as [[e|nl] f1]; [reflexivity|]. cbn [fst snd].
  destruct (read_str nl f1) as [[e|name] f2]; [reflexivity|]. cbn [fst snd].
  destruct (read_I f2) as [[e|size] f3]; [reflexivity|]. cbn [fst snd].
  destruct (f_read size f3) as [[e|data] f4]; [reflexivity|]. cbn [fst snd].
  rewrite Hd. cbn [py_path_join].
  destruct (open_wb (os_path_join mkdtemp name) data f4) as [r f5]. reflexivity.
Qed.

Lemma load_track_loop (n : nat) (p : player) :
  temp_dir p = Some mkdtemp ->
  forall f,
  for_range n load_track (p, f)
  = (fst (for_range n (read_track mkdtemp) f),
     (p, snd (for_range n (read_track mkdtemp) f))).
Proof.
  intros Hd. induction n as [|n IH]; intros f; [reflexivity|].
  cbn [for_range]. unfold bind.
  rewrite load_track_is_read_track by exact Hd.
  destruct (read_track mkdtemp f) as [[e|[]] f1]; [reflexivity|]. cbn [fst snd].
  apply IH.
Qed.

Lemma load_tracks_is_read_tracks (p : player) (f : io) :
  load_tracks mkdtemp (p, f)
  = (fst (read_tracks mkdtemp f),
     (set_temp_dir (Some mkdtemp) p, snd (read_tracks mkdtemp f))).
Proof.
  unfold load_tracks, read_tracks. erewrite run_bind by reflexivity. cbn [fst snd].
  unfold bind. unfold on_file at 1. cbn [fst snd].
  destruct (read_H f) as [[e|count] f1]; [reflexivity|]. cbn [fst snd].
  now apply load_track_loop.
Qed.

Lemma load_thumbnail_is_read_thumbnail (p : player) (f : io) :
  exists p',
    load_thumbnail gettempdir (p, f)
    = (fst (read_thumbnail gettempdir f), (p', snd (read_thumbnail gettempdir f))).
Proof.
  unfold load_thumbnail, read_thumbnail, on_file, on_self, bind. cbn [fst snd].
  destruct (read_H f) as [[e|nl] f1]; [eexists; reflexivity|]. cbn [fst snd].
  destruct (0 <? nl)%N; [|eexists; reflexivity]. cbn [fst snd].
  destruct (read_str nl f1) as [[e|name] f2]; [eexists; reflexivity|]. cbn [fst snd].
  destruct (read_I f2) as [[e|size] f3]; [eexists; reflexivity|]. cbn [fst snd].
  destruct (f_read size f3) as [[e|data] f4]; [eexists; reflexivity|]. cbn [fst snd].
  destruct (open_wb (os_path_join gettempdir name) data f4) as [r f5].
  eexists. reflexivity.
Qed.

Lemma load_metadata_is_read_header (p : player) (f : io) :
  (forall meta, fst (read_header f) = inr meta -> exists members, meta = JObj members) ->
  exists p',
    load_metadata (p, f) = (fst (read_header f), (p', snd (read_header f))).
Proof.
  intros Hobj.
  unfold load_metadata, read_header, on_file, on_self, bind, lift, ret in *.
  cbn [fst snd] in *.
  destruct (f_read 4 f) as [[e|magic] f1]; [eexists; reflexivity|]. cbn [fst snd] in *.
  destruct (negb (bytes_eqb magic MODA_MAGIC)); [eexists; reflexivity|]. cbn [fst snd] in *.
  destruct (read_I f1) as [[e|n] f2]; [eexists; reflexivity|]. cbn [fst snd] in *.
  destruct (f_read n f2) as [[e|b] f3]; [eexists; reflexivity|]. cbn [fst snd] in *.
  destruct (json_loads b) as [e|meta]; [eexists; reflexivity|].
  destruct (Hobj meta eq_refl) as [members ->].
  cbn [py_get]. destruct (dict_lookup members "play_mode");
    destruct (dict_lookup members "tracks"); eexists; reflexivity.
Qed.

(** The player unpacks what the decompiler unpacks.  On any bytes whose
    metadata, if it can be read, is a JSON object, [load_moda] returns the
    metadata [extract_moda] returns, or fails where it fails and for the
    same reason; both leave the same bytes unread, and both write the same
    thumbnail and the same tracks, with the same names and data in the same
    order: [extract_moda] into the output directory, followed by
    [meta.json] when it succeeds, [load_moda] the thumbnail into the
    system's temporary directory and the tracks into its fresh one. *)
Theorem player_unpacks_what_the_decompiler_unpacks (data : list byte) (dir : string)
    (self : player) :
  (forall meta, fst (read_header (at_ data [])) = inr meta ->
     exists members, meta = JObj members) ->
  exists (thumb tracks : list (string * list byte)) (p : player),
    load_moda gettempdir mkdtemp data self
    = (as_loading (fst (extract_moda data dir)),
       (p, {| unread := unread (snd (extract_moda data dir));
              written := unpacked gettempdir thumb ++ unpacked mkdtemp tracks |})) /\
    written (snd (extract_moda data dir))
    = unpacked dir thumb ++ unpacked dir tracks
      ++ match fst (extract_moda data dir) with
         | inr meta => [(os_path_join dir "meta.json", json_dumps meta)]
         | inl _ => []
         end.
Proof.
  intros Hobj.
  destruct (load_metadata_is_read_header self (at_ data []) Hobj) as [p1 Hmeta].
  destruct (reads_read_header data) as (r0 & u0 & H0).
  rewrite H0 in Hmeta. cbn [fst snd] in Hmeta.
  unfold load_moda, extract_moda, try_except, load_body, extract_body.
  change {| unread := data; written := [] |} with (at_ data []).
  destruct r0 as [e|meta].
  { (* the header cannot be read *)
    erewrite run_bind_raise by exact Hmeta.
    erewrite run_bind_raise with (m := read_header) by apply H0.
    exists [], [], p1. split; reflexivity. }
  erewrite run_bind by exact Hmeta.
  erewrite run_bind with (m := read_header) by apply H0.
  destruct (unpacks_read_thumbnail u0) as (r1 & u1 & log1 & H1).
  destruct (load_thumbnail_is_read_thumbnail p1 (at_ u0 [])) as [p2 Hthumb].
  rewrite H1 in Hthumb. cbn [fst snd app] in Hthumb.
  destruct r1 as [e|[]].
  { (* ... nor the thumbnail *)
    erewrite run_bind_raise by exact Hthumb.
    erewrite run_bind_raise with (m := read_thumbnail dir) by apply H1.
    exists log1, [], p2. cbn. rewrite !app_nil_r. split; reflexivity. }
  erewrite run_bind by exact Hthumb.
  erewrite run_bind with (m := read_thumbnail dir) by apply H1.
  destruct (unpacks_read_tracks u1) as (r2 & u2 & log2 & H2).
  pose proof (load_tracks_is_read_tracks p2 (at_ u1 (unpacked gettempdir log1))) as Htracks.
  rewrite H2 in Htracks. cbn [fst snd app] in Htracks.
  destruct r2 as [e|[]].
  { (* ... nor the tracks *)
    erewrite run_bind_raise by exact Htracks.
    erewrite run_bind_raise with (m := read_tracks dir) by apply H2.
    eexists log1, log2, _. cbn. rewrite !app_nil_r. split; reflexivity. }
  erewrite run_bind by exact Htracks.
  erewrite run_bind with (m := read_tracks dir) by apply H2.
  erewrite run_bind with (m := open_wb (os_path_join dir "meta.json") (json_dumps meta))
    by (apply open_wb_ok, names_directory_meta).
  eexists log1, log2, _. cbn. rewrite <- !app_assoc. split; reflexivity.
Qed.

End TwoReaders.

Section TwoReadersWitnesses.

Local Open Scope string_scope.
Local Open Scope list_scope.

Lemma player_unpacks_what_the_decompiler_unpacks_witness :
  exists (thumb tracks : list (string * list byte)) (p : player),
    ModaPlayer.load_moda (J := py_json) "/tmp" "/tmp/moda_x" Demo.container ModaPlayer.init
    = (as_loading (fst (ModaDecompiler.extract_moda (J := py_json) Demo.container "/out")),
       (p, {| unread := unread (snd (ModaDecompiler.extract_moda (J := py_json)
                                       Demo.container "/out"));
              written := unpacked "/tmp" thumb ++ unpacked "/tmp/moda_x" tracks |})) /\
    written (snd (ModaDecompiler.extract_moda (J := py_json) Demo.container "/out"))
    = unpacked "/out" thumb ++ unpacked "/out" tracks
      ++ match fst (ModaDecompiler.extract_moda (J := py_json) Demo.container "/out") with
         | inr meta => [(os_path_join "/out" "meta.json", json_dumps meta)]
         | inl _ => []
         end.
Proof.
  apply player_unpacks_what_the_decompiler_unpacks.
  intros meta H. vm_compute in H. inversion H. eexists. reflexivity.
Defined.

End TwoReadersWitnesses.

Section NoObject.
Context {J : JsonModule}.
Variables gettempdir mkdtemp : string.

Import ModaDecompiler ModaPlayer.

(** The player wants an object.  When the metadata of a file is JSON but
    not an object (a list, a string, a number), [load_moda] fails on its
    first [meta.get] with an [AttributeError]: the player is left as it
    was, nothing is written and the rest of the file is not read, whatever
    it holds; [extract_moda] makes no such demand. *)
Theorem load_moda_wants_an_object (data : list byte) (self : player) (meta : json) :
  fst (read_header (at_ data [])) = inr meta ->
  (forall members, meta <> JObj members) ->
  load_moda gettempdir mkdtemp data self
  = (inl (ErrorLoading AttributeError), (self, snd (read_header (at_ data [])))).
Proof.
  intros Hmeta Hno.
  unfold load_moda, try_except, load_body, load_metadata.
  change {| unread := data; written := [] |} with (at_ data []).
  unfold read_header, on_file, on_self, bind, lift, ret in *. cbn [fst snd] in *.
  destruct (f_read 4 (at_ data [])) as [[e|magic] f1]; [discriminate|]. cbn [fst snd] in *.
  destruct (negb (bytes_eqb magic MODA_MAGIC)); [discriminate|]. cbn [fst snd] in *.
  destruct (read_I f1) as [[e|n] f2]; [discriminate|]. cbn [fst snd] in *.
  destruct (f_read n f2) as [[e|b] f3]; [discriminate|]. cbn [fst snd] in *.
  destruct (json_loads b) as [e|meta0]; [discriminate|].
  cbn [fst snd] in *. inversion Hmeta; subst meta0.
  destruct meta; try reflexivity. now destruct (Hno members).
Qed.

End NoObject.

Section NoObjectWitnesses.

Local Open Scope string_scope.
Local Open Scope list_scope.

Lemma load_moda_wants_an_object_witness :
  ModaPlayer.load_moda (J := py_json) "/tmp" "/tmp/moda_x"
    (MODA_MAGIC ++ DemoCodec.empty_meta_len ++ list_byte_of_string "[]" ++ DemoWindow.sec
     ++ DemoWindow.count ++ DemoWindow.records)
    ModaPlayer.init
  = (inl (ErrorLoading AttributeError),
     (ModaPlayer.init,
      snd (ModaDecompiler.read_header (J := py_json)
             (at_ (MODA_MAGIC ++ DemoCodec.empty_meta_len ++ list_byte_of_string "[]"
                   ++ DemoWindow.sec ++ DemoWindow.count ++ DemoWindow.records) [])))).
Proof.
  apply load_moda_wants_an_object with (meta := JArr []).
  - vm_compute. reflexivity.
  - discriminate.
Defined.

End NoObjectWitnesses.

(** * A container that stops inside a track *)

Section CutTracks.
Context {J : JsonModule}.

Import ModaCompiler ModaDecompiler.

Lemma read_track_fails_before_writing (dir : string) (u : list byte)
    (w : list (string * list byte)) (e : exn) (s : io) :
  read_track dir (at_ u w) = (inl e, s) -> written s = w.
Proof.
  unfold read_track.
  destruct (reads_read_H u) as ([e1|nl] & u1 & H1).
  { erewrite run_bind_raise by apply H1. intros E. now inversion E. }
  erewrite run_bind by apply H1.
  destruct (reads_read_str nl u1) as ([e2|name] & u2 & H2).
  { erewrite run_bind_raise by apply H2. intros E. now inversion E. }
  erewrite run_bind by apply H2.
  destruct (reads_read_I u2) as ([e3|size] & u3 & H3).
  { erewrite run_bind_raise by apply H3. intros E. now inversion E. }
  erewrite run_bind by apply H3.
  destruct (reads_f_read size u3) as ([e4|data] & u4 & H4).
  { erewrite run_bind_raise by apply H4. intros E. now inversion E. }
  erewrite run_bind by apply H4.
  unfold open_wb. destruct (names_directory (os_path_join dir name)); [|discriminate].
  intros E. now inversion E.
Qed.

Lemma thumbnail_section_length (fs : filesystem) (thumb : option string) (sec : list byte) :
  thumbnail_section fs thumb = inr sec ->
  length sec = match truthy_path thumb with
               | Some p => record_size fs p
               | None => 2
               end.
Proof.
  unfold thumbnail_section. intros Hs. destruct (truthy_path thumb) as [p|].
  - assert (Hrec : track_records fs [p] = inr (sec ++ [])).
    { assert (Hone : track_record fs p = inr sec) by exact Hs.
      cbn [track_records]. rewrite Hone. reflexivity. }
    apply track_records_length in Hrec. rewrite app_nil_r in Hrec.
    rewrite Hrec. cbn [map list_sum fold_right]. lia.
  - now apply pack_H_length in Hs.
Qed.

Section OneCut.

Variables (fs : filesystem) (writable : string -> bool).
Variables (before after : list string) (t play_mode : string) (thumb : option string).
Variables (output_path dir : string) (out : list byte).

Hypothesis Hbuilt :
  build_moda_file fs writable (before ++ t :: after) play_mode thumb output_path = inr out.
Hypothesis Hjson :
  json_loads (json_dumps (build_meta (before ++ t :: after) play_mode thumb))
  = inr (build_meta (before ++ t :: after) play_mode thumb).

(** The container, cut [k] bytes into the record of [t], is read up to that
    record. *)
Lemma extract_up_to_the_cut (k : nat) :
  k <= record_size fs t ->
  exists nl name dl c,
    struct_pack_H (len name) = inr nl /\
    encode_utf8 (basename t) = inr name /\
    struct_pack_I (len (content fs t)) = inr dl /\
    names_directory t = false /\
    length (nl ++ name ++ dl) = header_size t /\
    (after = [] <-> c = []) /\
    forall n, n <= k ->
    extract_moda
      (firstn (track_offset fs (before ++ t :: after) play_mode thumb before + n) out) dir
    = reraise
        (bind (for_range (S (length after)) (read_track dir))
           (fun _ => bind (open_wb (os_path_join dir "meta.json")
                             (json_dumps (build_meta (before ++ t :: after) play_mode thumb)))
              (fun _ => ret (build_meta (before ++ t :: after) play_mode thumb)))
           (at_ (firstn n ((nl ++ name ++ dl) ++ content fs t ++ c))
              (thumbnail_file fs dir thumb ++ track_files fs dir before))).
Proof.
  intros Hk.
  destruct (build_moda_file_layout _ _ _ _ _ _ Hbuilt)
    as (json_len & sec & count & records & Hl & Hs & Hc & Hr & Hout).
  destruct (track_records_split _ _ _ Hr) as (a & b & Ha & Hrb & ->).
  cbn [track_records] in Hrb.
  destruct (track_record fs t) as [e|r] eqn:Et; [discriminate|]. cbn [bind_sum] in Hrb.
  destruct (track_records fs after) as [e|c] eqn:Ec; [discriminate|]. cbn [bind_sum] in Hrb.
  inversion Hrb; subst b; clear Hrb.
  destruct (track_record_split _ _ Et) as (nl & name & dl & H1 & H2 & H3 & H4 & ->).
  exists nl, name, dl, c. repeat (split; [eassumption|]).
  assert (Hname : name = list_byte_of_string (basename t)).
  { apply encode_utf8_inv in H2. tauto. }
  split.
  { rewrite !length_app, (pack_H_length _ H1), (pack_I_length _ H3), Hname.
    unfold header_size. lia. }
  split.
  { split.
    - intros ->. cbn in Ec. now inversion Ec.
    - intros ->. destruct after as [|t1 after']; [reflexivity|].
      cbn [track_records] in Ec.
      destruct (track_record fs t1) as [e|r1] eqn:E1; [discriminate|]. cbn [bind_sum] in Ec.
      destruct (track_records fs after') as [e|c1]; [discriminate|]. cbn [bind_sum] in Ec.
      destruct (track_record_split _ _ E1) as (nl1 & ? & ? & Hp & _ & _ & _ & ->).
      apply pack_H_length in Hp. inversion Ec as [Hnil].
      apply (f_equal (@length byte)) in Hnil. rewrite !length_app, Hp in Hnil.
      simpl in Hnil. lia. }
  intros n Hn.
  set (meta := build_meta (before ++ t :: after) play_mode thumb) in *.
  set (h := nl ++ name ++ dl) in *. set (d := content fs t) in *.
  assert (Hoff : track_offset fs (before ++ t :: after) play_mode thumb before
                 = length (MODA_MAGIC ++ json_len ++ json_dumps meta ++ sec ++ count ++ a)).
  { unfold track_offset. fold meta.
    rewrite !length_app, (pack_I_length _ Hl), (pack_H_length _ Hc),
      (track_records_length _ _ Ha), (thumbnail_section_length _ _ Hs).
    change (length MODA_MAGIC) with 4. lia. }
  assert (Hcut : firstn (track_offset fs (before ++ t :: after) play_mode thumb before + n) out
                 = MODA_MAGIC ++ json_len ++ json_dumps meta ++ sec ++ count ++ a
                   ++ firstn n ((h ++ d) ++ c)).
  { rewrite Hoff, Hout.
    replace (MODA_MAGIC ++ json_len ++ json_dumps meta ++ sec ++ count ++ a ++ (h ++ d) ++ c)
      with ((MODA_MAGIC ++ json_len ++ json_dumps meta ++ sec ++ count ++ a)
            ++ (h ++ d) ++ c) by now rewrite <- !app_assoc.
    rewrite firstn_app_2. now rewrite <- !app_assoc. }
  rewrite Hcut. rewrite <- app_assoc.
  erewrite extract_after_header by eassumption.
  erewrite run_bind by (apply read_thumbnail_section; eassumption).
  rewrite app_nil_l.
  assert (Htr : read_tracks dir
                  (at_ (count ++ a ++ firstn n (h ++ d ++ c)) (thumbnail_file fs dir thumb))
                = for_range (S (length after)) (read_track dir)
                    (at_ (firstn n (h ++ d ++ c))
                       (thumbnail_file fs dir thumb ++ track_files fs dir before))).
  { unfold read_tracks.
    erewrite run_bind by (apply read_H_app; exact Hc).
    unfold len. rewrite Nat2N.id, length_app. cbn [length].
    rewrite for_range_add.
    erewrite run_bind by (apply read_track_records; exact Ha).
    reflexivity. }
  unfold bind at 1. rewrite Htr. reflexivity.
Qed.

(** Nothing is undone when unpacking fails.  A container that stops in
    front of the data of one of its tracks (inside the length of the
    track's name, inside the name or inside the length of the data) makes
    [extract_moda] fail; the thumbnail and the tracks in front of that
    track have been written and stay written, and [meta.json] is not
    written.  A container that stops inside the data of a track that is
    not the last, or right after it, fails too, and leaves behind, as
    well, the file of that track with the data that was there. *)
Theorem failed_extraction_keeps_written_files :
  (forall k, k < header_size t ->
     exists e s,
       extract_moda
         (firstn (track_offset fs (before ++ t :: after) play_mode thumb before + k) out) dir
       = (inl (ErrorExtracting e), s) /\
       cut_short e /\
       written s = thumbnail_file fs dir thumb ++ track_files fs dir before) /\
  (after <> [] ->
   forall j, j <= length (content fs t) ->
     exists s,
       extract_moda
         (firstn (track_offset fs (before ++ t :: after) play_mode thumb before
                  + header_size t + j) out) dir
       = (inl (ErrorExtracting TruncatedInput), s) /\
       written s
       = thumbnail_file fs dir thumb ++ track_files fs dir before
         ++ [(os_path_join dir (basename t), firstn j (content fs t))]).
Proof.
  destruct (@extract_up_to_the_cut (record_size fs t) (Nat.le_refl _))
    as (nl & name & dl & c & H1 & H2 & H3 & H4 & Hh & Hc & Hrun).
  assert (Hsize : record_size fs t = header_size t + length (content fs t)).
  { unfold record_size, header_size. lia. }
  split.
  - intros k Hk. rewrite Hrun by lia.
    rewrite firstn_app_le by lia.
    cbn [for_range].
    destruct (@read_track_cut_header fs t dir nl name dl H1 H2 H3 k
                (thumbnail_file fs dir thumb ++ track_files fs dir before))
      as (e & s & E & He); [lia|].
    exists e, s. split; [|split; [exact He|]].
    + erewrite run_bind_raise; [reflexivity|].
      erewrite run_bind_raise; [reflexivity | exact E].
    + eapply read_track_fails_before_writing, E.
  - intros Hafter j Hj.
    rewrite <- Nat.add_assoc. rewrite Hrun by lia.
    rewrite <- Hh.
    rewrite firstn_app_2. rewrite firstn_app_le by exact Hj.
    destruct after as [|t1 after']; [contradiction|].
    eexists. split.
    + erewrite run_bind_raise; [reflexivity|].
      cbn [length for_range].
      erewrite run_bind by (eapply read_track_cut_data; eassumption).
      erewrite run_bind_raise; [reflexivity|].
      unfold read_track. erewrite run_bind_raise; [reflexivity|].
      apply read_H_short. simpl. lia.
    + cbn [written at_]. now rewrite <- app_assoc.
Qed.

End OneCut.

End CutTracks.

Section CutTracksWitnesses.

Import ModaCompiler ModaDecompiler.

Local Open Scope string_scope.
Local Open Scope list_scope.

Lemma failed_extraction_keeps_written_files_witness :
  exists e s,
    extract_moda (J := py_json)
      (firstn (track_offset (J := py_json) Demo.fs Demo.tracks "sequential"
                 (Some "/art/cover.png") ["/music/intro.wav"] + 5)
         Demo.container) "/out"
    = (inl (ErrorExtracting e), s) /\
    cut_short e /\
    written s = thumbnail_file Demo.fs "/out" (Some "/art/cover.png")
                ++ track_files Demo.fs "/out" ["/music/intro.wav"].
Proof.
  apply (proj1 (@failed_extraction_keeps_written_files py_json Demo.fs (fun _ => true)
                  ["/music/intro.wav"] [] "/music/theme.ogg" "sequential"
                  (Some "/art/cover.png") "/music/album.moda" "/out" Demo.container
                  eq_refl eq_refl) 5).
  vm_compute. lia.
Defined.

End CutTracksWitnesses.
